(** * A shallow embedding of the search server (TF-IDF document index)

    The development follows the final snapshot of the [SearchServer] class:
    the tokenizer, the stop-word filter, the query parser, the inverted
    index [tf_], the document store, the relevance engine and the ranking
    of [FindTopDocuments].  The earlier snapshot of the class kept in
    [search-server/main.cpp] is embedded in the module [Legacy] and
    compared with the final one, and the printer of the test framework is
    embedded as well.

    Modelling choices, all taken from the C++ source:
    - [double] is IEEE 754 binary64, i.e. Rocq's primitive [float];
      [log] comes from the C library and is a parameter of the engine;
    - [int] is a 32-bit two's complement integer, kept in [Z] with the
      wrap-around written out ([to_int]);
    - [std::string] is a byte string ([string], characters are [ascii]);
    - [std::map] and [std::set] are ordered containers whose iteration
      order is observable (it fixes the order of floating-point additions
      and the order in which candidates reach [std::sort]); they are kept
      as association lists in ascending key order;
    - a C++ exception is an [Err] result; a mutating member function maps
      the object to the outcome paired with the object afterwards. *)

From Stdlib Require Import ZArith List Bool Lia String Ascii Floats Uint63.
From Stdlib Require Import Permutation.
Import ListNotations.

Local Open Scope string_scope.
Local Open Scope list_scope.

(** ** Ordered keys *)

(** The key order used by [std::map] and [std::set] ([std::less]). *)
Class Ord (K : Type) := {
  cmp : K -> K -> comparison;
  cmp_eq : forall a b, cmp a b = Eq <-> a = b;
  cmp_antisym : forall a b, cmp b a = CompOpp (cmp a b);
  cmp_lt_trans : forall a b c, cmp a b = Lt -> cmp b c = Lt -> cmp a c = Lt
}.

Lemma Z_cmp_lt_trans (a b c : Z) :
  Z.compare a b = Lt -> Z.compare b c = Lt -> Z.compare a c = Lt.
Proof. rewrite !Z.compare_lt_iff. lia. Qed.

#[export] Instance Ord_Z : Ord Z := {
  cmp := Z.compare;
  cmp_eq := Z.compare_eq_iff;
  cmp_antisym := fun a b => Z.compare_antisym a b;
  cmp_lt_trans := Z_cmp_lt_trans
}.

Lemma ascii_compare_refl (c : ascii) : Ascii.compare c c = Eq.
Proof. unfold Ascii.compare. apply N.compare_refl. Qed.

Lemma ascii_compare_lt_trans (a b c : ascii) :
  Ascii.compare a b = Lt -> Ascii.compare b c = Lt -> Ascii.compare a c = Lt.
Proof. unfold Ascii.compare. rewrite !N.compare_lt_iff. lia. Qed.

Lemma string_compare_refl (s : string) : String.compare s s = Eq.
Proof.
  induction s as [|c s IH]; simpl; [reflexivity|].
  now rewrite ascii_compare_refl.
Qed.

Lemma string_compare_eq (a b : string) : String.compare a b = Eq <-> a = b.
Proof.
  split; [apply String.compare_eq_iff|].
  intros ->. apply string_compare_refl.
Qed.

Lemma string_compare_lt_trans (a b c : string) :
  String.compare a b = Lt -> String.compare b c = Lt -> String.compare a c = Lt.
Proof.
  revert b c. induction a as [|x a IH]; intros [|y b] [|z c]; simpl;
    try discriminate; try reflexivity.
  destruct (Ascii.compare x y) eqn:Exy; try discriminate;
    destruct (Ascii.compare y z) eqn:Eyz; try discriminate; intros Hab Hbc.
  - apply Ascii.compare_eq_iff in Exy, Eyz. subst.
    rewrite ascii_compare_refl. eauto.
  - apply Ascii.compare_eq_iff in Exy. subst. now rewrite Eyz.
  - apply Ascii.compare_eq_iff in Eyz. subst. now rewrite Exy.
  - now rewrite (ascii_compare_lt_trans _ _ _ Exy Eyz).
Qed.

(** [std::string] compares bytes as unsigned values, then lengths. *)
#[export] Instance Ord_string : Ord string := {
  cmp := String.compare;
  cmp_eq := string_compare_eq;
  cmp_antisym := fun a b => String.compare_antisym b a;
  cmp_lt_trans := string_compare_lt_trans
}.

(** ** Ordered containers *)

Section Containers.
Context {K : Type} `{Ord K}.

(** [std::set<K>]: the elements in ascending order. *)
Definition oset := list K.

(** [set::count]. *)
Fixpoint set_count (k : K) (l : oset) : nat :=
  match l with
  | [] => 0
  | x :: l' =>
      match cmp k x with
      | Lt => 0
      | Eq => 1
      | Gt => set_count k l'
      end
  end.

(** [set::insert]. *)
Fixpoint set_insert (k : K) (l : oset) : oset :=
  match l with
  | [] => [k]
  | x :: l' =>
      match cmp k x with
      | Lt => k :: l
      | Eq => l
      | Gt => x :: set_insert k l'
      end
  end.

(** Elements strictly ascending: the representation invariant of
    [std::set]. *)
Fixpoint set_ascending (l : oset) : Prop :=
  match l with
  | [] => True
  | x :: l' => Forall (fun y => cmp x y = Lt) l' /\ set_ascending l'
  end.

Context {V : Type}.

(** [std::map<K, V>]: the entries in ascending key order. *)
Definition omap := list (K * V).

(** [map::find], as an option. *)
Fixpoint find (k : K) (m : omap) : option V :=
  match m with
  | [] => None
  | (k', v) :: m' =>
      match cmp k k' with
      | Lt => None
      | Eq => Some v
      | Gt => find k m'
      end
  end.

(** [map::count]. *)
Definition count (k : K) (m : omap) : nat :=
  match find k m with Some _ => 1 | None => 0 end.

(** [m[k] = f(m[k])], where [operator[]] first creates a missing entry:
    [f] receives [None] when the key was absent. *)
Fixpoint upsert (k : K) (f : option V -> V) (m : omap) : omap :=
  match m with
  | [] => [(k, f None)]
  | (k', v) :: m' =>
      match cmp k k' with
      | Lt => (k, f None) :: m
      | Eq => (k, f (Some v)) :: m'
      | Gt => (k', v) :: upsert k f m'
      end
  end.

(** [map::erase] by key. *)
Fixpoint erase (k : K) (m : omap) : omap :=
  match m with
  | [] => []
  | (k', v) :: m' =>
      match cmp k k' with
      | Lt => m
      | Eq => m'
      | Gt => (k', v) :: erase k m'
      end
  end.

(** Keys strictly ascending: the representation invariant of [std::map]. *)
Definition below (k : K) (m : omap) : Prop :=
  Forall (fun kv => cmp k (fst kv) = Lt) m.

Fixpoint ascending (m : omap) : Prop :=
  match m with
  | [] => True
  | (k, _) :: m' => below k m' /\ ascending m'
  end.

End Containers.

Arguments oset K : clear implicits.
Arguments omap K V : clear implicits.

(** ** Exceptions *)

Inductive exception : Type :=
| invalid_argument (what : string)
| out_of_range.

Inductive result (A : Type) : Type :=
| Ok (a : A)
| Err (e : exception).

Arguments Ok {A} a.
Arguments Err {A} e.

Definition bind {A B : Type} (r : result A) (k : A -> result B) : result B :=
  match r with
  | Ok a => k a
  | Err e => Err e
  end.

Notation "x <- r ;; k" := (bind r (fun x => k))
  (at level 61, r at next level, right associativity).
Notation "' p <- r ;; k" := (bind r (fun x => let p := x in k))
  (at level 61, p pattern, r at next level, right associativity).

(** [map::at]: throws [std::out_of_range] on a missing key. *)
Definition at_ {K V : Type} `{Ord K} (k : K) (m : omap K V) : result V :=
  match find k m with
  | Some v => Ok v
  | None => Err out_of_range
  end.

(** ** Machine numbers *)

(** The value an arithmetic result takes when stored in a 32-bit [int]. *)
Definition to_int (z : Z) : Z :=
  ((z + 2147483648) mod 4294967296 - 2147483648)%Z.

Definition int_range (z : Z) : Prop := (-2147483648 <= z <= 2147483647)%Z.

(** Conversion of a container size to [double] (round to nearest even).
    The primitive conversion takes a 63-bit integer; container sizes of a
    64-bit process are below [2^63]. *)
Definition of_size (n : nat) : float :=
  PrimFloat.of_uint63 (Uint63.of_Z (Z.of_nat n)).

(** [const double EPSILON = 1e-6]. *)
Definition EPSILON : float := 0x1.0c6f7a0b5ed8dp-20%float.

(** [const int MAX_RESULT_DOCUMENT_COUNT = 5]. *)
Definition MAX_RESULT_DOCUMENT_COUNT : nat := 5.

(** ** Text *)

(** [using DocumentId = int; using Word = string;] *)
Abbreviation DocumentId := Z (only parsing).
Abbreviation Word := string (only parsing).

(** [std::isspace] in the classic locale: the separators of [operator>>]. *)
Definition isspace (c : ascii) : bool :=
  let n := nat_of_ascii c in
  (n =? 32)%nat || ((9 <=? n)%nat && (n <=? 13)%nat).

(** Reading words with [istream_iterator<Word>]: [word] is the word being
    read, [text] what is left of the stream. *)
Fixpoint SplitIntoWords_from (word : string) (text : string) : list Word :=
  match text with
  | EmptyString =>
      match word with
      | EmptyString => []
      | _ => [word]
      end
  | String c rest =>
      if isspace c then
        match word with
        | EmptyString => SplitIntoWords_from EmptyString rest
        | _ => word :: SplitIntoWords_from EmptyString rest
        end
      else SplitIntoWords_from (word ++ String c EmptyString) rest
  end.

Definition SplitIntoWords (text : string) : list Word :=
  SplitIntoWords_from EmptyString text.

(** [IsInvalid]: some byte of the text is in [0, 31]. *)
Definition IsInvalid (text : string) : bool :=
  existsb (fun c => (nat_of_ascii c <=? 31)%nat) (list_ascii_of_string text).

(** [MakeUniqueNonEmptyStrings]. *)
Definition MakeUniqueNonEmptyStrings (strings : list string) : oset string :=
  fold_left
    (fun non_empty_strings str =>
       match str with
       | EmptyString => non_empty_strings
       | _ => set_insert str non_empty_strings
       end)
    strings [].

(** [text[i]] for [i <= size]: the byte, or the terminating zero. *)
Definition char_at (text : string) (i : nat) : ascii :=
  match String.get i text with
  | Some c => c
  | None => Ascii.zero
  end.

(** ** Documents and the server object *)

Inductive DocumentStatus : Type := ACTUAL | IRRELEVANT | BANNED | REMOVED.

Definition DocumentStatus_eqb (a b : DocumentStatus) : bool :=
  match a, b with
  | ACTUAL, ACTUAL | IRRELEVANT, IRRELEVANT
  | BANNED, BANNED | REMOVED, REMOVED => true
  | _, _ => false
  end.

Record Document : Type := mkDocument {
  id : DocumentId;
  relevance : float;
  status : DocumentStatus;
  rating : Z
}.

Record SearchServer : Type := mkSearchServer {
  tf_ : omap Word (omap DocumentId float);
  stop_words_ : oset Word;
  document_id_to_rating_and_rating_ : omap DocumentId (Z * DocumentStatus);
  document_id_orders_ : list DocumentId
}.

Record Query : Type := mkQuery {
  plus_words : oset Word;
  minus_words : oset Word
}.

Record QueryWord : Type := mkQueryWord {
  data : string;
  is_minus : bool;
  is_stop : bool
}.

(** *** Construction *)

(** [SearchServer() = default]. *)
Definition SearchServer_default : SearchServer :=
  mkSearchServer [] [] [] [].

(** [SearchServer(const Container& stop_words)]. *)
Definition SearchServer_new (stop_words : list string) : result SearchServer :=
  let uniquie_stop_words := MakeUniqueNonEmptyStrings stop_words in
  if existsb IsInvalid uniquie_stop_words
  then Err (invalid_argument "Invalid stop word")
  else Ok (mkSearchServer [] uniquie_stop_words [] []).

(** [SearchServer(const string& stop_words)]. *)
Definition SearchServer_of_text (stop_words : string) : result SearchServer :=
  SearchServer_new (SplitIntoWords stop_words).

(** *** Private helpers *)

Definition IsStopWord (s : SearchServer) (word : Word) : bool :=
  (0 <? set_count word (stop_words_ s))%nat.

Definition SplitIntoWordsNoStop (s : SearchServer) (text : string) : list Word :=
  filter (fun word => negb (IsStopWord s word)) (SplitIntoWords text).

(** [std::accumulate(ratings.begin(), ratings.end(), 0)] in [int]. *)
Definition accumulate (ratings : list Z) (init : Z) : Z :=
  fold_left (fun acc r => to_int (acc + r)) ratings init.

(** Integer division of C++ truncates toward zero: [Z.quot]. *)
Definition ComputeAverageRating (ratings : list Z) : Z :=
  match ratings with
  | [] => 0%Z
  | _ => Z.quot (accumulate ratings 0%Z) (to_int (Z.of_nat (List.length ratings)))
  end.

Definition ParseQueryWord (s : SearchServer) (text : string) : result QueryWord :=
  if IsInvalid text then Err (invalid_argument "Invalid query")
  else if Ascii.eqb (char_at text 0) "-"%char then
    if (String.length text =? 1)%nat || Ascii.eqb (char_at text 1) "-"%char
    then Err (invalid_argument "Invalid minus word")
    else
      let text' := String.substring 1 (String.length text - 1) text in
      Ok (mkQueryWord text' true (IsStopWord s text'))
  else Ok (mkQueryWord text false (IsStopWord s text)).

(** The loop of [ParseQuery] over the words still to read. *)
Fixpoint ParseQuery_loop (s : SearchServer) (words : list Word) (query : Query)
  : result Query :=
  match words with
  | [] => Ok query
  | word :: rest =>
      query_word <- ParseQueryWord s word ;;
      ParseQuery_loop s rest
        (if is_stop query_word then query
         else if is_minus query_word
              then mkQuery (plus_words query)
                           (set_insert (data query_word) (minus_words query))
              else mkQuery (set_insert (data query_word) (plus_words query))
                           (minus_words query))
  end.

Definition ParseQuery (s : SearchServer) (text : string) : result Query :=
  ParseQuery_loop s (SplitIntoWordsNoStop s text) (mkQuery [] []).

(** *** Adding a document *)

(** [double step = 1. / words.size()]. *)
Definition AddDocument_step (words : list Word) : float :=
  (1 / of_size (List.length words))%float.

(** [x += term] on a map entry of type [double]: an entry that
    [operator[]] has just created starts at [0.0]. *)
Definition increase (term : float) (value : option float) : float :=
  (match value with Some v => v | None => 0 end + term)%float.

(** [tf_[word][document_id] += step]. *)
Definition add_posting (document_id : DocumentId) (step : float)
  (tf : omap Word (omap DocumentId float)) (word : Word)
  : omap Word (omap DocumentId float) :=
  upsert word
    (fun postings =>
       upsert document_id (increase step)
         (match postings with Some p => p | None => [] end))
    tf.

(** [AddDocument]: the outcome and the object afterwards. The exception is
    thrown before anything is written. *)
Definition AddDocument (document_id : DocumentId) (document : string)
  (status : DocumentStatus) (ratings : list Z) (s : SearchServer)
  : result unit * SearchServer :=
  if (document_id <? 0)%Z
     || negb (count document_id (document_id_to_rating_and_rating_ s) =? 0)%nat
     || IsInvalid document
  then (Err (invalid_argument "Bad document to add"), s)
  else
    let words := SplitIntoWordsNoStop s document in
    let documents :=
      upsert document_id (fun _ => (ComputeAverageRating ratings, status))
        (document_id_to_rating_and_rating_ s) in
    let step := AddDocument_step words in
    let tf := fold_left (add_posting document_id step) words (tf_ s) in
    (Ok tt,
     mkSearchServer tf (stop_words_ s) documents
       (document_id_orders_ s ++ [document_id])).

(** *** Lifecycle queries *)

Definition GetDocumentCount (s : SearchServer) : Z :=
  to_int (Z.of_nat (List.length (document_id_orders_ s))).

(** [document_id_orders_.at(index)]: a negative [int] converts to a huge
    [size_t], which is out of range as well. *)
Definition GetDocumentId (s : SearchServer) (index : Z) : result DocumentId :=
  if (index <? 0)%Z then Err out_of_range
  else match nth_error (document_id_orders_ s) (Z.to_nat index) with
       | Some document_id => Ok document_id
       | None => Err out_of_range
       end.

(** *** Matching one document *)

(** The loop over the minus words: [tf_.at(word)] has no guard. *)
Fixpoint MatchDocument_minus (s : SearchServer) (document_id : DocumentId)
  (minus : list Word) : result bool :=
  match minus with
  | [] => Ok false
  | word :: rest =>
      postings <- at_ word (tf_ s) ;;
      if (0 <? count document_id postings)%nat then Ok true
      else MatchDocument_minus s document_id rest
  end.

(** The loop over the plus words: [tf_.count(word) && ...] guards [at]. *)
Definition MatchDocument_plus (s : SearchServer) (document_id : DocumentId)
  (plus : list Word) : oset Word :=
  fold_left
    (fun matched_words word =>
       match find word (tf_ s) with
       | Some postings =>
           if (0 <? count document_id postings)%nat
           then set_insert word matched_words
           else matched_words
       | None => matched_words
       end)
    plus [].

Definition MatchDocument (s : SearchServer) (raw_query : string)
  (document_id : DocumentId) : result (list Word * DocumentStatus) :=
  query <- ParseQuery s raw_query ;;
  entry <- at_ document_id (document_id_to_rating_and_rating_ s) ;;
  let status := snd entry in
  excluded <- MatchDocument_minus s document_id (minus_words query) ;;
  if excluded then Ok ([], status)
  else Ok (MatchDocument_plus s document_id (plus_words query), status).

(** ** [std::sort]

    The library routine is not part of the repository.  It is modelled by
    the insertion sort that libstdc++ runs on ranges of at most sixteen
    elements ([std::__insertion_sort]): each element is moved to the front
    when it precedes the first one, and otherwise travels left while it
    precedes its left neighbour. *)

Section Sort.
Context {A : Type} (comp : A -> A -> bool).

(** [__unguarded_linear_insert]; the sorted prefix is held reversed. *)
Fixpoint linear_insert (val : A) (rev_prefix : list A) : list A :=
  match rev_prefix with
  | [] => [val]
  | prev :: before =>
      if comp val prev then prev :: linear_insert val before
      else val :: rev_prefix
  end.

Definition insertion_step (sorted : list A) (val : A) : list A :=
  match sorted with
  | [] => [val]
  | first :: _ =>
      if comp val first then val :: sorted
      else rev (linear_insert val (rev sorted))
  end.

Definition std_sort (l : list A) : list A := fold_left insertion_step l [].

End Sort.

(** ** The relevance engine *)

(** The comparator handed to [std::sort] by [FindTopDocuments]. *)
Definition by_relevance (lhs rhs : Document) : bool :=
  (relevance rhs <? relevance lhs)%float
  || ((abs (relevance lhs - relevance rhs) <? EPSILON)%float
      && (rating rhs <? rating lhs)%Z).

Section Engine.

(** [log] of [<cmath>]. *)
Variable log : float -> float.

Definition CalculateIDF (s : SearchServer) (documents_number : nat) : float :=
  log (of_size (List.length (document_id_orders_ s)) / of_size documents_number)%float.

(** [relevance[document_id] += idf * tf_value]. *)
Definition add_relevance (idf : float) (relevance : omap DocumentId float)
  (posting : DocumentId * float) : omap DocumentId float :=
  upsert (fst posting) (increase (idf * snd posting)) relevance.

(** The body of the loop over the plus words. *)
Definition plus_step (s : SearchServer) (relevance : omap DocumentId float)
  (word : Word) : omap DocumentId float :=
  match find word (tf_ s) with
  | None => relevance
  | Some tf =>
      let idf := CalculateIDF s (List.length tf) in
      fold_left (add_relevance idf) tf relevance
  end.

(** The body of the loop over the minus words. *)
Definition minus_step (s : SearchServer) (relevance : omap DocumentId float)
  (word : Word) : omap DocumentId float :=
  match find word (tf_ s) with
  | None => relevance
  | Some tf => fold_left (fun r posting => erase (fst posting) r) tf relevance
  end.

(** The map [relevance] when both loops are over. *)
Definition relevance_map (s : SearchServer) (query_words : Query)
  : omap DocumentId float :=
  fold_left (minus_step s) (minus_words query_words)
    (fold_left (plus_step s) (plus_words query_words) []).

(** The last loop: one [Document] per entry, in ascending id order;
    [document_id_to_rating_and_rating_.at] may throw. *)
Fixpoint matched_documents_of (s : SearchServer)
  (relevance : omap DocumentId float) : result (list Document) :=
  match relevance with
  | [] => Ok []
  | (document_id, rel) :: rest =>
      entry <- at_ document_id (document_id_to_rating_and_rating_ s) ;;
      matched_documents <- matched_documents_of s rest ;;
      Ok (mkDocument document_id rel (snd entry) (fst entry) :: matched_documents)
  end.

Definition FindAllDocuments (s : SearchServer) (query_words : Query)
  : result (list Document) :=
  matched_documents_of s (relevance_map s query_words).

(** [FindTopDocuments(raw_query, filter)]: parse, collect, sort, drop what
    the predicate rejects ([remove_if] keeps the order), cut to five. *)
Definition FindTopDocuments (s : SearchServer) (raw_query : string)
  (filter_ : DocumentId -> DocumentStatus -> Z -> bool)
  : result (list Document) :=
  query_words <- ParseQuery s raw_query ;;
  matched_documents <- FindAllDocuments s query_words ;;
  let matched_documents := std_sort by_relevance matched_documents in
  let matched_documents :=
    filter (fun lhs => filter_ (id lhs) (status lhs) (rating lhs))
      matched_documents in
  Ok (if (MAX_RESULT_DOCUMENT_COUNT <? List.length matched_documents)%nat
      then firstn MAX_RESULT_DOCUMENT_COUNT matched_documents
      else matched_documents).

(** [FindTopDocuments(raw_query, status = ACTUAL)]. *)
Definition FindTopDocuments_by_status (s : SearchServer) (raw_query : string)
  (status : DocumentStatus) : result (list Document) :=
  FindTopDocuments s raw_query
    (fun _ status_ _ => DocumentStatus_eqb status_ status).

End Engine.

(** ** Reachable states and specification-level notions *)

(** The arguments of one successful call of [AddDocument]. *)
Record AddCall : Type := mkAddCall {
  call_id : DocumentId;
  call_text : string;
  call_status : DocumentStatus;
  call_ratings : list Z
}.

(** [built stop_words calls s]: the object [s] was constructed with
    [stop_words] and then received the calls [calls], in this order, each
    of which returned normally.  A call that throws leaves the object as
    it was, so it does not show in the history. *)
Inductive built (stop_words : list string)
  : list AddCall -> SearchServer -> Prop :=
| built_new s :
    SearchServer_new stop_words = Ok s -> built stop_words [] s
| built_add calls s c s' :
    built stop_words calls s ->
    AddDocument (call_id c) (call_text c) (call_status c) (call_ratings c) s
      = (Ok tt, s') ->
    built stop_words (calls ++ [c]) s'.

Definition reachable (s : SearchServer) : Prop :=
  exists stop_words calls, built stop_words calls s.

(** Running a list of calls, each on the object the previous one left. *)
Definition add_all (calls : list AddCall) (s : SearchServer) : SearchServer :=
  fold_left
    (fun s c =>
       snd (AddDocument (call_id c) (call_text c) (call_status c)
              (call_ratings c) s))
    calls s.

(** Every call of the list returns normally. *)
Fixpoint accepted (calls : list AddCall) (s : SearchServer) : bool :=
  match calls with
  | [] => true
  | c :: rest =>
      match AddDocument (call_id c) (call_text c) (call_status c)
              (call_ratings c) s with
      | (Ok _, s') => accepted rest s'
      | (Err _, _) => false
      end
  end.

(** The weight of [word] in document [d], when the index holds one. *)
Definition posting_in (tf : omap Word (omap DocumentId float))
  (word : Word) (d : DocumentId) : option float :=
  match find word tf with
  | Some postings => find d postings
  | None => None
  end.

Definition posting (s : SearchServer) : Word -> DocumentId -> option float :=
  posting_in (tf_ s).

(** The representation invariant of the object. *)
Record wf_server (s : SearchServer) : Prop := mk_wf_server {
  wf_tf : ascending (tf_ s);
  wf_postings : forall w tf, find w (tf_ s) = Some tf -> ascending tf;
  wf_documents : ascending (document_id_to_rating_and_rating_ s);
  wf_stop : set_ascending (stop_words_ s);
  wf_registered : forall w d v,
    posting s w d = Some v ->
    find d (document_id_to_rating_and_rating_ s) <> None;
  wf_no_stop : forall w, IsStopWord s w = true -> find w (tf_ s) = None;
  wf_keys : find EmptyString (tf_ s) = None
}.

(** The sum [0.0 + step + ... + step] with [k] additions, associated as
    the repeated [+=] computes it. *)
Fixpoint add_times (k : nat) (step : float) : float :=
  match k with
  | O => 0%float
  | S k' => (add_times k' step + step)%float
  end.

(** What a run of [+= step] over [words] leaves for [word]. *)
Definition tally (step : float) (word : Word) (words : list Word)
  (start : option float) : option float :=
  fold_left
    (fun acc w => if String.eqb word w then Some (increase step acc) else acc)
    words start.

(** The number of times [word] occurs in [words]. *)
Definition occurrences (word : Word) (words : list Word) : nat :=
  count_occ string_dec words word.

(** The mathematical sum of a list of integers. *)
Definition sum_Z (l : list Z) : Z := fold_right Z.add 0%Z l.

(** No prefix sum leaves the range of [int]. *)
Definition sums_in_range (l : list Z) : Prop :=
  forall n, int_range (sum_Z (firstn n l)).

(** The order the ranking is meant to produce between a result [a] and
    the result [b] that follows it. *)
Definition ranked (a b : Document) : Prop :=
  (relevance b <? relevance a)%float = true
  \/ ((abs (relevance a - relevance b) <? EPSILON)%float = true
      /\ (rating b <= rating a)%Z).

(** The query after one more word has been classified. *)
Definition with_word (qw : QueryWord) (query : Query) : Query :=
  if is_stop qw then query
  else if is_minus qw
       then mkQuery (plus_words query)
                    (set_insert (data qw) (minus_words query))
       else mkQuery (set_insert (data qw) (plus_words query))
                    (minus_words query).

(** The sum of the weights a document has for the words of [terms]. *)
Definition weight_sum (s : SearchServer) (d : Z) (terms : list string)
  : float :=
  fold_left
    (fun acc w =>
       (acc + match posting s w d with Some v => v | None => 0 end)%float)
    terms 0%float.

(** The result of a binary64 rounding that is not a zero: a finite number
    or an infinity of sign [sx], with exponent [e <= bound]. *)
Definition rounded (sx : bool) (x : spec_float) (bound : Z) : Prop :=
  exists p e,
    x = (if (e <=? emax - prec)%Z then S754_finite sx p e
         else S754_infinity sx)
    /\ (e <= bound)%Z.

(** Positive numbers, zero apart: finite or infinite. *)
Definition positive_sf (x : spec_float) : Prop :=
  match x with
  | S754_finite false _ _ | S754_infinity false => True
  | _ => False
  end.

(** A [double] that is positive. *)
Definition positive_float (x : float) : Prop := positive_sf (Prim2SF x).

Section EngineSpec.

Variable log : float -> float.

(** The inverse document frequency of a word of the index: the logarithm
    of the document count over the number of documents holding the word. *)
Definition idf_of (s : SearchServer) (word : Word) : float :=
  match find word (tf_ s) with
  | Some postings =>
      log (of_size (List.length (document_id_orders_ s))
           / of_size (List.length postings))%float
  | None => 0%float
  end.

(** The relevance document [d] gathers from the plus words, taken in
    order: [idf * tf] is added for each word that has a posting for [d];
    a word without one (absent from the index or from [d]) adds nothing. *)
Definition accumulated (s : SearchServer) (plus : list Word) (d : DocumentId)
  : option float :=
  fold_left
    (fun acc word =>
       match posting s word d with
       | Some tf_value =>
           Some (match acc with Some r => r | None => 0 end
                 + idf_of s word * tf_value)%float
       | None => acc  (* nothing is added *)
       end)
    plus None.

(** Some minus word has a posting for [d]. *)
Definition excluded (s : SearchServer) (minus : list Word) (d : DocumentId)
  : bool :=
  existsb
    (fun word => match posting s word d with Some _ => true | None => false end)
    minus.

Definition expected_relevance (s : SearchServer) (q : Query) (d : DocumentId)
  : option float :=
  if excluded s (minus_words q) d then None
  else accumulated s (plus_words q) d.

End EngineSpec.

(** ** Sample objects for the closed statements *)

(** A server whose stop words are "in" and "the". *)
Definition server_in_the : SearchServer :=
  mkSearchServer [] ["in"; "the"] [] [].

(** The two documents of the repository's minus-word test. *)
Definition cat_calls : list AddCall :=
  [ mkAddCall 0%Z "cat in the city" ACTUAL [1%Z];
    mkAddCall 1%Z "cat in boots" ACTUAL [1%Z] ].

Definition server_cats : SearchServer := add_all cat_calls SearchServer_default.

Definition server_cats_no_stop : SearchServer := add_all cat_calls server_in_the.

(** A text of [n + 1] words: "x" followed by [n] times "y". *)
Definition padded (n : nat) : string :=
  String.concat " " ("x" :: repeat "y" n).

(** Six documents. The first three hold the word "x" once, among 1000,
    1001 and 1002 words; their ratings grow while their weights shrink,
    and the middle one is banned. *)
Definition close_calls : list AddCall :=
  [ mkAddCall 0%Z (padded 999) ACTUAL [1%Z];
    mkAddCall 1%Z (padded 1000) BANNED [3%Z];
    mkAddCall 2%Z (padded 1001) ACTUAL [5%Z];
    mkAddCall 3%Z "z" ACTUAL [];
    mkAddCall 4%Z "z" ACTUAL [];
    mkAddCall 5%Z "z" ACTUAL [] ].

Definition server_close : SearchServer :=
  add_all close_calls SearchServer_default.

(** The double nearest to the natural logarithm of two, which is what
    [log(2.0)] returns. *)
Definition ln2 : float := 0x1.62e42fefa39efp-1%float.

(** Seven documents that all hold the word "cat". *)
Definition many_cat_calls : list AddCall :=
  map (fun i => mkAddCall (Z.of_nat i) "cat" ACTUAL [Z.of_nat i]) (seq 0 7).

Definition server_many_cats : SearchServer :=
  add_all many_cat_calls SearchServer_default.

(** A document of ten words, three of which are "a". *)
Definition ten_words : string := "a a a b c d e f g h".

Definition server_ten : SearchServer :=
  add_all [mkAddCall 0%Z ten_words ACTUAL []] SearchServer_default.

(** ** Further vocabulary *)

(** A word as the tokenizer delivers it: not empty, no separator inside. *)
Definition is_word (w : string) : Prop :=
  w <> EmptyString /\ existsb isspace (list_ascii_of_string w) = false.

(** The terms of an added document: its words without the stop words. *)
Definition terms_of (s : SearchServer) (c : AddCall) : list Word :=
  SplitIntoWordsNoStop s (call_text c).

(** The exception [ParseQueryWord] throws for a word, if it throws. *)
Definition query_word_fault (word : string) : option exception :=
  if IsInvalid word then Some (invalid_argument "Invalid query")
  else if String.eqb word "-" || String.prefix "--" word
       then Some (invalid_argument "Invalid minus word")
       else None.

(** The first minus word, in iteration order, that is not a key of the
    index while no minus word before it holds the document. *)
Definition minus_word_missing (s : SearchServer) (minus : list Word)
  (d : DocumentId) : Prop :=
  exists before word after,
    minus = before ++ word :: after
    /\ find word (tf_ s) = None
    /\ forall w, In w before -> posting s w d = None.

(** ** The earlier snapshot of the class

    [search-server/main.cpp] holds the class as it was before the
    constructors, the validation of documents and queries and
    [GetDocumentId] were written: the stop words are set by a member
    function, nothing throws on purpose, ratings and statuses live in two
    maps and the documents are counted in an [int]. *)

(** [static_cast<double>(n)] for an [int]. *)
Definition of_int (z : Z) : float :=
  if (z <? 0)%Z then (- PrimFloat.of_uint63 (Uint63.of_Z (- z)))%float
  else PrimFloat.of_uint63 (Uint63.of_Z z).

Module Legacy.

Record SearchServer : Type := mkSearchServer {
  tf_ : omap Word (omap DocumentId float);
  stop_words_ : oset Word;
  document_id_to_rating_ : omap DocumentId Z;
  document_id_to_status_ : omap DocumentId DocumentStatus;
  document_count_ : Z
}.

(** The implicit default constructor. *)
Definition SearchServer_default : SearchServer :=
  mkSearchServer [] [] [] [] 0%Z.

Definition SetStopWords (text : string) (s : SearchServer) : SearchServer :=
  mkSearchServer (tf_ s)
    (fold_left (fun stop_words word => set_insert word stop_words)
       (SplitIntoWords text) (stop_words_ s))
    (document_id_to_rating_ s) (document_id_to_status_ s)
    (document_count_ s).

Definition IsStopWord (s : SearchServer) (word : Word) : bool :=
  (0 <? set_count word (stop_words_ s))%nat.

Definition SplitIntoWordsNoStop (s : SearchServer) (text : string)
  : list Word :=
  filter (fun word => negb (IsStopWord s word)) (SplitIntoWords text).

(** No check of the id or of the text: the call always returns. *)
Definition AddDocument (document_id : DocumentId) (document : string)
  (status : DocumentStatus) (ratings : list Z) (s : SearchServer)
  : SearchServer :=
  let words := SplitIntoWordsNoStop s document in
  let step := AddDocument_step words in
  mkSearchServer
    (fold_left (add_posting document_id step) words (tf_ s))
    (stop_words_ s)
    (upsert document_id (fun _ => ComputeAverageRating ratings)
       (document_id_to_rating_ s))
    (upsert document_id (fun _ => status) (document_id_to_status_ s))
    (to_int (document_count_ s + 1)).

Definition GetDocumentCount (s : SearchServer) : Z := document_count_ s.

(** The body of the loop of [ParseQuery]: [query_word[0] == '-'] and
    [query_word.substr(1)], with no check of what is left. *)
Definition ParseQuery_step (query : Query) (query_word : Word) : Query :=
  if Ascii.eqb (char_at query_word 0) "-"%char
  then mkQuery (plus_words query)
         (set_insert
            (String.substring 1 (String.length query_word - 1) query_word)
            (minus_words query))
  else mkQuery (set_insert query_word (plus_words query)) (minus_words query).

Definition ParseQuery (s : SearchServer) (text : string) : Query :=
  fold_left ParseQuery_step (SplitIntoWordsNoStop s text) (mkQuery [] []).

Fixpoint MatchDocument_minus (s : SearchServer) (document_id : DocumentId)
  (minus : list Word) : result bool :=
  match minus with
  | [] => Ok false
  | word :: rest =>
      postings <- at_ word (tf_ s) ;;
      if (0 <? count document_id postings)%nat then Ok true
      else MatchDocument_minus s document_id rest
  end.

(** The loop over the plus words calls [tf_.at(word)] without a guard as
    well. *)
Fixpoint MatchDocument_plus (s : SearchServer) (document_id : DocumentId)
  (plus : list Word) (matched_words : oset Word) : result (oset Word) :=
  match plus with
  | [] => Ok matched_words
  | word :: rest =>
      postings <- at_ word (tf_ s) ;;
      MatchDocument_plus s document_id rest
        (if (0 <? count document_id postings)%nat
         then set_insert word matched_words
         else matched_words)
  end.

Definition MatchDocument (s : SearchServer) (raw_query : string)
  (document_id : DocumentId) : result (list Word * DocumentStatus) :=
  let query := ParseQuery s raw_query in
  status <- at_ document_id (document_id_to_status_ s) ;;
  excluded <- MatchDocument_minus s document_id (minus_words query) ;;
  if excluded then Ok ([], status)
  else
    matched_words <- MatchDocument_plus s document_id (plus_words query) [] ;;
    Ok (matched_words, status).

Section Engine.

Variable log : float -> float.

Definition CalculateIDF (s : SearchServer) (documents_number : nat) : float :=
  log (of_int (document_count_ s) / of_size documents_number)%float.

Definition plus_step (s : SearchServer) (relevance : omap DocumentId float)
  (word : Word) : omap DocumentId float :=
  match find word (tf_ s) with
  | None => relevance
  | Some tf =>
      let idf := CalculateIDF s (List.length tf) in
      fold_left (add_relevance idf) tf relevance
  end.

Definition minus_step (s : SearchServer) (relevance : omap DocumentId float)
  (word : Word) : omap DocumentId float :=
  match find word (tf_ s) with
  | None => relevance
  | Some tf => fold_left (fun r posting => erase (fst posting) r) tf relevance
  end.

Definition relevance_map (s : SearchServer) (query_words : Query)
  : omap DocumentId float :=
  fold_left (minus_step s) (minus_words query_words)
    (fold_left (plus_step s) (plus_words query_words) []).

Fixpoint matched_documents_of (s : SearchServer)
  (relevance : omap DocumentId float) : result (list Document) :=
  match relevance with
  | [] => Ok []
  | (document_id, rel) :: rest =>
      rating <- at_ document_id (document_id_to_rating_ s) ;;
      status <- at_ document_id (document_id_to_status_ s) ;;
      matched_documents <- matched_documents_of s rest ;;
      Ok (mkDocument document_id rel status rating :: matched_documents)
  end.

Definition FindAllDocuments (s : SearchServer) (query_words : Query)
  : result (list Document) :=
  matched_documents_of s (relevance_map s query_words).

Definition FindTopDocuments (s : SearchServer) (raw_query : string)
  (filter_ : DocumentId -> DocumentStatus -> Z -> bool)
  : result (list Document) :=
  let query_words := ParseQuery s raw_query in
  matched_documents <- FindAllDocuments s query_words ;;
  let matched_documents := std_sort by_relevance matched_documents in
  let matched_documents :=
    filter (fun lhs => filter_ (id lhs) (status lhs) (rating lhs))
      matched_documents in
  Ok (if (MAX_RESULT_DOCUMENT_COUNT <? List.length matched_documents)%nat
      then firstn MAX_RESULT_DOCUMENT_COUNT matched_documents
      else matched_documents).

Definition FindTopDocuments_by_status (s : SearchServer) (raw_query : string)
  (required_status : DocumentStatus) : result (list Document) :=
  FindTopDocuments s raw_query
    (fun _ status _ => DocumentStatus_eqb status required_status).

End Engine.

End Legacy.

(** The earlier snapshot after [SetStopWords(text)] and the calls of a
    history. *)
Definition legacy_run (text : string) (calls : list AddCall)
  : Legacy.SearchServer :=
  fold_left
    (fun l c =>
       Legacy.AddDocument (call_id c) (call_text c) (call_status c)
         (call_ratings c) l)
    calls (Legacy.SetStopWords text Legacy.SearchServer_default).

(** The two snapshots hold the same data. *)
Record same_state (s : SearchServer) (l : Legacy.SearchServer) : Prop :=
  mk_same_state {
    same_tf : Legacy.tf_ l = tf_ s;
    same_stop : Legacy.stop_words_ l = stop_words_ s;
    same_store : forall d,
      find d (document_id_to_rating_and_rating_ s)
      = match find d (Legacy.document_id_to_rating_ l),
              find d (Legacy.document_id_to_status_ l) with
        | Some rating_, Some status_ => Some (rating_, status_)
        | _, _ => None
        end;
    same_count :
      Legacy.document_count_ l
      = Z.of_nat (List.length (document_id_orders_ s))
  }.

(** ** The printer of the test framework *)

Section Printer.
Context {T : Type} (show : T -> string).

(** One round of the loop of [Print]: the stream and the flag
    [first_item]. *)
Definition Print_step (state : string * bool) (item : T) : string * bool :=
  let (output, first_item) := state in
  (((if first_item then output else output ++ ", ") ++ show item)%string,
   false).

Definition Print (output : string) (items : list T) : string :=
  fst (fold_left Print_step items (output, true)).

(** [operator<<] for [vector] and for [set]. *)
Definition print_vector (output : string) (items : list T) : string :=
  (Print (output ++ "[") items ++ "]")%string.

Definition print_set (output : string) (items : list T) : string :=
  (Print (output ++ "{") items ++ "}")%string.

End Printer.

(** [operator<<] for [pair] and for [map]. *)
Definition print_pair {F S : Type} (show_first : F -> string)
  (show_second : S -> string) (p : F * S) : string :=
  (show_first (fst p) ++ ": " ++ show_second (snd p))%string.

Definition print_map {F S : Type} (show_first : F -> string)
  (show_second : S -> string) (output : string) (items : list (F * S))
  : string :=
  (Print (print_pair show_first show_second) (output ++ "{") items ++ "}")%string.

(** * Properties *)

(** ** Ordered containers *)

Section ContainerFacts.
Context {K : Type} `{Ord K}.

Lemma cmp_refl (a : K) : cmp a a = Eq.
Proof. now apply cmp_eq. Qed.

Lemma cmp_gt_lt (a b : K) : cmp a b = Gt -> cmp b a = Lt.
Proof. intros E. rewrite (cmp_antisym a b), E. reflexivity. Qed.

Lemma cmp_lt_gt (a b : K) : cmp a b = Lt -> cmp b a = Gt.
Proof. intros E. rewrite (cmp_antisym a b), E. reflexivity. Qed.

(** Case analysis on a comparison, turning [Eq] into an equation. *)
Ltac by_cmp a b :=
  let E := fresh "E" in
  destruct (cmp a b) eqn:E;
  [ apply cmp_eq in E; try subst | | ].

(** *** Sets *)

Lemma set_insert_In (k x : K) (l : oset K) :
  In x (set_insert k l) <-> x = k \/ In x l.
Proof.
  induction l as [|y l IH]; simpl.
  - intuition.
  - by_cmp k y; simpl; rewrite ?IH; intuition.
Qed.

Lemma set_insert_ascending (k : K) (l : oset K) :
  set_ascending l -> set_ascending (set_insert k l).
Proof.
  induction l as [|y l IH]; simpl.
  - auto.
  - intros [Hy Hl]. by_cmp k y; simpl.
    + auto.
    + split; [|auto]. constructor; [assumption|].
      eapply Forall_impl; [|exact Hy]. simpl. intros z Hz.
      eapply cmp_lt_trans; eassumption.
    + split; [|auto]. apply Forall_forall. intros z Hz.
      apply set_insert_In in Hz. destruct Hz as [->|Hz].
      * now apply cmp_gt_lt.
      * rewrite Forall_forall in Hy. auto.
Qed.

Lemma set_count_In (k : K) (l : oset K) :
  set_ascending l -> (0 < set_count k l <-> In k l).
Proof.
  induction l as [|y l IH]; simpl.
  - intros _. split; [lia | tauto].
  - intros [Hy Hl]. by_cmp k y.
    + split; [auto | lia].
    + split; [lia|]. intros [->|Hin].
      * rewrite cmp_refl in E. discriminate.
      * rewrite Forall_forall in Hy. apply Hy in Hin.
        apply cmp_lt_gt in E.
        pose proof (cmp_lt_trans _ _ _ Hin (cmp_gt_lt _ _ E)) as C.
        rewrite cmp_refl in C. discriminate.
    + rewrite (IH Hl). split; [auto|]. intros [->|Hin]; [|assumption].
      rewrite cmp_refl in E. discriminate.
Qed.

(** *** Maps *)

Context {V : Type}.
Implicit Types (m : omap K V) (k : K).

Lemma find_upsert_same k f m : find k (upsert k f m) = Some (f (find k m)).
Proof.
  induction m as [|[k' v] m IH]; simpl.
  - now rewrite cmp_refl.
  - by_cmp k k'; simpl.
    + now rewrite cmp_refl.
    + now rewrite cmp_refl.
    + now rewrite E.
Qed.

Lemma find_upsert_other k k0 f m :
  k0 <> k -> find k0 (upsert k f m) = find k0 m.
Proof.
  intros N. induction m as [|[k' v] m IH]; simpl.
  - by_cmp k0 k; congruence.
  - by_cmp k k'; simpl.
    + by_cmp k0 k'; congruence.
    + by_cmp k0 k; try congruence.
      * now rewrite (cmp_lt_trans _ _ _ E0 E).
    + now rewrite IH.
Qed.

Lemma find_In k v m : find k m = Some v -> In (k, v) m.
Proof.
  induction m as [|[k' v'] m IH]; simpl; [discriminate|].
  by_cmp k k'; intros E'; try discriminate.
  - injection E' as ->. now left.
  - right. auto.
Qed.

Lemma below_find k m : below k m -> find k m = None.
Proof.
  destruct m as [|[k' v] m]; simpl; [reflexivity|].
  intros B. inversion B as [|? ? B1 B2]; subst. simpl in B1. now rewrite B1.
Qed.

Lemma below_trans k k0 m : cmp k0 k = Lt -> below k m -> below k0 m.
Proof.
  intros L B. eapply Forall_impl; [|exact B]. simpl.
  intros kv. eapply cmp_lt_trans; eassumption.
Qed.

Lemma ascending_In_find k v m :
  ascending m -> In (k, v) m -> find k m = Some v.
Proof.
  induction m as [|[k' v'] m IH]; simpl; [tauto|].
  intros [B A] [E|I].
  - injection E as -> ->. now rewrite cmp_refl.
  - assert (L : cmp k' k = Lt).
    { unfold below in B. rewrite Forall_forall in B. apply (B _ I). }
    rewrite (cmp_lt_gt _ _ L). auto.
Qed.

Lemma upsert_In k f m kv :
  In kv (upsert k f m) -> fst kv = k \/ In kv m.
Proof.
  induction m as [|[k' v] m IH]; simpl.
  - intros [<-|[]]. now left.
  - by_cmp k k'; simpl.
    + intros [<-|I]; [now left | right; now right].
    + intros [<-|I]; [now left | now right].
    + intros [<-|I]; [right; now left |].
      destruct (IH I); [now left | right; now right].
Qed.

Lemma below_upsert k k0 f m :
  cmp k0 k = Lt -> below k0 m -> below k0 (upsert k f m).
Proof.
  intros L B. apply Forall_forall. intros kv I.
  destruct (upsert_In _ _ _ _ I) as [->|I']; [assumption|].
  unfold below in B. rewrite Forall_forall in B. auto.
Qed.

Lemma ascending_upsert k f m : ascending m -> ascending (upsert k f m).
Proof.
  induction m as [|[k' v] m IH]; simpl.
  - intros _. split; [constructor | exact I].
  - intros [B A]. by_cmp k k'; simpl.
    + auto.
    + split; [|auto]. constructor; [assumption|].
      eapply below_trans; eassumption.
    + split; [|auto]. apply below_upsert; [|assumption]. now apply cmp_gt_lt.
Qed.

Lemma erase_In k m kv : In kv (erase k m) -> In kv m.
Proof.
  induction m as [|[k' v] m IH]; simpl; [tauto|].
  by_cmp k k'; simpl; intuition.
Qed.

Lemma below_erase k k0 m : below k0 m -> below k0 (erase k m).
Proof.
  intros B. apply Forall_forall. intros kv I. apply erase_In in I.
  unfold below in B. rewrite Forall_forall in B. auto.
Qed.

Lemma ascending_erase k m : ascending m -> ascending (erase k m).
Proof.
  induction m as [|[k' v] m IH]; simpl; [auto|].
  intros [B A]. by_cmp k k'; simpl; auto using below_erase.
Qed.

Lemma find_erase_same k m : ascending m -> find k (erase k m) = None.
Proof.
  induction m as [|[k' v] m IH]; simpl; [reflexivity|].
  intros [B A]. by_cmp k k'; simpl.
  - now apply below_find.
  - now rewrite E.
  - rewrite E. auto.
Qed.

Lemma find_erase_other k k0 m :
  ascending m -> k0 <> k -> find k0 (erase k m) = find k0 m.
Proof.
  intros A N. induction m as [|[k' v] m IH]; simpl; [reflexivity|].
  destruct A as [B A]. by_cmp k k'; simpl.
  - by_cmp k0 k'; try congruence.
    apply below_find. eapply below_trans; eassumption.
  - reflexivity.
  - now rewrite IH.
Qed.

End ContainerFacts.

Ltac by_cmp a b :=
  let E := fresh "E" in
  destruct (cmp a b) eqn:E;
  [ apply cmp_eq in E; try subst | | ].

(** ** The object and its invariant *)

Lemma MakeUniqueNonEmptyStrings_ascending (strings : list string) :
  set_ascending (MakeUniqueNonEmptyStrings strings).
Proof.
  unfold MakeUniqueNonEmptyStrings.
  assert (G : forall acc, set_ascending acc ->
            set_ascending
              (fold_left
                 (fun non_empty_strings str =>
                    match str with
                    | EmptyString => non_empty_strings
                    | _ => set_insert str non_empty_strings
                    end) strings acc)).
  { induction strings as [|x l IH]; simpl; [auto|].
    intros acc A. apply IH. destruct x; [assumption|].
    now apply set_insert_ascending. }
  apply G. exact I.
Qed.

Lemma MakeUniqueNonEmptyStrings_In (strings : list string) (w : string) :
  In w (MakeUniqueNonEmptyStrings strings) <-> In w strings /\ w <> EmptyString.
Proof.
  unfold MakeUniqueNonEmptyStrings.
  assert (G : forall acc,
            In w (fold_left
                    (fun non_empty_strings str =>
                       match str with
                       | EmptyString => non_empty_strings
                       | _ => set_insert str non_empty_strings
                       end) strings acc)
            <-> (In w strings /\ w <> EmptyString) \/ In w acc).
  { induction strings as [|x l IH]; simpl; intros acc.
    - tauto.
    - rewrite IH. destruct x as [|c x].
      + split; [intros [[? ?]|?]; auto | intros [[[<-|?] ?]|?]; auto].
        congruence.
      + rewrite set_insert_In.
        split; [intros [[? ?]|[->|?]]; auto | intros [[[<-|?] ?]|?]; auto].
        left. split; [now left | discriminate]. }
  rewrite G. simpl. tauto.
Qed.

Lemma IsStopWord_In (s : SearchServer) (w : Word) :
  set_ascending (stop_words_ s) ->
  (IsStopWord s w = true <-> In w (stop_words_ s)).
Proof.
  intros A. unfold IsStopWord. rewrite Nat.ltb_lt. now apply set_count_In.
Qed.

Lemma SplitIntoWords_from_nonempty (text word : string) (w : Word) :
  In w (SplitIntoWords_from word text) -> w <> EmptyString.
Proof.
  revert word. induction text as [|c rest IH]; intros word; simpl.
  - destruct word; [intros [] | intros [<-|[]]; discriminate].
  - destruct (isspace c).
    + destruct word; [apply IH|]. intros [<-|I]; [discriminate|].
      eapply IH; eassumption.
    + apply IH.
Qed.

Lemma SplitIntoWords_nonempty (text : string) :
  ~ In EmptyString (SplitIntoWords text).
Proof.
  intros I. now apply SplitIntoWords_from_nonempty in I.
Qed.

Lemma SplitIntoWordsNoStop_In (s : SearchServer) (text : string) (w : Word) :
  In w (SplitIntoWordsNoStop s text)
  <-> In w (SplitIntoWords text) /\ IsStopWord s w = false.
Proof.
  unfold SplitIntoWordsNoStop. rewrite filter_In, negb_true_iff. tauto.
Qed.

(** *** Postings written by [AddDocument] *)

Lemma find_add_posting id step tf w0 w :
  find w (add_posting id step tf w0)
  = if String.eqb w w0
    then Some (upsert id (increase step)
                 (match find w tf with Some p => p | None => [] end))
    else find w tf.
Proof.
  unfold add_posting. destruct (String.eqb w w0) eqn:E.
  - apply String.eqb_eq in E. subst. now rewrite find_upsert_same.
  - apply String.eqb_neq in E. now rewrite find_upsert_other.
Qed.

Lemma posting_add_posting id step tf w0 w d :
  posting_in (add_posting id step tf w0) w d
  = if String.eqb w w0 && Z.eqb d id
    then Some (increase step (posting_in tf w d))
    else posting_in tf w d.
Proof.
  unfold posting_in. rewrite find_add_posting.
  destruct (String.eqb w w0) eqn:E; simpl; [|reflexivity].
  destruct (Z.eqb d id) eqn:D.
  - apply Z.eqb_eq in D. subst. rewrite find_upsert_same.
    destruct (find w tf); reflexivity.
  - apply Z.eqb_neq in D. rewrite find_upsert_other by assumption.
    destruct (find w tf); reflexivity.
Qed.

Lemma posting_fold_add_posting id step words tf w d :
  posting_in (fold_left (add_posting id step) words tf) w d
  = if Z.eqb d id then tally step w words (posting_in tf w d)
    else posting_in tf w d.
Proof.
  revert tf. induction words as [|w0 words IH]; simpl; intros tf.
  - now destruct (Z.eqb d id).
  - rewrite IH, posting_add_posting.
    destruct (Z.eqb d id); [|now rewrite andb_false_r].
    now rewrite andb_true_r.
Qed.

Lemma tally_cons step w w0 words start :
  tally step w (w0 :: words) start
  = tally step w words
      (if String.eqb w w0 then Some (increase step start) else start).
Proof. reflexivity. Qed.

Lemma occurrences_cons w w0 words :
  occurrences w (w0 :: words)
  = if String.eqb w w0 then S (occurrences w words) else occurrences w words.
Proof.
  unfold occurrences. cbn [count_occ].
  destruct (string_dec w0 w) as [->|N].
  - now rewrite String.eqb_refl.
  - assert (E : String.eqb w w0 = false) by (apply String.eqb_neq; congruence).
    now rewrite E.
Qed.

Lemma tally_from_some step w words k :
  tally step w words (Some (add_times (S k) step))
  = Some (add_times (S (occurrences w words + k)) step).
Proof.
  revert k. induction words as [|w0 words IH]; intros k; [reflexivity|].
  rewrite tally_cons, occurrences_cons. destruct (String.eqb w w0).
  - change (Some (increase step (Some (add_times (S k) step))))
      with (Some (add_times (S (S k)) step)).
    rewrite IH. do 3 f_equal. lia.
  - apply IH.
Qed.

Lemma tally_occurrences step w words :
  tally step w words None
  = match occurrences w words with
    | O => None
    | S k => Some (add_times (S k) step)
    end.
Proof.
  induction words as [|w0 words IH]; [reflexivity|].
  rewrite tally_cons, occurrences_cons. destruct (String.eqb w w0).
  - change (Some (increase step None)) with (Some (add_times 1 step)).
    rewrite tally_from_some. do 3 f_equal. lia.
  - apply IH.
Qed.

Lemma find_fold_add_posting id step words tf w :
  (forall p, find w tf = Some p -> ascending p) ->
  match find w (fold_left (add_posting id step) words tf) with
  | Some p => ascending p
  | None => True
  end.
Proof.
  revert tf. induction words as [|w0 words IH]; simpl; intros tf A.
  - destruct (find w tf); auto.
  - apply IH. intros p. rewrite find_add_posting.
    destruct (String.eqb w w0); [|apply A].
    intros [= <-]. apply ascending_upsert.
    destruct (find w tf) eqn:F; [now apply A | exact I].
Qed.

Lemma ascending_fold_add_posting id step words tf :
  ascending tf -> ascending (fold_left (add_posting id step) words tf).
Proof.
  revert tf. induction words as [|w0 words IH]; simpl; intros tf A; [assumption|].
  apply IH. now apply ascending_upsert.
Qed.

Lemma find_fold_add_posting_key id step words tf w :
  find w (fold_left (add_posting id step) words tf) <> None ->
  find w tf <> None \/ In w words.
Proof.
  revert tf. induction words as [|w0 words IH]; simpl; intros tf N; [now left|].
  destruct (IH _ N) as [F|I]; [|right; now right].
  rewrite find_add_posting in F. destruct (String.eqb w w0) eqn:E.
  - apply String.eqb_eq in E. right. now left.
  - now left.
Qed.

(** *** [AddDocument] *)

Lemma AddDocument_inv id text st ratings s s' :
  AddDocument id text st ratings s = (Ok tt, s') ->
  (0 <= id)%Z
  /\ find id (document_id_to_rating_and_rating_ s) = None
  /\ IsInvalid text = false
  /\ s' = mkSearchServer
            (fold_left
               (add_posting id (AddDocument_step (SplitIntoWordsNoStop s text)))
               (SplitIntoWordsNoStop s text) (tf_ s))
            (stop_words_ s)
            (upsert id (fun _ => (ComputeAverageRating ratings, st))
               (document_id_to_rating_and_rating_ s))
            (document_id_orders_ s ++ [id]).
Proof.
  unfold AddDocument, count.
  destruct (Z.ltb_spec id 0); simpl; [discriminate|].
  destruct (find id (document_id_to_rating_and_rating_ s)); simpl;
    [discriminate|].
  destruct (IsInvalid text); [discriminate|].
  intros [= <-]. auto.
Qed.

Lemma SearchServer_new_wf stop_words s :
  SearchServer_new stop_words = Ok s -> wf_server s.
Proof.
  unfold SearchServer_new.
  destruct (existsb IsInvalid (MakeUniqueNonEmptyStrings stop_words));
    [discriminate|].
  intros [= <-]. constructor; simpl; try exact I; try discriminate;
    try reflexivity.
  apply MakeUniqueNonEmptyStrings_ascending.
Qed.

Lemma AddDocument_wf id text st ratings s s' :
  wf_server s ->
  AddDocument id text st ratings s = (Ok tt, s') ->
  wf_server s'.
Proof.
  intros W A. apply AddDocument_inv in A. destruct A as (_ & _ & _ & ->).
  destruct W as [Wtf Wp Wd Ws Wr Wn Wk]. constructor; simpl.
  - now apply ascending_fold_add_posting.
  - intros w tf F.
    pose proof (find_fold_add_posting id
                  (AddDocument_step (SplitIntoWordsNoStop s text))
                  (SplitIntoWordsNoStop s text) (tf_ s) w (Wp w)) as G.
    rewrite F in G. exact G.
  - now apply ascending_upsert.
  - assumption.
  - intros w d v. unfold posting. simpl.
    rewrite posting_fold_add_posting.
    destruct (Z.eqb_spec d id) as [->|N].
    + intros _. rewrite find_upsert_same. discriminate.
    + intros P. rewrite find_upsert_other by assumption. eapply Wr; eassumption.
  - intros w Sw. unfold IsStopWord in *. simpl in *.
    destruct (find w (fold_left _ _ _)) eqn:F; [|reflexivity].
    assert (N : find w
                  (fold_left
                     (add_posting id
                        (AddDocument_step (SplitIntoWordsNoStop s text)))
                     (SplitIntoWordsNoStop s text) (tf_ s)) <> None)
      by (rewrite F; discriminate).
    apply find_fold_add_posting_key in N. destruct N as [N|N].
    + rewrite (Wn w Sw) in N. congruence.
    + apply SplitIntoWordsNoStop_In in N. destruct N as [_ N].
      unfold IsStopWord in N. congruence.
  - destruct (find EmptyString (fold_left _ _ _)) eqn:F; [|reflexivity].
    assert (N : find EmptyString
                  (fold_left
                     (add_posting id
                        (AddDocument_step (SplitIntoWordsNoStop s text)))
                     (SplitIntoWordsNoStop s text) (tf_ s)) <> None)
      by (rewrite F; discriminate).
    apply find_fold_add_posting_key in N. destruct N as [N|N].
    + congruence.
    + apply SplitIntoWordsNoStop_In in N. destruct N as [N _].
      now apply SplitIntoWords_nonempty in N.
Qed.

Lemma built_wf stop_words calls s : built stop_words calls s -> wf_server s.
Proof.
  induction 1 as [s N | calls s c s' B IH A].
  - eapply SearchServer_new_wf; eassumption.
  - eapply AddDocument_wf; eassumption.
Qed.

Lemma built_stop_words stop_words calls s :
  built stop_words calls s ->
  stop_words_ s = MakeUniqueNonEmptyStrings stop_words.
Proof.
  induction 1 as [s N | calls s c s' B IH A].
  - unfold SearchServer_new in N.
    destruct (existsb IsInvalid (MakeUniqueNonEmptyStrings stop_words));
      [discriminate|].
    now injection N as <-.
  - apply AddDocument_inv in A. destruct A as (_ & _ & _ & ->). exact IH.
Qed.

Lemma reachable_wf s : reachable s -> wf_server s.
Proof. intros (stop_words & calls & B). eapply built_wf; eassumption. Qed.

Lemma built_add_all stop_words calls0 calls s :
  built stop_words calls0 s ->
  accepted calls s = true ->
  built stop_words (calls0 ++ calls) (add_all calls s).
Proof.
  revert calls0 s. induction calls as [|c calls IH]; intros calls0 s B A.
  - now rewrite app_nil_r.
  - cbn [accepted] in A.
    destruct (AddDocument (call_id c) (call_text c) (call_status c)
                (call_ratings c) s) as [[[]|e] s'] eqn:E; [|discriminate].
    unfold add_all. cbn [fold_left]. rewrite E. cbn [snd].
    fold (add_all calls s').
    replace (calls0 ++ c :: calls) with ((calls0 ++ [c]) ++ calls)
      by (rewrite <- app_assoc; reflexivity).
    apply IH; [|assumption]. eapply built_add; eassumption.
Defined.

Lemma reachable_add_all stop_words calls s :
  SearchServer_new stop_words = Ok s ->
  accepted calls s = true ->
  reachable (add_all calls s).
Proof.
  intros N A. exists stop_words, ([] ++ calls).
  apply built_add_all; [now apply built_new | assumption].
Defined.

(** ** Adding documents *)

Lemma IsInvalid_spec (text : string) :
  IsInvalid text = true
  <-> exists c, In c (list_ascii_of_string text) /\ (nat_of_ascii c <= 31)%nat.
Proof.
  unfold IsInvalid. rewrite existsb_exists.
  split; intros (c & I & L); exists c; split; try assumption.
  - now apply Nat.leb_le.
  - now apply Nat.leb_le.
Qed.

(** C2. [AddDocument] throws exactly when the id is negative, or the id is
    already registered, or the text holds a byte in [0, 31]; the exception
    is then [invalid_argument] ("Bad document to add") and the object is
    left as it was: index, document store, insertion order and hence the
    document count are all unchanged. *)
Theorem AddDocument_throws_iff id text st ratings s :
  let outcome := AddDocument id text st ratings s in
  ((exists e, fst outcome = Err e)
   <-> ((id < 0)%Z
        \/ find id (document_id_to_rating_and_rating_ s) <> None
        \/ exists c, In c (list_ascii_of_string text)
                     /\ (nat_of_ascii c <= 31)%nat))
  /\ (forall e, fst outcome = Err e ->
        e = invalid_argument "Bad document to add"
        /\ snd outcome = s
        /\ GetDocumentCount (snd outcome) = GetDocumentCount s).
Proof.
  cbv zeta. rewrite <- IsInvalid_spec. unfold AddDocument, count.
  destruct (Z.ltb_spec id 0) as [L|L]; simpl.
  { split.
    - split; [intros _; now left | intros _; eexists; reflexivity].
    - intros e [= <-]. auto. }
  destruct (find id (document_id_to_rating_and_rating_ s)) eqn:F; simpl.
  { split.
    - split; [intros _; right; left; discriminate
             | intros _; eexists; reflexivity].
    - intros e [= <-]. auto. }
  destruct (IsInvalid text) eqn:V; simpl.
  { split.
    - split; [intros _; right; now right | intros _; eexists; reflexivity].
    - intros e [= <-]. auto. }
  split.
  - split; [intros (e & E); discriminate|].
    intros [C|[C|C]]; [lia | congruence | discriminate].
  - intros e E. discriminate.
Qed.

(** *** Ratings *)

Lemma to_int_id (z : Z) : int_range z -> to_int z = z.
Proof.
  unfold int_range, to_int. intros R.
  rewrite Z.mod_small by lia. lia.
Qed.

Lemma accumulate_exact (ratings : list Z) (init : Z) :
  (forall n, int_range (init + sum_Z (firstn n ratings))) ->
  accumulate ratings init = (init + sum_Z ratings)%Z.
Proof.
  unfold accumulate. revert init.
  induction ratings as [|r l IH]; simpl; intros init R.
  - lia.
  - assert (E : to_int (init + r) = (init + r)%Z).
    { apply to_int_id. specialize (R 1%nat). simpl in R.
      now replace (init + (r + 0))%Z with (init + r)%Z in R by lia. }
    rewrite E, IH.
    + lia.
    + intros n. specialize (R (S n)). simpl in R.
      now replace (init + r + sum_Z (firstn n l))%Z
        with (init + (r + sum_Z (firstn n l)))%Z by lia.
Qed.

Lemma ComputeAverageRating_exact (ratings : list Z) :
  sums_in_range ratings ->
  (Z.of_nat (List.length ratings) <= 2147483647)%Z ->
  ComputeAverageRating ratings
  = Z.quot (sum_Z ratings) (Z.of_nat (List.length ratings)).
Proof.
  intros R L. destruct ratings as [|r l]; [reflexivity|].
  unfold ComputeAverageRating.
  rewrite accumulate_exact by (intros n; apply R).
  rewrite to_int_id by (unfold int_range; lia).
  reflexivity.
Qed.

(** C6, as the code has it. The rating stored by a successful
    [AddDocument] is [0] for an empty list and otherwise the sum of the
    ratings divided by their number with the quotient truncated toward
    zero (the [/] of C++ on [int]), as long as the running sum stays within
    [int]; it is the floor of the quotient when the sum is not negative. *)
Theorem AddDocument_rating id text st ratings s s' :
  AddDocument id text st ratings s = (Ok tt, s') ->
  sums_in_range ratings ->
  (Z.of_nat (List.length ratings) <= 2147483647)%Z ->
  exists r,
    find id (document_id_to_rating_and_rating_ s') = Some (r, st)
    /\ r = Z.quot (sum_Z ratings) (Z.of_nat (List.length ratings))
    /\ (ratings = [] -> r = 0%Z)
    /\ ((0 <= sum_Z ratings)%Z ->
        r = (sum_Z ratings / Z.of_nat (List.length ratings))%Z).
Proof.
  intros A R L. apply AddDocument_inv in A. destruct A as (_ & _ & _ & ->).
  simpl. rewrite find_upsert_same.
  exists (ComputeAverageRating ratings). split; [reflexivity|].
  rewrite (ComputeAverageRating_exact _ R L). split; [reflexivity|]. split.
  - intros ->. reflexivity.
  - intros P. destruct ratings as [|r l]; [reflexivity|].
    apply Z.quot_div_nonneg; [assumption|]. simpl List.length. lia.
Qed.

Lemma AddDocument_rating_witness :
  exists r,
    find 2%Z
      (document_id_to_rating_and_rating_
         (snd (AddDocument 2%Z "well groomed dog" ACTUAL [5; -12; 2; 1]%Z
                 SearchServer_default)))
    = Some (r, ACTUAL)
    /\ r = Z.quot (sum_Z [5; -12; 2; 1]%Z) 4
    /\ ([5; -12; 2; 1]%Z = [] -> r = 0%Z)
    /\ ((0 <= sum_Z [5; -12; 2; 1]%Z)%Z -> r = (sum_Z [5; -12; 2; 1]%Z / 4)%Z).
Proof.
  apply (AddDocument_rating 2%Z "well groomed dog" ACTUAL [5; -12; 2; 1]%Z
           SearchServer_default).
  - reflexivity.
  - intros n. unfold int_range.
    destruct n as [|[|[|[|[|n]]]]]; simpl; lia.
  - simpl. lia.
Defined.

(** C6, as the claim words it, fails: ratings [-3, 0] give the stored
    rating [-1], while the floor of [-3 / 2] is [-2]. *)
Lemma AddDocument_rating_not_floor :
  let ratings := [-3; 0]%Z in
  let s' := snd (AddDocument 0%Z "cat" ACTUAL ratings SearchServer_default) in
  find 0%Z (document_id_to_rating_and_rating_ s') = Some ((-1)%Z, ACTUAL)
  /\ (sum_Z ratings / Z.of_nat (List.length ratings))%Z = (-2)%Z
  /\ find 0%Z (document_id_to_rating_and_rating_ s')
     <> Some ((sum_Z ratings / Z.of_nat (List.length ratings))%Z, ACTUAL).
Proof.
  cbv zeta. split; [reflexivity|]. split; [reflexivity|].
  vm_compute. discriminate.
Qed.

(** *** Documents without terms *)

(** C9, as the code has it. When no term is left after stop-word
    filtering, the step [1. / words.size()] is still computed, as
    [1.0 / 0.0 = +infinity], and never used: the call returns normally,
    the index is unchanged (no posting is created) and the document is
    registered with its rating and status and appended to the insertion
    order, so that it counts and can be looked up by index. *)
Theorem AddDocument_no_terms id text st ratings s :
  SplitIntoWordsNoStop s text = [] ->
  (0 <= id)%Z ->
  find id (document_id_to_rating_and_rating_ s) = None ->
  IsInvalid text = false ->
  exists s',
    AddDocument id text st ratings s = (Ok tt, s')
    /\ AddDocument_step (SplitIntoWordsNoStop s text) = infinity
    /\ tf_ s' = tf_ s
    /\ (forall w, posting s' w id = posting s w id)
    /\ find id (document_id_to_rating_and_rating_ s')
       = Some (ComputeAverageRating ratings, st)
    /\ document_id_orders_ s' = document_id_orders_ s ++ [id]
    /\ List.length (document_id_orders_ s')
       = S (List.length (document_id_orders_ s))
    /\ GetDocumentId s' (Z.of_nat (List.length (document_id_orders_ s)))
       = Ok id.
Proof.
  intros W P F V. unfold AddDocument, count. rewrite F, V, W.
  destruct (Z.ltb_spec id 0) as [L|_]; [lia|]. simpl.
  eexists. split; [reflexivity|]. simpl.
  split; [reflexivity|]. split; [reflexivity|]. split; [reflexivity|].
  split; [apply find_upsert_same|]. split; [reflexivity|].
  split; [rewrite length_app; simpl; lia|].
  unfold GetDocumentId. simpl.
  destruct (Z.ltb_spec (Z.of_nat (List.length (document_id_orders_ s))) 0);
    [lia|].
  rewrite Nat2Z.id, nth_error_app2 by lia. now rewrite Nat.sub_diag.
Qed.

Lemma AddDocument_no_terms_witness :
  exists s',
    AddDocument 7%Z "in the" BANNED [4; 5]%Z server_in_the = (Ok tt, s')
    /\ AddDocument_step (SplitIntoWordsNoStop server_in_the "in the") = infinity
    /\ tf_ s' = tf_ server_in_the
    /\ (forall w, posting s' w 7%Z = posting server_in_the w 7%Z)
    /\ find 7%Z (document_id_to_rating_and_rating_ s')
       = Some (ComputeAverageRating [4; 5]%Z, BANNED)
    /\ document_id_orders_ s' = document_id_orders_ server_in_the ++ [7%Z]
    /\ List.length (document_id_orders_ s')
       = S (List.length (document_id_orders_ server_in_the))
    /\ GetDocumentId s'
         (Z.of_nat (List.length (document_id_orders_ server_in_the)))
       = Ok 7%Z.
Proof.
  apply (AddDocument_no_terms 7%Z "in the" BANNED [4; 5]%Z server_in_the).
  - reflexivity.
  - lia.
  - reflexivity.
  - reflexivity.
Defined.

(** C9, as the claim words it, fails: for the text "in the" on a server
    with these two stop words the divisor [words.size()] is zero, and the
    division is carried out all the same, giving [+infinity]. *)
Lemma AddDocument_divides_by_zero :
  SearchServer_of_text "in the" = Ok server_in_the
  /\ List.length (SplitIntoWordsNoStop server_in_the "in the") = 0%nat
  /\ of_size (List.length (SplitIntoWordsNoStop server_in_the "in the"))
     = 0%float
  /\ AddDocument_step (SplitIntoWordsNoStop server_in_the "in the")
     = (1 / 0)%float
  /\ AddDocument_step (SplitIntoWordsNoStop server_in_the "in the") = infinity.
Proof. repeat split; reflexivity. Qed.

(** ** Parsing queries *)

Lemma substring_all (t : string) : String.substring 0 (String.length t) t = t.
Proof. induction t as [|c t IH]; simpl; [reflexivity | now rewrite IH]. Qed.

(** What a word that parses looks like. *)
Lemma ParseQueryWord_inv s word qw :
  ParseQueryWord s word = Ok qw ->
  (exists t, word = String "-" t
             /\ t <> EmptyString
             /\ char_at t 0 <> "-"%char
             /\ qw = mkQueryWord t true (IsStopWord s t))
  \/ (char_at word 0 <> "-"%char
      /\ qw = mkQueryWord word false (IsStopWord s word)).
Proof.
  unfold ParseQueryWord. destruct (IsInvalid word); [discriminate|].
  destruct (Ascii.eqb_spec (char_at word 0) "-"%char) as [M|M].
  - destruct word as [|c t]; [discriminate M|].
    unfold char_at in M. simpl in M. subst c.
    destruct ((String.length (String "-" t) =? 1)%nat
              || Ascii.eqb (char_at (String "-" t) 1) "-"%char) eqn:B;
      [discriminate|].
    apply orb_false_iff in B. destruct B as [B1 B2].
    intros [= <-]. left. exists t. simpl. rewrite Nat.sub_0_r, substring_all.
    repeat split.
    + intros ->. discriminate B1.
    + apply Ascii.eqb_neq in B2. exact B2.
  - intros [= <-]. right. auto.
Qed.

Lemma with_word_spec s word qw q0 :
  ParseQueryWord s word = Ok qw ->
  (forall t, In t (plus_words (with_word qw q0))
             <-> In t (plus_words q0)
                 \/ (word = t /\ char_at t 0 <> "-"%char
                     /\ IsStopWord s t = false))
  /\ (forall t, In t (minus_words (with_word qw q0))
                <-> In t (minus_words q0)
                    \/ (word = String "-" t /\ IsStopWord s t = false)).
Proof.
  intros P. apply ParseQueryWord_inv in P. unfold with_word.
  destruct P as [(t0 & -> & Nt & Ct & ->)|(Cw & ->)];
    cbn [is_stop is_minus data].
  - assert (Cm : forall t, String "-" t0 = t -> char_at t 0 = "-"%char)
      by (intros t <-; reflexivity).
    destruct (IsStopWord s t0) eqn:St; cbn [plus_words minus_words]; split;
      intros t; rewrite ?set_insert_In.
    + split; [now left | intros [?|(E & C & _)]; [assumption|]].
      now apply Cm in E.
    + split; [now left | intros [?|(E & S)]; [assumption|]].
      injection E as ->. congruence.
    + split; [now left | intros [?|(E & C & _)]; [assumption|]].
      now apply Cm in E.
    + split.
      * intros [->|?]; [right; auto | now left].
      * intros [?|(E & S)]; [now right | injection E as ->; now left].
  - destruct (IsStopWord s word) eqn:Sw; cbn [plus_words minus_words]; split;
      intros t; rewrite ?set_insert_In.
    + split; [now left | intros [?|(E & C & S)]; [assumption|]].
      subst t. congruence.
    + split; [now left | intros [?|(E & S)]; [assumption|]].
      subst word. now contradiction Cw.
    + split.
      * intros [->|?]; [right; auto | now left].
      * intros [?|(E & _)]; [now right | now left].
    + split; [now left | intros [?|(E & S)]; [assumption|]].
      subst word. now contradiction Cw.
Qed.

Lemma ParseQuery_loop_spec s words q0 q :
  ParseQuery_loop s words q0 = Ok q ->
  (forall t, In t (plus_words q)
             <-> In t (plus_words q0)
                 \/ (In t words /\ char_at t 0 <> "-"%char
                     /\ IsStopWord s t = false))
  /\ (forall t, In t (minus_words q)
                <-> In t (minus_words q0)
                    \/ (In (String "-" t) words /\ IsStopWord s t = false))
  /\ (forall word, In word words -> exists qw, ParseQueryWord s word = Ok qw).
Proof.
  revert q0. induction words as [|word words IH]; intros q0.
  - simpl. intros [= <-]. split; [|split]; [intros t; tauto..|intros w []].
  - cbn [ParseQuery_loop]. destruct (ParseQueryWord s word) as [qw|e] eqn:P;
      [|discriminate].
    cbn [bind]. fold (with_word qw q0). intros L.
    apply IH in L. destruct L as (Lp & Lm & Lw).
    destruct (with_word_spec s word qw q0 P) as [Sp Sm].
    split; [|split].
    + intros t. rewrite Lp, Sp. simpl. tauto.
    + intros t. rewrite Lm, Sm. simpl. tauto.
    + intros w [<-|I]; [eauto | auto].
Qed.

Lemma ParseQuery_spec s text q :
  ParseQuery s text = Ok q ->
  (forall t, In t (plus_words q)
             <-> In t (SplitIntoWordsNoStop s text) /\ char_at t 0 <> "-"%char)
  /\ (forall t, In t (minus_words q)
                <-> In (String "-" t) (SplitIntoWordsNoStop s text)
                    /\ IsStopWord s t = false)
  /\ (forall word, In word (SplitIntoWordsNoStop s text) ->
                   exists qw, ParseQueryWord s word = Ok qw).
Proof.
  unfold ParseQuery. intros P. apply ParseQuery_loop_spec in P.
  destruct P as (Lp & Lm & Lw). cbn [plus_words minus_words] in *.
  split; [|split]; [| |exact Lw].
  - intros t. rewrite Lp. split.
    + intros [[]|(I & C & S)]. auto.
    + intros [I C]. right. repeat split; auto.
      apply SplitIntoWordsNoStop_In in I. tauto.
  - intros t. rewrite Lm. simpl. tauto.
Qed.

(** C7, as the code has it. Each word of the query is put into exactly
    one of the two sets, but the sets themselves may overlap: a term is in
    both exactly when the query holds it both plain and with a leading
    ['-'], both surviving the stop-word filter. *)
Theorem ParseQuery_overlap s text q :
  ParseQuery s text = Ok q ->
  forall t,
    (In t (plus_words q) /\ In t (minus_words q))
    <-> (In t (SplitIntoWordsNoStop s text)
         /\ In (String "-" t) (SplitIntoWordsNoStop s text)).
Proof.
  intros P t. destruct (ParseQuery_spec s text q P) as (Lp & Lm & Lw).
  rewrite Lp, Lm. split.
  - tauto.
  - intros [I M]. repeat split; try assumption.
    + destruct (Lw _ M) as [qw Q]. apply ParseQueryWord_inv in Q.
      destruct Q as [(t0 & E & _ & C & _)|(C & _)].
      * now injection E as <-.
      * now contradiction C.
    + apply SplitIntoWordsNoStop_In in I. tauto.
Qed.

Lemma ParseQuery_overlap_witness :
  (In "cat" ["cat"] /\ In "cat" ["cat"])
  <-> (In "cat" (SplitIntoWordsNoStop SearchServer_default "cat -cat")
       /\ In (String "-" "cat")
            (SplitIntoWordsNoStop SearchServer_default "cat -cat")).
Proof.
  exact (ParseQuery_overlap SearchServer_default "cat -cat"
           (mkQuery ["cat"] ["cat"]) eq_refl "cat").
Defined.

(** C7, as the claim words it, fails: the query "cat -cat" parses, and
    "cat" is both a plus word and a minus word. *)
Lemma ParseQuery_not_disjoint :
  exists q,
    ParseQuery SearchServer_default "cat -cat" = Ok q
    /\ In "cat" (plus_words q) /\ In "cat" (minus_words q).
Proof.
  exists (mkQuery ["cat"] ["cat"]). repeat split; simpl; auto.
Qed.

Lemma empty_word_excluded s :
  wf_server s ->
  find EmptyString (tf_ s) = None
  /\ (forall text q, ParseQuery s text = Ok q ->
        ~ In EmptyString (plus_words q) /\ ~ In EmptyString (minus_words q)).
Proof.
  intros W. split; [apply (wf_keys s W)|].
  intros text q P. destruct (ParseQuery_spec s text q P) as (Lp & Lm & Lw).
  rewrite Lp, Lm. split.
  - intros [I _]. apply SplitIntoWordsNoStop_In in I. destruct I as [I _].
    now apply SplitIntoWords_nonempty in I.
  - intros [I _]. destruct (Lw _ I) as [qw Q]. apply ParseQueryWord_inv in Q.
    destruct Q as [(t & E & N & _)|(C & _)].
    + injection E as <-. now apply N.
    + now apply C.
Qed.

(** C8. In every state reached from a server constructed with
    [stop_words], no word of [stop_words] (and no member of the stored set
    [stop_words_]) is a key of the inverted index or has a posting, and
    none is a plus word or a minus word of a query that parses. *)
Theorem stop_words_excluded stop_words calls s w :
  built stop_words calls s ->
  In w stop_words \/ In w (stop_words_ s) ->
  find w (tf_ s) = None
  /\ (forall d, posting s w d = None)
  /\ (forall text q, ParseQuery s text = Ok q ->
        ~ In w (plus_words q) /\ ~ In w (minus_words q)).
Proof.
  intros B I. pose proof (built_wf _ _ _ B) as W.
  assert (G : find w (tf_ s) = None
              /\ (forall text q, ParseQuery s text = Ok q ->
                    ~ In w (plus_words q) /\ ~ In w (minus_words q))).
  { destruct (string_dec w EmptyString) as [->|N];
      [now apply empty_word_excluded|].
    assert (I' : In w (stop_words_ s)).
    { destruct I as [I|I]; [|assumption].
      rewrite (built_stop_words _ _ _ B).
      now apply MakeUniqueNonEmptyStrings_In. }
    assert (S : IsStopWord s w = true)
      by (apply IsStopWord_In; [apply W | exact I']).
    split; [now apply (wf_no_stop s W)|].
    intros text q P. destruct (ParseQuery_spec s text q P) as (Lp & Lm & _).
    rewrite Lp, Lm, SplitIntoWordsNoStop_In. split.
    - intros [[_ C] _]. congruence.
    - intros [_ C]. congruence. }
  destruct G as [G1 G2]. split; [exact G1|]. split; [|exact G2].
  intros d. unfold posting, posting_in. now rewrite G1.
Qed.

Lemma server_cats_no_stop_built :
  built ["in"; "the"] ([] ++ cat_calls) server_cats_no_stop.
Proof.
  apply (built_add_all ["in"; "the"] [] cat_calls server_in_the).
  - now apply built_new.
  - reflexivity.
Defined.

Lemma server_cats_reachable : reachable server_cats.
Proof.
  apply (reachable_add_all [] cat_calls SearchServer_default); reflexivity.
Defined.

Lemma stop_words_excluded_witness :
  find "the" (tf_ server_cats_no_stop) = None
  /\ (forall d, posting server_cats_no_stop "the" d = None)
  /\ (forall text q, ParseQuery server_cats_no_stop text = Ok q ->
        ~ In "the" (plus_words q) /\ ~ In "the" (minus_words q)).
Proof.
  apply (stop_words_excluded ["in"; "the"] _ server_cats_no_stop "the"
           server_cats_no_stop_built).
  left. simpl. auto.
Defined.

(** ** Matching one document *)

Lemma MatchDocument_minus_spec s d minus :
  (forall w, In w minus -> find w (tf_ s) <> None) ->
  MatchDocument_minus s d minus = Ok (excluded s minus d).
Proof.
  induction minus as [|w minus IH]; intros K; [reflexivity|].
  cbn [MatchDocument_minus excluded existsb]. unfold at_.
  unfold posting at 1, posting_in.
  destruct (find w (tf_ s)) as [p|] eqn:F.
  - cbn [bind]. unfold count. destruct (find d p); simpl.
    + reflexivity.
    + apply IH. intros w' I. apply K. now right.
  - exfalso. apply (K w); [now left | assumption].
Qed.

Lemma MatchDocument_plus_spec s d plus t :
  In t (MatchDocument_plus s d plus)
  <-> In t plus /\ posting s t d <> None.
Proof.
  unfold MatchDocument_plus.
  assert (G : forall acc,
            In t (fold_left
                    (fun matched_words word =>
                       match find word (tf_ s) with
                       | Some postings =>
                           if (0 <? count d postings)%nat
                           then set_insert word matched_words
                           else matched_words
                       | None => matched_words
                       end) plus acc)
            <-> In t acc \/ (In t plus /\ posting s t d <> None)).
  { induction plus as [|w plus IH]; intros acc; simpl; [tauto|].
    rewrite IH. unfold posting, posting_in, count.
    destruct (find w (tf_ s)) as [p|] eqn:F.
    - destruct (find d p) eqn:Fd; simpl.
      + rewrite set_insert_In. split.
        * intros [[->|?]|[? ?]]; [|now left|right; auto].
          right. split; [now left|]. rewrite F, Fd. discriminate.
        * intros [?|[[<-|?] ?]]; [left; now right | left; now left | right; auto].
      + split.
        * intros [?|[? ?]]; [now left | right; auto].
        * intros [?|[[<-|?] N]]; [now left | | right; auto].
          rewrite F, Fd in N. congruence.
    - split.
      + intros [?|[? ?]]; [now left | right; auto].
      + intros [?|[[<-|?] N]]; [now left | | right; auto].
        rewrite F in N. congruence. }
  rewrite G. simpl. tauto.
Qed.

(** What [MatchDocument] returns when every minus word of the query is a
    key of the index: the status of the document, with no word when a
    minus word has a posting for it, and otherwise with exactly the plus
    words that have one. *)
Lemma MatchDocument_spec s raw_query d q rating_ status_ :
  ParseQuery s raw_query = Ok q ->
  find d (document_id_to_rating_and_rating_ s) = Some (rating_, status_) ->
  (forall w, In w (minus_words q) -> find w (tf_ s) <> None) ->
  exists words,
    MatchDocument s raw_query d = Ok (words, status_)
    /\ (excluded s (minus_words q) d = true -> words = [])
    /\ (excluded s (minus_words q) d = false ->
        forall t, In t words <-> In t (plus_words q) /\ posting s t d <> None).
Proof.
  intros P F K. unfold MatchDocument, at_. rewrite P, F. cbn [bind snd].
  rewrite (MatchDocument_minus_spec s d _ K). cbn [bind].
  destruct (excluded s (minus_words q) d).
  - eexists. split; [reflexivity|]. split; [reflexivity | discriminate].
  - eexists. split; [reflexivity|]. split; [discriminate|].
    intros _ t. apply MatchDocument_plus_spec.
Qed.

(** [MatchDocument] throws [out_of_range] for an id that was never added,
    once the query has parsed. *)
Lemma MatchDocument_unknown s raw_query d q :
  ParseQuery s raw_query = Ok q ->
  find d (document_id_to_rating_and_rating_ s) = None ->
  MatchDocument s raw_query d = Err out_of_range.
Proof.
  intros P F. unfold MatchDocument, at_. now rewrite P, F.
Qed.

(** C3 at the failing input. Document 0 is "cat in the city"; the query
    "cat -dog" parses and document 0 is registered, yet the call throws
    [out_of_range], because "dog" is not a key of the index and the loop
    over the minus words calls [tf_.at(word)] without the guard that the
    loop over the plus words has. *)
Theorem MatchDocument_absent_minus_word :
  ParseQuery server_cats "cat -dog" = Ok (mkQuery ["cat"] ["dog"])
  /\ find 0%Z (document_id_to_rating_and_rating_ server_cats)
     = Some (1%Z, ACTUAL)
  /\ find "dog" (tf_ server_cats) = None
  /\ posting server_cats "cat" 0%Z <> None
  /\ MatchDocument server_cats "cat -dog" 0%Z = Err out_of_range.
Proof.
  repeat split; try reflexivity. vm_compute. discriminate.
Qed.

(** ** The relevance engine *)

Section EngineFacts.

Variable log : float -> float.

(** One word's postings poured into the relevance map. *)
Lemma find_fold_add_relevance idf (tf r : omap Z float) d :
  ascending tf ->
  find d (fold_left (add_relevance idf) tf r)
  = match find d tf with
    | Some tf_value => Some (increase (idf * tf_value) (find d r))
    | None => find d r
    end.
Proof.
  revert r. induction tf as [|[k v] tf IH]; intros r A; [reflexivity|].
  destruct A as [B A]. cbn [fold_left]. rewrite (IH _ A).
  unfold add_relevance. cbn [fst snd find].
  by_cmp d k.
  - rewrite (below_find _ _ B). apply find_upsert_same.
  - rewrite (below_find d tf) by (eapply below_trans; eassumption).
    apply find_upsert_other. intros ->. rewrite cmp_refl in E. discriminate.
  - rewrite find_upsert_other; [reflexivity|].
    intros ->. rewrite cmp_refl in E. discriminate.
Qed.

Lemma ascending_fold_add_relevance idf (tf r : omap Z float) :
  ascending r -> ascending (fold_left (add_relevance idf) tf r).
Proof.
  revert r. induction tf as [|[k v] tf IH]; intros r A; [assumption|].
  cbn [fold_left]. apply IH. now apply ascending_upsert.
Qed.

Lemma find_plus_step s r w d :
  wf_server s ->
  find d (plus_step log s r w)
  = match posting s w d with
    | Some tf_value => Some (increase (idf_of log s w * tf_value) (find d r))
    | None => find d r
    end.
Proof.
  intros W. unfold plus_step, posting, posting_in, idf_of, CalculateIDF.
  destruct (find w (tf_ s)) as [tf|] eqn:F; [|reflexivity].
  apply find_fold_add_relevance. eapply wf_postings; eassumption.
Qed.

Lemma ascending_plus_step s r w :
  ascending r -> ascending (plus_step log s r w).
Proof.
  intros A. unfold plus_step. destruct (find w (tf_ s)); [|assumption].
  now apply ascending_fold_add_relevance.
Qed.

Lemma find_fold_plus_step s plus r d :
  wf_server s ->
  find d (fold_left (plus_step log s) plus r)
  = fold_left
      (fun acc word =>
         match posting s word d with
         | Some tf_value =>
             Some (match acc with Some r => r | None => 0 end
                   + idf_of log s word * tf_value)%float
         | None => acc
         end)
      plus (find d r).
Proof.
  intros W. revert r. induction plus as [|w plus IH]; intros r; [reflexivity|].
  cbn [fold_left]. rewrite IH, find_plus_step by assumption. reflexivity.
Qed.

Lemma ascending_fold_plus_step s plus r :
  ascending r -> ascending (fold_left (plus_step log s) plus r).
Proof.
  revert r. induction plus as [|w plus IH]; intros r A; [assumption|].
  cbn [fold_left]. apply IH. now apply ascending_plus_step.
Qed.

(** One word's postings erased from the relevance map. *)
Lemma find_fold_erase (tf r : omap Z float) d :
  ascending tf -> ascending r ->
  find d (fold_left (fun r posting => erase (fst posting) r) tf r)
  = match find d tf with
    | Some _ => None
    | None => find d r
    end.
Proof.
  revert r. induction tf as [|[k v] tf IH]; intros r A Ar; [reflexivity|].
  destruct A as [B A]. cbn [fold_left fst].
  rewrite (IH _ A) by now apply ascending_erase.
  cbn [find]. by_cmp d k.
  - rewrite (below_find _ _ B). now apply find_erase_same.
  - rewrite (below_find d tf) by (eapply below_trans; eassumption).
    apply find_erase_other; [assumption|].
    intros ->. rewrite cmp_refl in E. discriminate.
  - rewrite find_erase_other; [reflexivity | assumption |].
    intros ->. rewrite cmp_refl in E. discriminate.
Qed.

Lemma ascending_fold_erase (tf r : omap Z float) :
  ascending r ->
  ascending (fold_left (fun r posting => erase (fst posting) r) tf r).
Proof.
  revert r. induction tf as [|[k v] tf IH]; intros r A; [assumption|].
  cbn [fold_left]. apply IH. now apply ascending_erase.
Qed.

Lemma find_minus_step s r w d :
  wf_server s -> ascending r ->
  find d (minus_step s r w)
  = match posting s w d with
    | Some _ => None
    | None => find d r
    end.
Proof.
  intros W A. unfold minus_step, posting, posting_in.
  destruct (find w (tf_ s)) as [tf|] eqn:F; [|reflexivity].
  apply find_fold_erase; [|assumption]. eapply wf_postings; eassumption.
Qed.

Lemma ascending_minus_step s r w :
  ascending r -> ascending (minus_step s r w).
Proof.
  intros A. unfold minus_step. destruct (find w (tf_ s)); [|assumption].
  now apply ascending_fold_erase.
Qed.

Lemma find_fold_minus_step s minus r d :
  wf_server s -> ascending r ->
  find d (fold_left (minus_step s) minus r)
  = if excluded s minus d then None else find d r.
Proof.
  intros W. revert r. induction minus as [|w minus IH]; intros r A;
    [reflexivity|].
  cbn [fold_left excluded existsb].
  rewrite IH by now apply ascending_minus_step.
  fold (excluded s minus d). rewrite find_minus_step by assumption.
  destruct (posting s w d); simpl; [|reflexivity].
  now destruct (excluded s minus d).
Qed.

Lemma ascending_fold_minus_step s minus r :
  ascending r -> ascending (fold_left (minus_step s) minus r).
Proof.
  revert r. induction minus as [|w minus IH]; intros r A; [assumption|].
  cbn [fold_left]. apply IH. now apply ascending_minus_step.
Qed.

Lemma ascending_relevance_map s q : ascending (relevance_map log s q).
Proof.
  unfold relevance_map. apply ascending_fold_minus_step.
  apply ascending_fold_plus_step. exact I.
Qed.

(** The two loops compute, document by document, what the specification
    of the engine says. *)
Lemma relevance_map_spec s q d :
  wf_server s ->
  find d (relevance_map log s q) = expected_relevance log s q d.
Proof.
  intros W. unfold relevance_map, expected_relevance, accumulated.
  rewrite find_fold_minus_step
    by (try assumption; apply ascending_fold_plus_step; exact I).
  now rewrite find_fold_plus_step.
Qed.

Lemma accumulated_posting s plus d r :
  accumulated log s plus d = Some r ->
  exists w, In w plus /\ posting s w d <> None.
Proof.
  unfold accumulated.
  assert (G : forall acc,
            fold_left
              (fun acc word =>
                 match posting s word d with
                 | Some tf_value =>
                     Some (match acc with Some r => r | None => 0 end
                           + idf_of log s word * tf_value)%float
                 | None => acc
                 end) plus acc <> None ->
            acc <> None \/ exists w, In w plus /\ posting s w d <> None).
  { induction plus as [|w plus IH]; intros acc N; [now left|].
    cbn [fold_left] in N. apply IH in N. destruct N as [N|(w' & I & P)].
    - destruct (posting s w d) eqn:P'.
      + right. exists w. split; [now left | congruence].
      + now left.
    - right. exists w'. split; [now right | assumption]. }
  intros E. destruct (G None) as [N|N]; [congruence | congruence | exact N].
Qed.

Lemma expected_relevance_registered s q d r :
  wf_server s ->
  expected_relevance log s q d = Some r ->
  find d (document_id_to_rating_and_rating_ s) <> None.
Proof.
  intros W. unfold expected_relevance.
  destruct (excluded s (minus_words q) d); [discriminate|].
  intros E. apply accumulated_posting in E. destruct E as (w & _ & P).
  destruct (posting s w d) eqn:P'; [|congruence].
  eapply wf_registered; eassumption.
Qed.

(** The last loop. *)
Lemma matched_documents_of_spec s (rel : omap Z float) :
  (forall d r, In (d, r) rel ->
     find d (document_id_to_rating_and_rating_ s) <> None) ->
  exists docs,
    matched_documents_of s rel = Ok docs
    /\ map id docs = map fst rel
    /\ forall doc,
         In doc docs
         <-> In (id doc, relevance doc) rel
             /\ find (id doc) (document_id_to_rating_and_rating_ s)
                = Some (rating doc, status doc).
Proof.
  induction rel as [|[d r] rel IH]; intros K.
  - exists []. simpl. repeat split; tauto.
  - destruct IH as (docs & E & M & S).
    { intros d' r' I. apply (K d' r'). now right. }
    cbn [matched_documents_of]. unfold at_.
    destruct (find d (document_id_to_rating_and_rating_ s)) as [[rt st]|] eqn:F.
    + cbn [bind]. rewrite E. cbn [bind fst snd].
      eexists. split; [reflexivity|]. split; [simpl; now rewrite M|].
      intros doc. simpl. rewrite S. split.
      * intros [<-|[I F']]; simpl; [split; [now left | assumption]|].
        split; [now right | assumption].
      * intros [[E'|I] F'].
        -- left. destruct doc as [i rl stt rtt]. simpl in *.
           injection E' as -> ->. rewrite F in F'. now injection F' as -> ->.
        -- right. auto.
    + exfalso. apply (K d r); [now left | assumption].
Qed.

(** C1. In every reachable state and for every query, [FindAllDocuments]
    returns normally, with one document per id in ascending id order, and
    a document is returned with relevance [r] exactly when no minus word
    has a posting for it and [r] is the sum, over the plus words that have
    a posting for it, of [idf * tf] with
    [idf = log (document count / number of postings of the word)];
    plus words absent from the index add nothing, and a document that a
    minus word of the index holds is gone whatever the plus words gave
    it. The rating and status are those of the document store. *)
Theorem FindAllDocuments_spec s q :
  reachable s ->
  exists docs,
    FindAllDocuments log s q = Ok docs
    /\ set_ascending (map id docs)
    /\ (forall doc,
          In doc docs
          <-> expected_relevance log s q (id doc) = Some (relevance doc)
              /\ find (id doc) (document_id_to_rating_and_rating_ s)
                 = Some (rating doc, status doc))
    /\ (forall d r,
          expected_relevance log s q d = Some r ->
          exists doc, In doc docs /\ id doc = d /\ relevance doc = r).
Proof.
  intros R. apply reachable_wf in R. unfold FindAllDocuments.
  pose proof (ascending_relevance_map s q) as A.
  destruct (matched_documents_of_spec s (relevance_map log s q))
    as (docs & E & M & S).
  { intros d r I. apply (ascending_In_find _ _ _ A) in I.
    rewrite relevance_map_spec in I by assumption.
    eapply expected_relevance_registered; eassumption. }
  assert (G : forall doc,
            In doc docs
            <-> expected_relevance log s q (id doc) = Some (relevance doc)
                /\ find (id doc) (document_id_to_rating_and_rating_ s)
                   = Some (rating doc, status doc)).
  { intros doc. rewrite S, <- relevance_map_spec by assumption. split.
    - intros [I F]. split; [|assumption]. now apply ascending_In_find.
    - intros [I F]. split; [|assumption]. now apply find_In. }
  exists docs. split; [assumption|]. split; [|split; [exact G|]].
  - rewrite M. clear -A. induction (relevance_map log s q) as [|[k v] m IH];
      [exact I|].
    destruct A as [B A]. simpl. split; [|auto].
    unfold below in B. rewrite Forall_forall in *. intros x Hx.
    apply in_map_iff in Hx. destruct Hx as (kv & <- & Hkv). auto.
  - intros d r X.
    pose proof (expected_relevance_registered s q d r R X) as N.
    destruct (find d (document_id_to_rating_and_rating_ s)) as [[rt st]|] eqn:F;
      [|congruence].
    exists (mkDocument d r st rt). split; [|split; reflexivity].
    apply G. simpl. auto.
Qed.

End EngineFacts.

Lemma FindAllDocuments_spec_witness :
  exists docs,
    FindAllDocuments (fun _ => ln2) server_cats (mkQuery ["cat"; "dog"] ["boots"])
    = Ok docs
    /\ set_ascending (map id docs)
    /\ (forall doc,
          In doc docs
          <-> expected_relevance (fun _ => ln2) server_cats
                (mkQuery ["cat"; "dog"] ["boots"]) (id doc)
              = Some (relevance doc)
              /\ find (id doc) (document_id_to_rating_and_rating_ server_cats)
                 = Some (rating doc, status doc))
    /\ (forall d r,
          expected_relevance (fun _ => ln2) server_cats
            (mkQuery ["cat"; "dog"] ["boots"]) d = Some r ->
          exists doc, In doc docs /\ id doc = d /\ relevance doc = r).
Proof.
  exact (FindAllDocuments_spec (fun _ => ln2) server_cats
           (mkQuery ["cat"; "dog"] ["boots"]) server_cats_reachable).
Defined.

(** ** Ranking *)

(** C5. [FindTopDocuments] returns the first five of the documents that
    were collected, sorted and let through by the predicate: never more
    than five, and exactly five when more than five pass. *)
Theorem FindTopDocuments_cap log s raw_query filter_ docs :
  FindTopDocuments log s raw_query filter_ = Ok docs ->
  (List.length docs <= MAX_RESULT_DOCUMENT_COUNT)%nat
  /\ exists query_words matched_documents,
       ParseQuery s raw_query = Ok query_words
       /\ FindAllDocuments log s query_words = Ok matched_documents
       /\ let passed :=
            filter (fun lhs => filter_ (id lhs) (status lhs) (rating lhs))
              (std_sort by_relevance matched_documents) in
          docs = firstn MAX_RESULT_DOCUMENT_COUNT passed
          /\ ((MAX_RESULT_DOCUMENT_COUNT < List.length passed)%nat ->
              List.length docs = MAX_RESULT_DOCUMENT_COUNT).
Proof.
  unfold FindTopDocuments.
  destruct (ParseQuery s raw_query) as [q|e]; [|discriminate].
  cbn [bind]. destruct (FindAllDocuments log s q) as [m|e] eqn:F;
    [|discriminate].
  cbn [bind]. cbv zeta.
  set (passed := filter _ (std_sort by_relevance m)).
  destruct (Nat.ltb_spec MAX_RESULT_DOCUMENT_COUNT (List.length passed))
    as [L|L]; intros E.
  - assert (D : docs = firstn MAX_RESULT_DOCUMENT_COUNT passed) by congruence.
    clear E. subst docs.
    split; [rewrite length_firstn; lia|].
    exists q, m. split; [reflexivity|]. split; [exact F|].
    split; [reflexivity|]. intros _. rewrite length_firstn. lia.
  - assert (D : docs = passed) by congruence.
    clear E. subst docs. split; [assumption|].
    exists q, m. split; [reflexivity|]. split; [exact F|]. split.
    + symmetry. now apply firstn_all2.
    + intros L'. exfalso. apply (Nat.lt_irrefl (List.length passed)).
      eapply Nat.le_lt_trans; eassumption.
Qed.

Lemma FindTopDocuments_cap_witness :
  (List.length
     (map (fun i => mkDocument i 0 ACTUAL i) [6; 5; 4; 3; 2]%Z)
   <= MAX_RESULT_DOCUMENT_COUNT)%nat
  /\ exists query_words matched_documents,
       ParseQuery server_many_cats "cat" = Ok query_words
       /\ FindAllDocuments (fun _ => 0%float) server_many_cats query_words
          = Ok matched_documents
       /\ let passed :=
            filter (fun lhs => (fun _ _ _ => true)
                                 (id lhs) (status lhs) (rating lhs))
              (std_sort by_relevance matched_documents) in
          map (fun i => mkDocument i 0 ACTUAL i) [6; 5; 4; 3; 2]%Z
          = firstn MAX_RESULT_DOCUMENT_COUNT passed
          /\ ((MAX_RESULT_DOCUMENT_COUNT < List.length passed)%nat ->
              List.length
                (map (fun i => mkDocument i 0 ACTUAL i) [6; 5; 4; 3; 2]%Z)
              = MAX_RESULT_DOCUMENT_COUNT).
Proof.
  apply (FindTopDocuments_cap (fun _ => 0%float) server_many_cats "cat"
           (fun _ _ _ => true)).
  vm_compute. reflexivity.
Defined.

(** C4 at the failing input. Documents 0, 1 and 2 of [server_close] hold
    "x" once among 1000, 1001 and 1002 words, with ratings 1, 3 and 5;
    three more documents do not hold it, so that its idf is [log 2].
    Neighbouring relevances differ by less than [EPSILON], the outer two
    by more.  The comparator puts 2 before 1 and 1 before 0 on their
    ratings; the banned document 1 is dropped after the sort, and the
    answer ranks document 2 above document 0, whose relevance is larger
    by more than [EPSILON]. *)
Theorem FindTopDocuments_out_of_order log :
  log 2%float = ln2 ->
  exists a b,
    FindTopDocuments_by_status log server_close "x" ACTUAL = Ok [a; b]
    /\ id a = 2%Z /\ rating a = 5%Z
    /\ id b = 0%Z /\ rating b = 1%Z
    /\ (relevance a <? relevance b)%float = true
    /\ (abs (relevance a - relevance b) <? EPSILON)%float = false
    /\ ~ ranked a b.
Proof.
  intros L. unfold FindTopDocuments_by_status, FindTopDocuments.
  replace (ParseQuery server_close "x") with (Ok (mkQuery ["x"] []))
    by (vm_compute; reflexivity).
  cbn [bind].
  remember (FindAllDocuments log server_close (mkQuery ["x"] [])) as r eqn:E.
  vm_compute in E. rewrite L in E. subst r. cbn [bind].
  do 2 eexists. split; [vm_compute; reflexivity|].
  cbn [id rating relevance].
  repeat split; try reflexivity.
  unfold ranked. cbn [id rating relevance]. intros [C|[C _]]; vm_compute in C;
    discriminate.
Qed.

Lemma FindTopDocuments_out_of_order_witness :
  exists a b,
    FindTopDocuments_by_status (fun _ => ln2) server_close "x" ACTUAL
    = Ok [a; b]
    /\ id a = 2%Z /\ rating a = 5%Z
    /\ id b = 0%Z /\ rating b = 1%Z
    /\ (relevance a <? relevance b)%float = true
    /\ (abs (relevance a - relevance b) <? EPSILON)%float = false
    /\ ~ ranked a b.
Proof.
  exact (FindTopDocuments_out_of_order (fun _ => ln2) eq_refl).
Defined.

(** On the same documents the comparator is not asymmetric: document 1
    precedes document 0 (close relevances, larger rating) and document 0
    precedes document 1 (larger relevance).  It is therefore not the
    strict weak ordering that [std::sort] requires. *)
Lemma by_relevance_not_asymmetric log :
  log 2%float = ln2 ->
  exists d0 d1 d2,
    FindAllDocuments log server_close (mkQuery ["x"] []) = Ok [d0; d1; d2]
    /\ by_relevance d1 d0 = true
    /\ by_relevance d0 d1 = true.
Proof.
  intros L.
  remember (FindAllDocuments log server_close (mkQuery ["x"] [])) as r eqn:E.
  vm_compute in E. rewrite L in E. subst r.
  do 3 eexists. split; [reflexivity|]. split; vm_compute; reflexivity.
Qed.

(** ** Binary64 arithmetic: sums of positive numbers stay positive

    The facts below are read off the specification of the primitive
    floats ([SpecFloat]): a rounded positive quantity whose exponent is
    not below [emin] is never rounded to zero. *)

Section Binary64.
Local Open Scope Z_scope.

Lemma pow2_pos (n : Z) : 0 <= n -> 0 < 2 ^ n.
Proof. intros N. now apply Z.pow_pos_nonneg. Qed.

Lemma digits2_pos_bounds (m : positive) :
  2 ^ (Zpos (digits2_pos m) - 1) <= Zpos m < 2 ^ Zpos (digits2_pos m).
Proof.
  induction m as [m IH|m IH|]; cbn [digits2_pos].
  - rewrite Pos2Z.inj_succ, (Pos2Z.inj_xI m).
    replace (Z.succ (Zpos (digits2_pos m)) - 1)
      with (Z.succ (Zpos (digits2_pos m) - 1)) by lia.
    rewrite !Z.pow_succ_r by lia. lia.
  - rewrite Pos2Z.inj_succ, (Pos2Z.inj_xO m).
    replace (Z.succ (Zpos (digits2_pos m)) - 1)
      with (Z.succ (Zpos (digits2_pos m) - 1)) by lia.
    rewrite !Z.pow_succ_r by lia. lia.
  - simpl. lia.
Qed.

Lemma Zdigits2_le (p : positive) (K : Z) :
  0 <= K -> Zpos p < 2 ^ K -> Zdigits2 (Zpos p) <= K.
Proof.
  intros N L. simpl. pose proof (digits2_pos_bounds p) as [B _].
  assert (H : 2 ^ (Zpos (digits2_pos p) - 1) < 2 ^ K) by lia.
  apply Z.pow_lt_mono_r_iff in H; lia.
Qed.

Lemma shr_m_of_loc (m : Z) (l : location) : shr_m (shr_record_of_loc m l) = m.
Proof. destruct l as [|[]]; reflexivity. Qed.

Lemma shr_m_shr_1 (mrs : shr_record) :
  0 <= shr_m mrs -> shr_m (shr_1 mrs) = shr_m mrs / 2.
Proof.
  destruct mrs as [m r s]. cbn [shr_m]. intros N.
  rewrite <- Z.div2_div. destruct m as [|[p|p|]|p]; try reflexivity. lia.
Qed.

Lemma shr_m_iter (p : positive) (mrs : shr_record) :
  0 <= shr_m mrs ->
  shr_m (iter_pos shr_1 p mrs) = shr_m mrs / 2 ^ Zpos p.
Proof.
  revert mrs. induction p as [p IH|p IH|]; intros mrs N; cbn [iter_pos].
  - assert (N1 : 0 <= shr_m (shr_1 mrs))
      by (rewrite shr_m_shr_1 by assumption; apply Z.div_pos; lia).
    assert (P : 0 < 2 ^ Zpos p) by (apply pow2_pos; lia).
    assert (N2 : 0 <= shr_m (iter_pos shr_1 p (shr_1 mrs)))
      by (rewrite IH by assumption; apply Z.div_pos; lia).
    rewrite IH, IH, shr_m_shr_1 by assumption.
    rewrite !Z.div_div by lia. f_equal.
    rewrite (Pos2Z.inj_xI p), Z.pow_add_r, Z.pow_mul_r by lia.
    change (2 ^ 2) with 4. change (2 ^ 1) with 2.
    replace 4 with (2 * 2) by reflexivity.
    rewrite Z.pow_mul_l. lia.
  - assert (P : 0 < 2 ^ Zpos p) by (apply pow2_pos; lia).
    assert (N2 : 0 <= shr_m (iter_pos shr_1 p mrs))
      by (rewrite IH by assumption; apply Z.div_pos; lia).
    rewrite IH, IH by assumption.
    rewrite !Z.div_div by lia. f_equal.
    rewrite (Pos2Z.inj_xO p), Z.pow_mul_r by lia.
    change (2 ^ 2) with (2 * 2). rewrite Z.pow_mul_l. lia.
  - rewrite shr_m_shr_1 by assumption. reflexivity.
Qed.

(** The first shift of the rounding: nothing is lost entirely. *)
Lemma shr_fexp_bounds (m e : Z) (l : location) :
  0 < m -> -1074 <= e ->
  exists mrs e',
    shr_fexp prec emax m e l = (mrs, e')
    /\ 0 < shr_m mrs <= m
    /\ -1074 <= e' <= e + Zdigits2 m.
Proof.
  intros M E. destruct m as [|p|p]; try lia.
  unfold shr_fexp, shr. cbn [Zdigits2].
  pose proof (digits2_pos_bounds p) as [B1 B2].
  destruct (fexp prec emax (Zpos (digits2_pos p) + e) - e) as [|q|q] eqn:F.
  - do 2 eexists. split; [reflexivity|]. rewrite shr_m_of_loc. lia.
  - do 2 eexists. split; [reflexivity|].
    rewrite shr_m_iter by (rewrite shr_m_of_loc; lia). rewrite shr_m_of_loc.
    unfold fexp, SpecFloat.emin, prec, emax in F.
    assert (Q : Zpos q <= Zpos (digits2_pos p) - 1) by lia.
    assert (P : 0 < 2 ^ Zpos q) by (apply pow2_pos; lia).
    assert (L : 2 ^ Zpos q <= Zpos p).
    { eapply Z.le_trans; [|exact B1]. apply Z.pow_le_mono_r; lia. }
    split; [|lia]. split.
    + apply Z.div_str_pos. lia.
    + apply Z.div_le_upper_bound; [lia|]. nia.
  - do 2 eexists. split; [reflexivity|]. rewrite shr_m_of_loc. lia.
Qed.

Lemma round_nearest_even_bounds (m : Z) (l : location) :
  m <= round_nearest_even m l <= m + 1.
Proof.
  destruct l as [|[]]; cbn [round_nearest_even]; try lia.
  destruct (Z.even m); lia.
Qed.

Lemma binary_round_aux_shape (sx : bool) (m e : Z) (l : location) (K : Z) :
  0 < m -> -1074 <= e -> 0 <= K -> m < 2 ^ K ->
  rounded sx (binary_round_aux prec emax sx m e l) (e + 2 * K + 1).
Proof.
  intros M E NK LK. unfold binary_round_aux.
  destruct (shr_fexp_bounds m e l M E) as (mrs & e' & -> & B1 & E1).
  pose proof (round_nearest_even_bounds (shr_m mrs) (loc_of_shr_record mrs))
    as R.
  set (m2 := round_nearest_even (shr_m mrs) (loc_of_shr_record mrs)) in *.
  assert (M2 : 0 < m2) by lia.
  destruct (shr_fexp_bounds m2 e' loc_Exact M2 (proj1 E1))
    as (mrs2 & e2 & -> & B2 & E2).
  destruct (shr_m mrs2) as [|p|p] eqn:S2; try lia.
  exists p, e2. split; [reflexivity|].
  assert (D1 : Zdigits2 m <= K).
  { destruct m as [|pm|pm]; try lia. now apply Zdigits2_le. }
  assert (D2 : Zdigits2 m2 <= K + 1).
  { destruct m2 as [|pm|pm]; try lia. apply Zdigits2_le; [lia|].
    rewrite Z.pow_add_r by lia. change (2 ^ 1) with 2. lia. }
  lia.
Qed.

Lemma iter_xO (p d : positive) : Zpos (Pos.iter xO p d) = Zpos p * 2 ^ Zpos d.
Proof.
  induction d as [|d IH] using Pos.peano_ind.
  - simpl. lia.
  - rewrite Pos.iter_succ, (Pos2Z.inj_xO (Pos.iter xO p d)), IH,
      Pos2Z.inj_succ.
    rewrite Z.pow_succ_r by lia. lia.
Qed.

Lemma binary_round_shape (sx : bool) (p : positive) (e K : Z) :
  -1074 <= e -> 0 <= K -> Zpos p < 2 ^ K ->
  rounded sx (binary_round prec emax sx p e) (e + 2 * K + 105).
Proof.
  intros E NK LK. unfold binary_round, shl_align.
  pose proof (digits2_pos_bounds p) as [B1 B2].
  destruct (fexp prec emax (Zpos (digits2_pos p) + e) - e) as [|d|d] eqn:F.
  - destruct (binary_round_aux_shape sx (Zpos p) e loc_Exact K)
      as (q & e2 & -> & L2); try lia.
    exists q, e2. split; [reflexivity | lia].
  - destruct (binary_round_aux_shape sx (Zpos p) e loc_Exact K)
      as (q & e2 & -> & L2); try lia.
    exists q, e2. split; [reflexivity | lia].
  - unfold fexp, SpecFloat.emin, prec, emax in F.
    assert (D : Zpos d <= 52) by lia.
    destruct (binary_round_aux_shape sx (Zpos (Pos.iter xO p d))
                (fexp prec emax (Zpos (digits2_pos p) + e)) loc_Exact
                (K + Zpos d))
      as (q & e2 & -> & L2); try lia.
    + unfold fexp, SpecFloat.emin, prec, emax. lia.
    + rewrite iter_xO, Z.pow_add_r by lia.
      assert (P : 0 < 2 ^ Zpos d) by (apply pow2_pos; lia). nia.
    + exists q, e2. split; [reflexivity|].
      unfold fexp, SpecFloat.emin, prec, emax in L2. lia.
Qed.

Lemma rounded_positive (x : spec_float) (bound : Z) :
  rounded false x bound -> positive_sf x.
Proof.
  intros (p & e & -> & _). now destruct (e <=? emax - prec).
Qed.

Lemma valid_binary_bounds (s : bool) (m : positive) (e : Z) :
  valid_binary (S754_finite s m e) = true ->
  -1074 <= e <= 971 /\ Zpos (digits2_pos m) <= 53.
Proof.
  unfold SpecFloat.valid_binary, bounded, canonical_mantissa, fexp,
    SpecFloat.emin,
    prec, emax.
  intros V. apply andb_true_iff in V. destruct V as [V1 V2].
  apply Z.eqb_eq in V1. apply Z.leb_le in V2. lia.
Qed.

Lemma SFadd_positive (x y : spec_float) :
  valid_binary x = true -> valid_binary y = true ->
  x = S754_zero false \/ positive_sf x ->
  positive_sf y ->
  positive_sf (SFadd prec emax x y).
Proof.
  intros Vx Vy Px Py.
  destruct y as [sy|[|]| |[|] my ey]; try contradiction.
  - (* y infinite *)
    destruct Px as [->|Px]; [exact I|].
    destruct x as [sx|[|]| |[|] mx ex]; try contradiction; exact I.
  - (* y finite *)
    destruct Px as [->|Px]; [exact I|].
    destruct x as [sx|[|]| |[|] mx ex]; try contradiction; [exact I|].
    apply valid_binary_bounds in Vx, Vy.
    cbn [SFadd cond_Zopp].
    set (a := fst (shl_align mx ex (Z.min ex ey))).
    set (b := fst (shl_align my ey (Z.min ex ey))).
    change (Zpos a + Zpos b) with (Zpos (a + b)). cbn [binary_normalize].
    pose proof (digits2_pos_bounds (a + b)) as [_ B].
    eapply rounded_positive.
    apply (binary_round_shape false (a + b) (Z.min ex ey)
             (Zpos (digits2_pos (a + b)))); lia.
Qed.

Lemma SFdiv_one_positive (my : positive) (ey : Z) :
  valid_binary (S754_finite false my ey) = true ->
  positive_sf
    (SFdiv prec emax (S754_finite false 4503599627370496 (-52))
       (S754_finite false my ey)).
Proof.
  intros V. apply valid_binary_bounds in V. destruct V as [Ve Vd].
  pose proof (digits2_pos_bounds my) as [_ B].
  assert (Lm : Zpos my < 2 ^ 53).
  { eapply Z.lt_le_trans; [exact B|]. apply Z.pow_le_mono_r; lia. }
  cbn [SFdiv xorb]. unfold SFdiv_core_binary.
  change (Zdigits2 4503599627370496) with 53. cbn [Zdigits2].
  set (e' := Z.min _ _).
  assert (Ee : -1074 <= e').
  { subst e'. unfold fexp, SpecFloat.emin, prec, emax. lia. }
  assert (Es : 1 <= -52 - ey - e').
  { subst e'. unfold fexp, SpecFloat.emin, prec, emax. lia. }
  destruct (-52 - ey - e') as [|sp|sp] eqn:S; try lia.
  rewrite Z.shiftl_mul_pow2 by lia.
  destruct (Z.div_eucl (4503599627370496 * 2 ^ Zpos sp) (Zpos my))
    as [q r] eqn:D.
  assert (Q : q = 4503599627370496 * 2 ^ Zpos sp / Zpos my)
    by (unfold Z.div; now rewrite D).
  assert (P : 2 ^ 1 <= 2 ^ Zpos sp) by (apply Z.pow_le_mono_r; lia).
  change (2 ^ 1) with 2 in P. change (2 ^ 53) with 9007199254740992 in Lm.
  assert (Qp : 0 < q).
  { rewrite Q. apply Z.div_str_pos. lia. }
  pose proof (digits2_pos_bounds (Z.to_pos q)) as [_ Bq].
  rewrite Z2Pos.id in Bq by assumption.
  eapply rounded_positive.
  apply (binary_round_aux_shape false q e' (new_location (Zpos my) r)
           (Zpos (digits2_pos (Z.to_pos q)))); lia.
Qed.

End Binary64.

Lemma positive_float_ltb (x : float) :
  positive_float x -> (0 <? x)%float = true.
Proof.
  unfold positive_float. rewrite FloatAxioms.ltb_spec.
  change (Prim2SF 0) with (S754_zero false).
  destruct (Prim2SF x) as [sx|[|]| |[|] mx ex]; try contradiction; reflexivity.
Qed.

Lemma positive_float_add (x y : float) :
  Prim2SF x = S754_zero false \/ positive_float x ->
  positive_float y ->
  positive_float (x + y).
Proof.
  unfold positive_float. rewrite FloatAxioms.add_spec. apply SFadd_positive.
  - apply Prim2SF_valid.
  - apply Prim2SF_valid.
Qed.

Lemma of_uint63_finite (n : int) :
  Prim2SF (of_uint63 n) = S754_zero false
  \/ exists m e, Prim2SF (of_uint63 n) = S754_finite false m e.
Proof.
  rewrite of_uint63_spec. pose proof (Uint63.to_Z_bounded n) as [L U].
  destruct (Uint63.to_Z n) as [|p|p]; try lia.
  - now left.
  - right. cbn [binary_normalize].
    destruct (binary_round_shape false p 0 63) as (q & e & -> & B); try lia.
    { exact U. }
    assert (E : (e <=? emax - prec)%Z = true)
      by (apply Z.leb_le; unfold emax, prec; lia).
    rewrite E. eauto.
Qed.

Lemma positive_float_inverse (n : int) : positive_float (1 / of_uint63 n).
Proof.
  unfold positive_float. rewrite FloatAxioms.div_spec.
  change (Prim2SF 1) with (S754_finite false 4503599627370496 (-52)).
  pose proof (Prim2SF_valid (of_uint63 n)) as V.
  destruct (of_uint63_finite n) as [Z|(m & e & F)].
  - rewrite Z. exact I.
  - rewrite F in *. now apply SFdiv_one_positive.
Qed.

Lemma AddDocument_step_positive (words : list string) :
  positive_float (AddDocument_step words).
Proof. unfold AddDocument_step, of_size. apply positive_float_inverse. Qed.

Lemma add_times_positive (k : nat) (step : float) :
  positive_float step -> positive_float (add_times (S k) step).
Proof.
  intros P. induction k as [|k IH]; cbn [add_times] in *.
  - apply positive_float_add; [now left | assumption].
  - apply positive_float_add; [right; exact IH | assumption].
Qed.

(** ** Term frequencies *)

Lemma SplitIntoWordsNoStop_ext s s' text :
  stop_words_ s = stop_words_ s' ->
  SplitIntoWordsNoStop s text = SplitIntoWordsNoStop s' text.
Proof.
  intros E. unfold SplitIntoWordsNoStop, IsStopWord. now rewrite E.
Qed.

Lemma built_registered stop_words calls s c :
  built stop_words calls s -> In c calls ->
  find (call_id c) (document_id_to_rating_and_rating_ s) <> None.
Proof.
  induction 1 as [s N | calls s c0 s' B IH A]; intros I; [destruct I|].
  apply AddDocument_inv in A. destruct A as (_ & F & _ & ->). simpl.
  destruct (Z.eq_dec (call_id c) (call_id c0)) as [E|E].
  - rewrite E, find_upsert_same. discriminate.
  - rewrite find_upsert_other by assumption.
    apply in_app_or in I. destruct I as [I|[->|[]]]; [auto | congruence].
Qed.

(** C10, as the code has it. In every reachable state, for every document
    that was added and every word: the index holds a weight for the pair
    exactly when the word occurs among the document's terms (its words
    without the stop words); that weight is the [double] obtained from
    [0.0] by adding [step = 1.0 / (number of terms)] once per occurrence,
    each addition rounded; and it is strictly positive. *)
Theorem postings_of_added_document stop_words calls s c w :
  built stop_words calls s ->
  In c calls ->
  let words := SplitIntoWordsNoStop s (call_text c) in
  let step := (1 / of_size (List.length words))%float in
  posting s w (call_id c)
  = match occurrences w words with
    | O => None
    | S k => Some (add_times (S k) step)
    end
  /\ (forall tf_value,
        posting s w (call_id c) = Some tf_value ->
        (0 <? tf_value)%float = true).
Proof.
  intros B I. cbv zeta.
  assert (P : posting s w (call_id c)
              = match occurrences w (SplitIntoWordsNoStop s (call_text c)) with
                | O => None
                | S k =>
                    Some (add_times (S k)
                            (AddDocument_step
                               (SplitIntoWordsNoStop s (call_text c))))
                end).
  { induction B as [s N | calls s c0 s' B IH A]; [destruct I|].
    pose proof (built_wf _ _ _ B) as W.
    pose proof A as A'. apply AddDocument_inv in A'.
    destruct A' as (_ & F & _ & E).
    assert (Es : stop_words_ s' = stop_words_ s) by (rewrite E; reflexivity).
    rewrite (SplitIntoWordsNoStop_ext s' s _ Es).
    assert (Ep : forall d,
               posting s' w d
               = if Z.eqb d (call_id c0)
                 then tally
                        (AddDocument_step
                           (SplitIntoWordsNoStop s (call_text c0)))
                        w (SplitIntoWordsNoStop s (call_text c0))
                        (posting s w d)
                 else posting s w d).
    { intros d. rewrite E. unfold posting. cbn [tf_].
      apply posting_fold_add_posting. }
    rewrite Ep. apply in_app_or in I. destruct I as [I|[<-|[]]].
    - assert (N : call_id c <> call_id c0).
      { intros Ec. apply (built_registered _ _ _ _ B I). now rewrite Ec. }
      apply Z.eqb_neq in N. rewrite N. now apply IH.
    - rewrite Z.eqb_refl.
      assert (N : posting s w (call_id c0) = None).
      { destruct (posting s w (call_id c0)) eqn:Pw; [|reflexivity].
        exfalso. eapply wf_registered; eassumption. }
      rewrite N. apply tally_occurrences. }
  split; [exact P|].
  intros v Ev. rewrite P in Ev.
  destruct (occurrences w (SplitIntoWordsNoStop s (call_text c)));
    [discriminate|].
  injection Ev as <-. apply positive_float_ltb, add_times_positive.
  apply AddDocument_step_positive.
Qed.

Lemma server_ten_built :
  built [] ([] ++ [mkAddCall 0%Z ten_words ACTUAL []]) server_ten.
Proof.
  apply (built_add_all [] [] [mkAddCall 0%Z ten_words ACTUAL []]
           SearchServer_default).
  - now apply built_new.
  - reflexivity.
Defined.

Lemma postings_of_added_document_witness :
  let c := mkAddCall 0%Z ten_words ACTUAL [] in
  let words := SplitIntoWordsNoStop server_ten (call_text c) in
  let step := (1 / of_size (List.length words))%float in
  posting server_ten "a" (call_id c)
  = match occurrences "a" words with
    | O => None
    | S k => Some (add_times (S k) step)
    end
  /\ (forall tf_value,
        posting server_ten "a" (call_id c) = Some tf_value ->
        (0 <? tf_value)%float = true).
Proof.
  apply (postings_of_added_document [] _ server_ten
           (mkAddCall 0%Z ten_words ACTUAL []) "a" server_ten_built).
  simpl. auto.
Defined.

(** C10, as the claim words it, fails. The document "a a a b c d e f g h"
    has ten terms.  The weight stored for "a" is
    [0.1 + 0.1 + 0.1 = 0.30000000000000004], which is neither the double
    [3.0 / 10] nor the rational [3/10] (its value is
    [5404319552844596 / 2^54]); and the eight weights of the document add
    up to [0.99999999999999989], not to [1]. *)
Lemma tf_not_exact :
  occurrences "a" (SplitIntoWordsNoStop server_ten ten_words) = 3%nat
  /\ List.length (SplitIntoWordsNoStop server_ten ten_words) = 10%nat
  /\ posting server_ten "a" 0%Z = Some 0x1.3333333333334p-2%float
  /\ (of_size 3 / of_size 10)%float = 0x1.3333333333333p-2%float
  /\ posting server_ten "a" 0%Z <> Some (of_size 3 / of_size 10)%float
  /\ Prim2SF 0x1.3333333333334p-2%float
     = S754_finite false 5404319552844596 (-54)
  /\ (5404319552844596 * 10 <> 3 * 2 ^ 54)%Z
  /\ weight_sum server_ten 0%Z ["a"; "b"; "c"; "d"; "e"; "f"; "g"; "h"]
     = 0x1.fffffffffffffp-1%float
  /\ (weight_sum server_ten 0%Z ["a"; "b"; "c"; "d"; "e"; "f"; "g"; "h"]
      =? 1)%float = false.
Proof.
  repeat split; try (vm_compute; reflexivity).
  - intros E.
    apply (f_equal (fun o => match o with
                             | Some v => Prim2SF v
                             | None => S754_nan
                             end)) in E.
    vm_compute in E. discriminate.
  - vm_compute. discriminate.
Qed.

(** ** The tokenizer *)

Lemma append_nil_r (a : string) : (a ++ EmptyString)%string = a.
Proof. induction a as [|c a IH]; simpl; [reflexivity | now rewrite IH]. Qed.

Lemma append_assoc (a b c : string) :
  ((a ++ b) ++ c)%string = (a ++ (b ++ c))%string.
Proof. induction a as [|x a IH]; simpl; [reflexivity | now rewrite IH]. Qed.

Lemma list_ascii_of_string_app (a b : string) :
  list_ascii_of_string (a ++ b)%string
  = list_ascii_of_string a ++ list_ascii_of_string b.
Proof. induction a as [|x a IH]; simpl; [reflexivity | now rewrite IH]. Qed.

(** A separator closes the word being read and starts afresh. *)
Lemma SplitIntoWords_from_app (word a : string) (c : ascii) (b : string) :
  isspace c = true ->
  SplitIntoWords_from word (a ++ String c b)%string
  = SplitIntoWords_from word a ++ SplitIntoWords b.
Proof.
  intros S. revert word. induction a as [|x a IH]; intros word.
  - cbn [append SplitIntoWords_from]. rewrite S. now destruct word.
  - cbn [append SplitIntoWords_from]. destruct (isspace x).
    + destruct word; [apply IH|]. rewrite IH. reflexivity.
    + apply IH.
Qed.

(** Text without a separator is read as one word. *)
Lemma SplitIntoWords_from_word (word w : string) :
  existsb isspace (list_ascii_of_string w) = false ->
  SplitIntoWords_from word w
  = match (word ++ w)%string with
    | EmptyString => []
    | _ => [(word ++ w)%string]
    end.
Proof.
  revert word. induction w as [|c w IH]; intros word N.
  - rewrite append_nil_r. reflexivity.
  - cbn [list_ascii_of_string existsb] in N. apply orb_false_iff in N.
    destruct N as [Nc N]. cbn [SplitIntoWords_from]. rewrite Nc.
    rewrite (IH _ N), append_assoc. reflexivity.
Qed.

(** The words hold the bytes of the text that are not separators, in the
    order of the text. *)
Lemma SplitIntoWords_from_bytes (word text : string) :
  flat_map list_ascii_of_string (SplitIntoWords_from word text)
  = list_ascii_of_string word
    ++ filter (fun c => negb (isspace c)) (list_ascii_of_string text).
Proof.
  revert word. induction text as [|c text IH]; intros word.
  - cbn [SplitIntoWords_from list_ascii_of_string filter].
    rewrite app_nil_r. destruct word; [reflexivity|].
    cbn [flat_map]. now rewrite app_nil_r.
  - cbn [SplitIntoWords_from list_ascii_of_string filter].
    destruct (isspace c); cbn [negb].
    + destruct word.
      * apply IH.
      * cbn [flat_map]. rewrite IH. reflexivity.
    + rewrite IH, list_ascii_of_string_app, <- app_assoc. reflexivity.
Qed.

Lemma SplitIntoWords_from_no_space (word text w : string) :
  existsb isspace (list_ascii_of_string word) = false ->
  In w (SplitIntoWords_from word text) ->
  existsb isspace (list_ascii_of_string w) = false.
Proof.
  revert word. induction text as [|c text IH]; intros word N.
  - cbn [SplitIntoWords_from]. destruct word; [intros []|].
    intros [<-|[]]. exact N.
  - cbn [SplitIntoWords_from]. destruct (isspace c) eqn:S.
    + destruct word; [now apply IH|].
      intros [<-|I]; [exact N | now apply (IH EmptyString)].
    + apply IH. rewrite list_ascii_of_string_app, existsb_app, N.
      cbn [list_ascii_of_string existsb]. now rewrite S.
Qed.

Lemma SplitIntoWords_is_word (text w : string) :
  In w (SplitIntoWords text) -> is_word w.
Proof.
  intros I. split.
  - eapply SplitIntoWords_from_nonempty; exact I.
  - eapply SplitIntoWords_from_no_space; [|exact I]. reflexivity.
Qed.

Lemma SplitIntoWords_bytes (text : string) (c : ascii) :
  (exists w, In w (SplitIntoWords text) /\ In c (list_ascii_of_string w))
  <-> In c (list_ascii_of_string text) /\ isspace c = false.
Proof.
  rewrite <- in_flat_map. unfold SplitIntoWords.
  rewrite SplitIntoWords_from_bytes. cbn [list_ascii_of_string app].
  rewrite filter_In, negb_true_iff. reflexivity.
Qed.

(** A byte that is a control character and a separator at once: the tab,
    the line feed and their neighbours. *)
Lemma IsInvalid_word (text w : string) :
  IsInvalid text = false -> In w (SplitIntoWords text) -> IsInvalid w = false.
Proof.
  intros V I. destruct (IsInvalid w) eqn:E; [|reflexivity].
  apply IsInvalid_spec in E. destruct E as (c & Ic & L).
  assert (B : In c (list_ascii_of_string text) /\ isspace c = false)
    by (apply SplitIntoWords_bytes; eauto).
  assert (T : IsInvalid text = true)
    by (apply IsInvalid_spec; exists c; tauto).
  congruence.
Qed.

(** X1. The words [SplitIntoWords] returns are not empty and hold no
    separator, and together they hold exactly the bytes of the text that
    are not separators, in the order of the text: nothing is lost, added
    or reordered. *)
Theorem SplitIntoWords_words (text : string) :
  Forall is_word (SplitIntoWords text)
  /\ flat_map list_ascii_of_string (SplitIntoWords text)
     = filter (fun c => negb (isspace c)) (list_ascii_of_string text).
Proof.
  split.
  - apply Forall_forall. intros w. apply SplitIntoWords_is_word.
  - unfold SplitIntoWords. now rewrite SplitIntoWords_from_bytes.
Qed.

(** X2. Splitting distributes over a separator: the words of
    [a ++ c ++ b], for a separator byte [c], are the words of [a]
    followed by the words of [b]. *)
Theorem SplitIntoWords_separator (a : string) (c : ascii) (b : string) :
  isspace c = true ->
  SplitIntoWords (a ++ String c b)%string
  = SplitIntoWords a ++ SplitIntoWords b.
Proof. intros S. now apply SplitIntoWords_from_app. Qed.

Lemma SplitIntoWords_separator_witness :
  SplitIntoWords ("curly cat" ++ String " " "  and dog")%string
  = SplitIntoWords "curly cat" ++ SplitIntoWords "  and dog".
Proof.
  apply (SplitIntoWords_separator "curly cat" " " "  and dog"). reflexivity.
Defined.

Lemma SplitIntoWords_one (w : string) : is_word w -> SplitIntoWords w = [w].
Proof.
  intros [N S]. unfold SplitIntoWords. rewrite (SplitIntoWords_from_word _ _ S).
  cbn [append]. destruct w; [contradiction | reflexivity].
Qed.

(** X3. Joining words with single spaces and splitting the text again
    gives the words back. *)
Theorem SplitIntoWords_join (words : list string) :
  Forall is_word words ->
  SplitIntoWords (String.concat " " words) = words.
Proof.
  induction words as [|w words IH]; intros F; [reflexivity|].
  inversion F as [|? ? Fw Fws]; subst.
  destruct words as [|w' words]; [now apply SplitIntoWords_one|].
  assert (E : String.concat " " (w :: w' :: words)
              = (w ++ String " " (String.concat " " (w' :: words)))%string)
    by reflexivity.
  rewrite E. unfold SplitIntoWords at 1.
  rewrite SplitIntoWords_from_app by reflexivity.
  fold (SplitIntoWords w).
  rewrite (IH Fws), (SplitIntoWords_one _ Fw). reflexivity.
Qed.

Lemma SplitIntoWords_join_witness :
  SplitIntoWords (String.concat " " ["white"; "cat"; "-collar"])
  = ["white"; "cat"; "-collar"].
Proof.
  apply (SplitIntoWords_join ["white"; "cat"; "-collar"]).
  repeat constructor; discriminate.
Defined.

(** ** Construction *)

Lemma existsb_IsInvalid_unique (strings : list string) :
  existsb IsInvalid (MakeUniqueNonEmptyStrings strings)
  = existsb IsInvalid strings.
Proof.
  apply eq_true_iff_eq. rewrite !existsb_exists. split.
  - intros (w & I & V). apply MakeUniqueNonEmptyStrings_In in I.
    exists w. tauto.
  - intros (w & I & V). exists w. split; [|assumption].
    apply MakeUniqueNonEmptyStrings_In. split; [assumption|].
    intros ->. discriminate V.
Qed.

Lemma SearchServer_new_cases (stop_words : list string) :
  match SearchServer_new stop_words with
  | Ok s =>
      Forall (fun w => IsInvalid w = false) stop_words
      /\ s = mkSearchServer [] (MakeUniqueNonEmptyStrings stop_words) [] []
  | Err e =>
      e = invalid_argument "Invalid stop word"
      /\ Exists (fun w => IsInvalid w = true) stop_words
  end.
Proof.
  unfold SearchServer_new. rewrite existsb_IsInvalid_unique.
  destruct (existsb IsInvalid stop_words) eqn:E.
  - split; [reflexivity|]. apply Exists_exists.
    now apply existsb_exists in E.
  - split; [|reflexivity]. apply Forall_forall. intros w I.
    destruct (IsInvalid w) eqn:V; [|reflexivity].
    assert (T : existsb IsInvalid stop_words = true)
      by (apply existsb_exists; eauto).
    congruence.
Qed.

Lemma IsStopWord_new (stop_words : list string) (w : string) :
  IsStopWord
    (mkSearchServer [] (MakeUniqueNonEmptyStrings stop_words) [] []) w = true
  <-> In w stop_words /\ w <> EmptyString.
Proof.
  rewrite IsStopWord_In by apply MakeUniqueNonEmptyStrings_ascending.
  apply MakeUniqueNonEmptyStrings_In.
Qed.

(** X4. The constructor throws exactly when some stop word holds a byte in
    [0, 31], and the exception is [invalid_argument] ("Invalid stop
    word").  Otherwise the object starts without documents and with an
    empty index, and its stop words are the given strings without the
    empty ones, kept sorted and without duplicates. *)
Theorem SearchServer_new_outcome (stop_words : list string) :
  match SearchServer_new stop_words with
  | Ok s =>
      Forall (fun w => IsInvalid w = false) stop_words
      /\ tf_ s = []
      /\ document_id_to_rating_and_rating_ s = []
      /\ document_id_orders_ s = []
      /\ GetDocumentCount s = 0%Z
      /\ set_ascending (stop_words_ s)
      /\ forall w, IsStopWord s w = true
                   <-> In w stop_words /\ w <> EmptyString
  | Err e =>
      e = invalid_argument "Invalid stop word"
      /\ Exists (fun w => IsInvalid w = true) stop_words
  end.
Proof.
  pose proof (SearchServer_new_cases stop_words) as O.
  destruct (SearchServer_new stop_words) as [s|e]; [|exact O].
  destruct O as [V ->]. split; [exact V|].
  repeat (split; [reflexivity|]).
  split; [apply MakeUniqueNonEmptyStrings_ascending|].
  apply IsStopWord_new.
Qed.

(** X5. The constructor that takes the stop words as one text splits it
    first, so that the separators among the control characters (tab, line
    feed, ...) are accepted: it throws exactly when the text holds a byte
    in [0, 31] that is not a separator, and otherwise the stop words are
    the words of the text. *)
Theorem SearchServer_of_text_outcome (text : string) :
  match SearchServer_of_text text with
  | Ok s =>
      (forall c, In c (list_ascii_of_string text) ->
                 (nat_of_ascii c <= 31)%nat -> isspace c = true)
      /\ forall w, IsStopWord s w = true <-> In w (SplitIntoWords text)
  | Err e =>
      e = invalid_argument "Invalid stop word"
      /\ exists c, In c (list_ascii_of_string text)
                   /\ (nat_of_ascii c <= 31)%nat /\ isspace c = false
  end.
Proof.
  unfold SearchServer_of_text.
  pose proof (SearchServer_new_cases (SplitIntoWords text)) as O.
  destruct (SearchServer_new (SplitIntoWords text)) as [s|e].
  - destruct O as [V ->].
    pose proof (IsStopWord_new (SplitIntoWords text)) as M. split.
    + intros c I L. destruct (isspace c) eqn:S; [reflexivity|].
      assert (B : exists w, In w (SplitIntoWords text)
                            /\ In c (list_ascii_of_string w))
        by (apply SplitIntoWords_bytes; tauto).
      destruct B as (w & Iw & Ic). rewrite Forall_forall in V.
      assert (T : IsInvalid w = true) by (apply IsInvalid_spec; eauto).
      rewrite (V w Iw) in T. discriminate.
    + intros w. rewrite M. split; [tauto|]. intros I. split; [assumption|].
      apply (SplitIntoWords_is_word _ _ I).
  - destruct O as [-> X]. split; [reflexivity|].
    apply Exists_exists in X. destruct X as (w & I & V).
    apply IsInvalid_spec in V. destruct V as (c & Ic & L).
    assert (B : In c (list_ascii_of_string text) /\ isspace c = false)
      by (apply SplitIntoWords_bytes; eauto).
    exists c. tauto.
Qed.

(** ** Parsing queries: outcome and canonical form *)

Section SetFacts.
Context {K : Type} `{Ord K}.

Lemma set_ascending_head (x : K) (l : oset K) :
  set_ascending (x :: l) -> ~ In x l.
Proof.
  intros [B _] I. rewrite Forall_forall in B.
  specialize (B x I). rewrite cmp_refl in B. discriminate.
Qed.

(** A [std::set] is determined by its elements. *)
Lemma set_ascending_ext (l1 l2 : oset K) :
  set_ascending l1 -> set_ascending l2 ->
  (forall x, In x l1 <-> In x l2) -> l1 = l2.
Proof.
  revert l2. induction l1 as [|x l1 IH]; intros [|y l2] A1 A2 E.
  - reflexivity.
  - exfalso. apply (E y). now left.
  - exfalso. apply (E x). now left.
  - assert (X : x = y).
    { destruct (proj1 (E x) (or_introl eq_refl)) as [->|Ix]; [reflexivity|].
      destruct (proj2 (E y) (or_introl eq_refl)) as [->|Iy]; [reflexivity|].
      exfalso. destruct A1 as [B1 _], A2 as [B2 _].
      rewrite Forall_forall in B1, B2.
      pose proof (cmp_lt_trans _ _ _ (B1 y Iy) (B2 x Ix)) as C.
      rewrite cmp_refl in C. discriminate. }
    subst y. f_equal. apply IH; [apply A1 | apply A2 |].
    intros z. split; intros I.
    + destruct (proj1 (E z) (or_intror I)) as [<-|I']; [|assumption].
      exfalso. now apply (set_ascending_head x l1).
    + destruct (proj2 (E z) (or_intror I)) as [<-|I']; [|assumption].
      exfalso. now apply (set_ascending_head x l2).
Qed.

Lemma set_ascending_NoDup (l : oset K) : set_ascending l -> NoDup l.
Proof.
  induction l as [|x l IH]; intros A; constructor.
  - now apply set_ascending_head.
  - apply IH, A.
Qed.

End SetFacts.

Lemma prefix_two_minus (w : string) :
  String.prefix "--" w
  = match w with
    | String c (String c' _) => Ascii.eqb c "-" && Ascii.eqb c' "-"
    | _ => false
    end.
Proof.
  destruct w as [|c [|c' t]]; cbn -[ascii_dec Ascii.eqb].
  - reflexivity.
  - destruct (ascii_dec "-"%char c); reflexivity.
  - destruct (ascii_dec "-"%char c) as [<-|N].
    + destruct (ascii_dec "-"%char c') as [<-|N']; [now destruct t|].
      symmetry. apply Ascii.eqb_neq. congruence.
    + symmetry. apply andb_false_iff. left. apply Ascii.eqb_neq. congruence.
Qed.

Lemma ParseQueryWord_fault s word :
  match query_word_fault word with
  | Some e => ParseQueryWord s word = Err e
  | None => exists qw, ParseQueryWord s word = Ok qw
  end.
Proof.
  unfold query_word_fault, ParseQueryWord. rewrite prefix_two_minus.
  destruct (IsInvalid word); [reflexivity|].
  destruct word as [|c [|c' t]]; cbn -[Ascii.eqb].
  - eexists. reflexivity.
  - rewrite orb_false_r.
    destruct (Ascii.eqb c "-"); [reflexivity | eexists; reflexivity].
  - destruct (Ascii.eqb c "-"); cbn -[Ascii.eqb]; [|eexists; reflexivity].
    destruct (Ascii.eqb c' "-"); [reflexivity | eexists; reflexivity].
Qed.

Lemma ParseQuery_loop_outcome s words q0 :
  match ParseQuery_loop s words q0 with
  | Ok _ => Forall (fun w => query_word_fault w = None) words
  | Err e =>
      exists before word after,
        words = before ++ word :: after
        /\ Forall (fun w => query_word_fault w = None) before
        /\ query_word_fault word = Some e
  end.
Proof.
  revert q0. induction words as [|w words IH]; intros q0; [constructor|].
  cbn [ParseQuery_loop]. pose proof (ParseQueryWord_fault s w) as W.
  destruct (query_word_fault w) as [e|] eqn:Q.
  - rewrite W. cbn [bind]. exists [], w, words. auto.
  - destruct W as [qw ->]. cbn [bind]. fold (with_word qw q0).
    specialize (IH (with_word qw q0)).
    destruct (ParseQuery_loop s words (with_word qw q0)) as [q|e].
    + now constructor.
    + destruct IH as (before & word & after & -> & F & E).
      exists (w :: before), word, after. split; [reflexivity|].
      split; [now constructor | assumption].
Qed.

Lemma with_word_ascending qw q :
  set_ascending (plus_words q) -> set_ascending (minus_words q) ->
  set_ascending (plus_words (with_word qw q))
  /\ set_ascending (minus_words (with_word qw q)).
Proof.
  intros P M. unfold with_word.
  destruct (is_stop qw); [auto|].
  destruct (is_minus qw); cbn [plus_words minus_words];
    auto using set_insert_ascending.
Qed.

Lemma ParseQuery_loop_ascending s words q0 q :
  set_ascending (plus_words q0) -> set_ascending (minus_words q0) ->
  ParseQuery_loop s words q0 = Ok q ->
  set_ascending (plus_words q) /\ set_ascending (minus_words q).
Proof.
  revert q0. induction words as [|w words IH]; intros q0 P M.
  - intros [= <-]. auto.
  - cbn [ParseQuery_loop]. destruct (ParseQueryWord s w) as [qw|e];
      [|discriminate].
    cbn [bind]. fold (with_word qw q0).
    destruct (with_word_ascending qw q0 P M). now apply IH.
Qed.

Lemma ParseQuery_ascending s text q :
  ParseQuery s text = Ok q ->
  set_ascending (plus_words q) /\ set_ascending (minus_words q).
Proof. apply ParseQuery_loop_ascending; exact I. Qed.

(** X6. Which queries parse. The stop words are dropped first; the words
    left are checked in the order of the text, and the first faulty one
    decides the exception: "Invalid query" for a word with a byte in
    [0, 31], "Invalid minus word" for a lone ['-'] and for a word that
    starts with two of them.  The query parses exactly when no word left
    is faulty. *)
Theorem ParseQuery_outcome s text :
  match ParseQuery s text with
  | Ok _ =>
      Forall (fun w => query_word_fault w = None) (SplitIntoWordsNoStop s text)
  | Err e =>
      exists before word after,
        SplitIntoWordsNoStop s text = before ++ word :: after
        /\ Forall (fun w => query_word_fault w = None) before
        /\ query_word_fault word = Some e
  end.
Proof. apply ParseQuery_loop_outcome. Qed.

(** X7. What a parsed query holds. Both sets are sorted and free of
    duplicates; the plus words are the words of the text that are neither
    stop words nor start with ['-']; the minus words are what follows the
    ['-'] of the other words, unless that is a stop word. *)
Theorem ParseQuery_sets s text q :
  ParseQuery s text = Ok q ->
  set_ascending (plus_words q)
  /\ set_ascending (minus_words q)
  /\ (forall t, In t (plus_words q)
                <-> In t (SplitIntoWords text) /\ IsStopWord s t = false
                    /\ char_at t 0 <> "-"%char)
  /\ (forall t, In t (minus_words q)
                <-> In (String "-" t) (SplitIntoWords text)
                    /\ IsStopWord s (String "-" t) = false
                    /\ IsStopWord s t = false).
Proof.
  intros P. destruct (ParseQuery_ascending s text q P) as [Ap Am].
  destruct (ParseQuery_spec s text q P) as (Lp & Lm & _).
  split; [exact Ap|]. split; [exact Am|]. split.
  - intros t. rewrite Lp, SplitIntoWordsNoStop_In. tauto.
  - intros t. rewrite Lm, SplitIntoWordsNoStop_In. tauto.
Qed.

Lemma ParseQuery_sets_witness :
  set_ascending ["cat"; "dog"]
  /\ set_ascending ["boots"]
  /\ (forall t, In t ["cat"; "dog"]
                <-> In t (SplitIntoWords "dog -boots in cat -the dog")
                    /\ IsStopWord server_in_the t = false
                    /\ char_at t 0 <> "-"%char)
  /\ (forall t, In t ["boots"]
                <-> In (String "-" t)
                      (SplitIntoWords "dog -boots in cat -the dog")
                    /\ IsStopWord server_in_the (String "-" t) = false
                    /\ IsStopWord server_in_the t = false).
Proof.
  exact (ParseQuery_sets server_in_the "dog -boots in cat -the dog"
           (mkQuery ["cat"; "dog"] ["boots"]) eq_refl).
Defined.

(** X8. The parsed query does not depend on the order of the words or on
    their repetition: two texts with the same words (stop words apart)
    parse to the same query. *)
Theorem ParseQuery_canonical s text1 text2 q1 q2 :
  ParseQuery s text1 = Ok q1 ->
  ParseQuery s text2 = Ok q2 ->
  (forall w, In w (SplitIntoWordsNoStop s text1)
             <-> In w (SplitIntoWordsNoStop s text2)) ->
  q1 = q2.
Proof.
  intros P1 P2 E.
  destruct (ParseQuery_ascending s text1 q1 P1) as [Ap1 Am1].
  destruct (ParseQuery_ascending s text2 q2 P2) as [Ap2 Am2].
  destruct (ParseQuery_spec s text1 q1 P1) as (Lp1 & Lm1 & _).
  destruct (ParseQuery_spec s text2 q2 P2) as (Lp2 & Lm2 & _).
  destruct q1 as [p1 m1], q2 as [p2 m2]. cbn [plus_words minus_words] in *.
  f_equal.
  - apply set_ascending_ext; try assumption.
    intros t. rewrite Lp1, Lp2, E. reflexivity.
  - apply set_ascending_ext; try assumption.
    intros t. rewrite Lm1, Lm2, E. reflexivity.
Qed.

Lemma ParseQuery_canonical_witness :
  mkQuery ["cat"] ["dog"] = mkQuery ["cat"] ["dog"].
Proof.
  apply (ParseQuery_canonical SearchServer_default
           "cat -dog cat" "-dog cat -dog").
  - reflexivity.
  - reflexivity.
  - intros w. simpl. tauto.
Defined.

(** ** The object after a history of calls *)

Section MapFacts.
Context {K V : Type} `{Ord K}.

Lemma ascending_NoDup_keys (m : omap K V) : ascending m -> NoDup (map fst m).
Proof.
  induction m as [|[k v] m IH]; intros A; [constructor|].
  destruct A as [B A]. cbn [map fst]. constructor; [|auto].
  intros I. apply in_map_iff in I. destruct I as ([k' v'] & E & I).
  cbn [fst] in E. subst k'. unfold below in B. rewrite Forall_forall in B.
  specialize (B _ I). cbn [fst] in B. rewrite cmp_refl in B. discriminate.
Qed.

Lemma upsert_nonempty k f (m : omap K V) : upsert k f m <> [].
Proof.
  destruct m as [|[k' v] m]; cbn [upsert]; [discriminate|].
  destruct (cmp k k'); discriminate.
Qed.

End MapFacts.

Lemma SearchServer_new_inv stop_words s :
  SearchServer_new stop_words = Ok s ->
  s = mkSearchServer [] (MakeUniqueNonEmptyStrings stop_words) [] [].
Proof.
  unfold SearchServer_new.
  destruct (existsb IsInvalid (MakeUniqueNonEmptyStrings stop_words));
    [discriminate|].
  now intros [= <-].
Qed.

Lemma built_orders stop_words calls s :
  built stop_words calls s -> document_id_orders_ s = map call_id calls.
Proof.
  induction 1 as [s N | calls s c s' B IH A].
  - apply SearchServer_new_inv in N. now subst s.
  - apply AddDocument_inv in A. destruct A as (_ & _ & _ & ->).
    cbn [document_id_orders_]. now rewrite IH, map_app.
Qed.

Lemma built_registered_iff stop_words calls s d :
  built stop_words calls s ->
  (find d (document_id_to_rating_and_rating_ s) <> None
   <-> In d (map call_id calls)).
Proof.
  induction 1 as [s N | calls s c s' B IH A].
  - apply SearchServer_new_inv in N. subst s. simpl. tauto.
  - apply AddDocument_inv in A. destruct A as (_ & _ & _ & ->).
    cbn [document_id_to_rating_and_rating_].
    rewrite map_app, in_app_iff. cbn [map In].
    destruct (Z.eq_dec d (call_id c)) as [->|N].
    + rewrite find_upsert_same. split; [auto | discriminate].
    + rewrite find_upsert_other by assumption. rewrite IH.
      split; [tauto | intros [?|[?|[]]]; [assumption | congruence]].
Qed.

Lemma built_entry stop_words calls s c :
  built stop_words calls s -> In c calls ->
  (0 <= call_id c)%Z
  /\ IsInvalid (call_text c) = false
  /\ find (call_id c) (document_id_to_rating_and_rating_ s)
     = Some (ComputeAverageRating (call_ratings c), call_status c).
Proof.
  induction 1 as [s N | calls s c0 s' B IH A]; intros I; [destruct I|].
  pose proof (built_registered _ _ _ c B) as R.
  apply AddDocument_inv in A. destruct A as (P & F & V & ->).
  cbn [document_id_to_rating_and_rating_].
  apply in_app_or in I. destruct I as [I|[->|[]]].
  - destruct (IH I) as (P' & V' & F'). split; [exact P'|].
    split; [exact V'|]. rewrite find_upsert_other; [exact F'|].
    intros E. apply (R I). now rewrite E.
  - split; [exact P|]. split; [exact V|]. apply find_upsert_same.
Qed.

Lemma built_NoDup stop_words calls s :
  built stop_words calls s -> NoDup (map call_id calls).
Proof.
  induction 1 as [s N | calls s c s' B IH A]; [constructor|].
  apply AddDocument_inv in A. destruct A as (_ & F & _ & _).
  rewrite map_app. apply NoDup_app; [exact IH | repeat constructor; tauto|].
  intros d I [E|[]]. subst d.
  apply (built_registered_iff _ _ _ (call_id c) B) in I. contradiction.
Qed.

(** The weight the index holds for a word and an added document. *)
Lemma built_posting stop_words calls s c w :
  built stop_words calls s -> In c calls ->
  posting s w (call_id c)
  = match occurrences w (terms_of s c) with
    | O => None
    | S k => Some (add_times (S k) (AddDocument_step (terms_of s c)))
    end.
Proof.
  unfold terms_of.
  induction 1 as [s N | calls s c0 s' B IH A]; intros I; [destruct I|].
  pose proof (built_wf _ _ _ B) as W.
  pose proof A as A'. apply AddDocument_inv in A'.
  destruct A' as (_ & F & _ & E).
  assert (Es : stop_words_ s' = stop_words_ s) by (rewrite E; reflexivity).
  rewrite (SplitIntoWordsNoStop_ext s' s _ Es).
  assert (Ep : posting s' w (call_id c)
               = if Z.eqb (call_id c) (call_id c0)
                 then tally
                        (AddDocument_step
                           (SplitIntoWordsNoStop s (call_text c0)))
                        w (SplitIntoWordsNoStop s (call_text c0))
                        (posting s w (call_id c))
                 else posting s w (call_id c)).
  { rewrite E. unfold posting. cbn [tf_]. apply posting_fold_add_posting. }
  rewrite Ep. apply in_app_or in I. destruct I as [I|[<-|[]]].
  - assert (N : call_id c <> call_id c0).
    { intros Ec. apply (built_registered _ _ _ _ B I). now rewrite Ec. }
    apply Z.eqb_neq in N. rewrite N. now apply IH.
  - rewrite Z.eqb_refl.
    assert (N : posting s w (call_id c0) = None).
    { destruct (posting s w (call_id c0)) eqn:Pw; [|reflexivity].
      exfalso. eapply wf_registered; eassumption. }
    rewrite N. apply tally_occurrences.
Qed.

Lemma find_fold_add_posting_other id step words tf w :
  ~ In w words ->
  find w (fold_left (add_posting id step) words tf) = find w tf.
Proof.
  revert tf. induction words as [|w0 words IH]; intros tf N; [reflexivity|].
  cbn [fold_left]. rewrite IH by (intros I; apply N; now right).
  rewrite find_add_posting.
  destruct (String.eqb_spec w w0) as [->|_]; [|reflexivity].
  exfalso. apply N. now left.
Qed.

Lemma find_fold_add_posting_nonempty id step words tf w p :
  (forall p, find w tf = Some p -> p <> []) ->
  find w (fold_left (add_posting id step) words tf) = Some p -> p <> [].
Proof.
  revert tf. induction words as [|w0 words IH]; intros tf N; [apply N|].
  cbn [fold_left]. apply IH. intros p'. rewrite find_add_posting.
  destruct (String.eqb w w0); [|apply N].
  intros [= <-]. apply upsert_nonempty.
Qed.

(** No key of the index is left without a posting. *)
Lemma built_nonempty_postings stop_words calls s w p :
  built stop_words calls s -> find w (tf_ s) = Some p -> p <> [].
Proof.
  intros B. revert p. induction B as [s N | calls s c s' B IH A]; intros p.
  - apply SearchServer_new_inv in N. subst s. discriminate.
  - apply AddDocument_inv in A. destruct A as (_ & _ & _ & ->). cbn [tf_].
    apply find_fold_add_posting_nonempty. exact IH.
Qed.

Lemma built_posting_iff stop_words calls s w d :
  built stop_words calls s ->
  (posting s w d <> None
   <-> exists c, In c calls /\ call_id c = d /\ In w (terms_of s c)).
Proof.
  intros B. pose proof (built_wf _ _ _ B) as W. split.
  - intros P. destruct (posting s w d) as [v|] eqn:E; [|congruence].
    pose proof (wf_registered s W w d v E) as R.
    apply (built_registered_iff _ _ _ d B) in R.
    apply in_map_iff in R. destruct R as (c & <- & I).
    exists c. split; [assumption|]. split; [reflexivity|].
    rewrite (built_posting _ _ _ c w B I) in E.
    apply (count_occ_In string_dec). fold (occurrences w (terms_of s c)).
    destruct (occurrences w (terms_of s c)); [discriminate | lia].
  - intros (c & I & <- & T). rewrite (built_posting _ _ _ c w B I).
    apply (count_occ_In string_dec) in T.
    fold (occurrences w (terms_of s c)) in T.
    destruct (occurrences w (terms_of s c)); [lia | discriminate].
Qed.

Lemma built_key_iff stop_words calls s w :
  built stop_words calls s ->
  (find w (tf_ s) <> None
   <-> exists c, In c calls /\ In w (terms_of s c)).
Proof.
  intros B. pose proof (built_wf _ _ _ B) as W. split.
  - intros K. destruct (find w (tf_ s)) as [p|] eqn:F; [|congruence].
    pose proof (built_nonempty_postings _ _ _ w p B F) as N.
    destruct p as [|[d v] p]; [congruence|].
    assert (P : posting s w d <> None).
    { unfold posting, posting_in. rewrite F.
      rewrite (ascending_In_find d v); [discriminate | | now left].
      eapply wf_postings; eassumption. }
    apply (built_posting_iff _ _ _ w d B) in P.
    destruct P as (c & I & _ & T). eauto.
  - intros (c & I & T).
    assert (P : posting s w (call_id c) <> None)
      by (apply (built_posting_iff _ _ _ w (call_id c) B); eauto).
    unfold posting, posting_in in P. destruct (find w (tf_ s)); congruence.
Qed.

(** X9. The document store after a history of accepted calls: the ids
    are pairwise different and not negative, the texts hold no control
    character, each added document is stored with the status it was given
    and the average of its ratings, and nothing else is stored. *)
Theorem document_store_of_history stop_words calls s :
  built stop_words calls s ->
  NoDup (map call_id calls)
  /\ (forall c, In c calls ->
        (0 <= call_id c)%Z
        /\ IsInvalid (call_text c) = false
        /\ find (call_id c) (document_id_to_rating_and_rating_ s)
           = Some (ComputeAverageRating (call_ratings c), call_status c))
  /\ (forall d, find d (document_id_to_rating_and_rating_ s) <> None
                <-> In d (map call_id calls)).
Proof.
  intros B. split; [eapply built_NoDup; eassumption|]. split.
  - intros c. now apply built_entry with (stop_words := stop_words).
  - intros d. now apply built_registered_iff with (stop_words := stop_words).
Qed.

Lemma document_store_of_history_witness :
  NoDup (map call_id ([] ++ cat_calls))
  /\ (forall c, In c ([] ++ cat_calls) ->
        (0 <= call_id c)%Z
        /\ IsInvalid (call_text c) = false
        /\ find (call_id c)
             (document_id_to_rating_and_rating_ server_cats_no_stop)
           = Some (ComputeAverageRating (call_ratings c), call_status c))
  /\ (forall d,
        find d (document_id_to_rating_and_rating_ server_cats_no_stop) <> None
        <-> In d (map call_id ([] ++ cat_calls))).
Proof.
  exact (document_store_of_history ["in"; "the"] ([] ++ cat_calls)
           server_cats_no_stop server_cats_no_stop_built).
Defined.

(** X10. The insertion order after a history of accepted calls:
    [GetDocumentCount] is the number of accepted calls (as long as it
    fits an [int]), [GetDocumentId(i)] is the id of the call number [i],
    counted from zero, and throws [out_of_range] for a negative index and
    for an index from the document count on. *)
Theorem insertion_order_of_history stop_words calls s :
  built stop_words calls s ->
  document_id_orders_ s = map call_id calls
  /\ ((Z.of_nat (List.length calls) <= 2147483647)%Z ->
      GetDocumentCount s = Z.of_nat (List.length calls))
  /\ (forall i c, nth_error calls i = Some c ->
        GetDocumentId s (Z.of_nat i) = Ok (call_id c))
  /\ (forall index,
        (index < 0 \/ Z.of_nat (List.length calls) <= index)%Z ->
        GetDocumentId s index = Err out_of_range).
Proof.
  intros B. pose proof (built_orders _ _ _ B) as O.
  split; [exact O|]. split; [|split].
  - intros L. unfold GetDocumentCount. rewrite O, length_map.
    apply to_int_id. unfold int_range. lia.
  - intros i c N. unfold GetDocumentId.
    destruct (Z.ltb_spec (Z.of_nat i) 0) as [L|_]; [lia|].
    now rewrite Nat2Z.id, O, nth_error_map, N.
  - intros index R. unfold GetDocumentId.
    destruct (Z.ltb_spec index 0) as [L|L]; [reflexivity|].
    destruct R as [R|R]; [lia|].
    assert (N : nth_error (document_id_orders_ s) (Z.to_nat index) = None).
    { apply nth_error_None. rewrite O, length_map. lia. }
    now rewrite N.
Qed.

Lemma insertion_order_of_history_witness :
  document_id_orders_ server_cats_no_stop = map call_id ([] ++ cat_calls)
  /\ ((Z.of_nat (List.length ([] ++ cat_calls)) <= 2147483647)%Z ->
      GetDocumentCount server_cats_no_stop
      = Z.of_nat (List.length ([] ++ cat_calls)))
  /\ (forall i c, nth_error ([] ++ cat_calls) i = Some c ->
        GetDocumentId server_cats_no_stop (Z.of_nat i) = Ok (call_id c))
  /\ (forall index,
        (index < 0 \/ Z.of_nat (List.length ([] ++ cat_calls)) <= index)%Z ->
        GetDocumentId server_cats_no_stop index = Err out_of_range).
Proof.
  exact (insertion_order_of_history ["in"; "the"] ([] ++ cat_calls)
           server_cats_no_stop server_cats_no_stop_built).
Defined.

(** X11. The inverted index after a history of accepted calls holds what
    the documents hold and nothing else: there is a posting for a word
    and an id exactly when a document was added under this id whose terms
    (its words without the stop words) include the word, and a word is a
    key of the index exactly when it is a term of some added document. *)
Theorem index_of_history stop_words calls s :
  built stop_words calls s ->
  (forall w d,
     posting s w d <> None
     <-> exists c, In c calls /\ call_id c = d /\ In w (terms_of s c))
  /\ (forall w,
        find w (tf_ s) <> None
        <-> exists c, In c calls /\ In w (terms_of s c)).
Proof.
  intros B. split.
  - intros w d. now apply built_posting_iff with (stop_words := stop_words).
  - intros w. now apply built_key_iff with (stop_words := stop_words).
Qed.

Lemma index_of_history_witness :
  (forall w d,
     posting server_cats_no_stop w d <> None
     <-> exists c, In c ([] ++ cat_calls) /\ call_id c = d
                   /\ In w (terms_of server_cats_no_stop c))
  /\ (forall w,
        find w (tf_ server_cats_no_stop) <> None
        <-> exists c, In c ([] ++ cat_calls)
                      /\ In w (terms_of server_cats_no_stop c)).
Proof.
  exact (index_of_history ["in"; "the"] ([] ++ cat_calls)
           server_cats_no_stop server_cats_no_stop_built).
Defined.

(** X12. The two sizes [CalculateIDF] divides. For every word of the index
    the number of documents that hold it is at least one and at most the
    number of documents: the divisor is never zero and never larger than
    the dividend. *)
Theorem postings_count_bounds s w postings :
  reachable s ->
  find w (tf_ s) = Some postings ->
  (1 <= List.length postings <= List.length (document_id_orders_ s))%nat.
Proof.
  intros (stop_words & calls & B) F. pose proof (built_wf _ _ _ B) as W.
  split.
  - pose proof (built_nonempty_postings _ _ _ w postings B F) as N.
    destruct postings; [congruence | simpl; lia].
  - rewrite (built_orders _ _ _ B), <- (length_map fst postings).
    apply NoDup_incl_length.
    + apply ascending_NoDup_keys. eapply wf_postings; eassumption.
    + intros d I. apply in_map_iff in I. destruct I as ([d' v] & <- & I).
      cbn [fst]. apply (built_registered_iff _ _ _ d' B).
      apply (wf_registered s W w d' v). unfold posting, posting_in.
      rewrite F. apply ascending_In_find; [|assumption].
      eapply wf_postings; eassumption.
Qed.

Lemma postings_count_bounds_witness :
  (1 <= List.length [(0%Z, 0.25%float); (1%Z, 0x1.5555555555555p-2%float)]
   <= List.length (document_id_orders_ server_cats))%nat.
Proof.
  apply (postings_count_bounds server_cats "cat" _ server_cats_reachable).
  reflexivity.
Defined.

(** X13. Every key of the index is a word: not empty, without a separator
    and without a control character, and it is not a stop word. *)
Theorem index_keys_are_words s w :
  reachable s ->
  find w (tf_ s) <> None ->
  is_word w /\ IsInvalid w = false /\ IsStopWord s w = false.
Proof.
  intros (stop_words & calls & B) K.
  apply (built_key_iff _ _ _ w B) in K. destruct K as (c & I & T).
  unfold terms_of in T. apply SplitIntoWordsNoStop_In in T.
  destruct T as [T S].
  destruct (built_entry _ _ _ c B I) as (_ & V & _).
  split; [eapply SplitIntoWords_is_word; eassumption|].
  split; [eapply IsInvalid_word; eassumption | exact S].
Qed.

Lemma index_keys_are_words_witness :
  is_word "boots" /\ IsInvalid "boots" = false
  /\ IsStopWord server_cats "boots" = false.
Proof.
  apply (index_keys_are_words server_cats "boots" server_cats_reachable).
  vm_compute. discriminate.
Defined.

(** X14. What a successful [AddDocument] leaves alone: the stop words, the
    rating, the status and every posting of every other document, the
    whole posting list of every word that is not a term of the new
    document, and the ids that [GetDocumentId] already returned. *)
Theorem AddDocument_frame id text st ratings s s' :
  AddDocument id text st ratings s = (Ok tt, s') ->
  stop_words_ s' = stop_words_ s
  /\ (forall d, d <> id ->
        find d (document_id_to_rating_and_rating_ s')
        = find d (document_id_to_rating_and_rating_ s)
        /\ forall w, posting s' w d = posting s w d)
  /\ (forall w, ~ In w (SplitIntoWordsNoStop s text) ->
        find w (tf_ s') = find w (tf_ s))
  /\ (forall index d, GetDocumentId s index = Ok d ->
        GetDocumentId s' index = Ok d).
Proof.
  intros A. apply AddDocument_inv in A. destruct A as (_ & _ & _ & ->).
  cbn [stop_words_ document_id_to_rating_and_rating_ tf_].
  split; [reflexivity|]. split; [|split].
  - intros d N. split; [now apply find_upsert_other|].
    intros w. unfold posting. cbn [tf_]. rewrite posting_fold_add_posting.
    apply Z.eqb_neq in N. now rewrite N.
  - intros w N. now apply find_fold_add_posting_other.
  - intros index d. unfold GetDocumentId. cbn [document_id_orders_].
    destruct (index <? 0)%Z; [discriminate|].
    destruct (nth_error (document_id_orders_ s) (Z.to_nat index)) eqn:E;
      [|discriminate].
    intros [= <-]. rewrite nth_error_app1, E; [reflexivity|].
    apply nth_error_Some. congruence.
Qed.

Lemma AddDocument_frame_witness :
  let s' := snd (AddDocument 2%Z "dog in boots" BANNED [3%Z] server_cats) in
  stop_words_ s' = stop_words_ server_cats
  /\ (forall d, d <> 2%Z ->
        find d (document_id_to_rating_and_rating_ s')
        = find d (document_id_to_rating_and_rating_ server_cats)
        /\ forall w, posting s' w d = posting server_cats w d)
  /\ (forall w, ~ In w (SplitIntoWordsNoStop server_cats "dog in boots") ->
        find w (tf_ s') = find w (tf_ server_cats))
  /\ (forall index d, GetDocumentId server_cats index = Ok d ->
        GetDocumentId s' index = Ok d).
Proof.
  apply (AddDocument_frame 2%Z "dog in boots" BANNED [3%Z] server_cats).
  reflexivity.
Defined.

(** ** Matching one document: every outcome *)

Lemma excluded_iff s minus d :
  excluded s minus d = true
  <-> exists w, In w minus /\ posting s w d <> None.
Proof.
  unfold excluded. rewrite existsb_exists. split.
  - intros (w & I & P). exists w. split; [assumption|].
    destruct (posting s w d); [discriminate | discriminate P].
  - intros (w & I & P). exists w. split; [assumption|].
    destruct (posting s w d); [reflexivity | congruence].
Qed.

(** The loop over the minus words either throws at the first word that
    is not a key of the index, or tells whether a minus word holds the
    document. *)
Lemma MatchDocument_minus_outcome s d minus :
  match MatchDocument_minus s d minus with
  | Ok b => b = excluded s minus d /\ ~ minus_word_missing s minus d
  | Err e => e = out_of_range /\ minus_word_missing s minus d
  end.
Proof.
  induction minus as [|w minus IH].
  - cbn. split; [reflexivity|].
    intros (before & word & after & E & _). now destruct before.
  - cbn [MatchDocument_minus excluded existsb]. unfold at_.
    unfold posting at 1, posting_in.
    destruct (find w (tf_ s)) as [p|] eqn:F; cbn [bind].
    + unfold count. destruct (find d p) as [v|] eqn:Fd; cbn [Nat.ltb Nat.leb].
      * split; [reflexivity|].
        intros (before & word & after & E & Fw & P).
        destruct before as [|w' before]; cbn [app] in E; injection E as <- _.
        -- congruence.
        -- specialize (P w (or_introl eq_refl)).
           unfold posting, posting_in in P. rewrite F, Fd in P. discriminate.
      * fold (excluded s minus d). cbn [orb].
        assert (M : minus_word_missing s (w :: minus) d
                    <-> minus_word_missing s minus d).
        { split.
          - intros (before & word & after & E & Fw & P).
            destruct before as [|w' before]; cbn [app] in E;
              injection E as <- E; [congruence|].
            exists before, word, after. split; [assumption|].
            split; [assumption|]. intros x I. apply P. now right.
          - intros (before & word & after & E & Fw & P).
            exists (w :: before), word, after. split; [now rewrite E|].
            split; [assumption|]. intros x [<-|I]; [|now apply P].
            unfold posting, posting_in. now rewrite F. }
        destruct (MatchDocument_minus s d minus) as [b|e]; rewrite M;
          exact IH.
    + split; [reflexivity|]. exists [], w, minus. split; [reflexivity|].
      split; [assumption | intros x []].
Qed.

Lemma MatchDocument_plus_ascending s d plus :
  set_ascending (MatchDocument_plus s d plus).
Proof.
  unfold MatchDocument_plus.
  assert (G : forall acc, set_ascending acc ->
            set_ascending
              (fold_left
                 (fun matched_words word =>
                    match find word (tf_ s) with
                    | Some postings =>
                        if (0 <? count d postings)%nat
                        then set_insert word matched_words
                        else matched_words
                    | None => matched_words
                    end) plus acc)).
  { induction plus as [|w plus IH]; intros acc A; [assumption|].
    cbn [fold_left]. apply IH. destruct (find w (tf_ s)); [|assumption].
    destruct (0 <? count d _)%nat; [|assumption].
    now apply set_insert_ascending. }
  apply G. exact I.
Qed.

(** X15. When [MatchDocument] throws. An exception of [ParseQuery] is
    passed on.  Once the query has parsed, the only exception is
    [out_of_range], and it is thrown exactly when the id was never added
    or when the loop over the minus words meets a word that is not a key
    of the index before it meets one that the document holds. *)
Theorem MatchDocument_throws s raw_query d :
  match ParseQuery s raw_query with
  | Err e => MatchDocument s raw_query d = Err e
  | Ok q =>
      (MatchDocument s raw_query d = Err out_of_range
       <-> find d (document_id_to_rating_and_rating_ s) = None
           \/ minus_word_missing s (minus_words q) d)
      /\ forall e, MatchDocument s raw_query d = Err e -> e = out_of_range
  end.
Proof.
  unfold MatchDocument, at_.
  destruct (ParseQuery s raw_query) as [q|e]; cbn [bind]; [|reflexivity].
  destruct (find d (document_id_to_rating_and_rating_ s)) as [[rt st]|];
    cbn [bind snd].
  - pose proof (MatchDocument_minus_outcome s d (minus_words q)) as O.
    destruct (MatchDocument_minus s d (minus_words q)) as [b|e]; cbn [bind].
    + destruct O as [_ N]. split.
      * split; [destruct b; discriminate|].
        intros [C|C]; [discriminate | contradiction].
      * intros e. destruct b; discriminate.
    + destruct O as [-> M]. split.
      * split; [auto | reflexivity].
      * now intros e [= <-].
  - split.
    + split; [auto | reflexivity].
    + now intros e [= <-].
Qed.

(** X16. What [MatchDocument] returns for a document of the history, when
    it does not throw: the status the document was added with, and the
    plus words of the query that are terms of the document, sorted and
    without duplicates, or no word at all when some minus word of the
    query is a term of the document. *)
Theorem MatchDocument_of_history stop_words calls s c raw_query q :
  built stop_words calls s ->
  In c calls ->
  ParseQuery s raw_query = Ok q ->
  ~ minus_word_missing s (minus_words q) (call_id c) ->
  exists words,
    MatchDocument s raw_query (call_id c) = Ok (words, call_status c)
    /\ set_ascending words
    /\ ((exists w, In w (minus_words q) /\ In w (terms_of s c)) ->
        words = [])
    /\ ((forall w, In w (minus_words q) -> ~ In w (terms_of s c)) ->
        forall t, In t words <-> In t (plus_words q) /\ In t (terms_of s c)).
Proof.
  intros B Ic P N. destruct (built_entry _ _ _ c B Ic) as (_ & _ & F).
  assert (T : forall w, posting s w (call_id c) <> None
                        <-> In w (terms_of s c)).
  { intros w. rewrite (built_posting _ _ _ c w B Ic).
    rewrite (count_occ_In string_dec). fold (occurrences w (terms_of s c)).
    destruct (occurrences w (terms_of s c)); split;
      try congruence; try lia; try discriminate. }
  unfold MatchDocument, at_. rewrite P, F. cbn [bind snd].
  pose proof (MatchDocument_minus_outcome s (call_id c) (minus_words q)) as O.
  destruct (MatchDocument_minus s (call_id c) (minus_words q)) as [b|e];
    [|now destruct O].
  destruct O as [-> _]. cbn [bind].
  destruct (excluded s (minus_words q) (call_id c)) eqn:X.
  - exists []. split; [reflexivity|]. split; [exact I|].
    split; [reflexivity|]. intros A t. exfalso.
    apply excluded_iff in X. destruct X as (w & Iw & Pw).
    apply (A w Iw). now apply T.
  - eexists. split; [reflexivity|].
    split; [apply MatchDocument_plus_ascending|]. split.
    + intros (w & Iw & Tw). exfalso.
      assert (X' : excluded s (minus_words q) (call_id c) = true)
        by (apply excluded_iff; exists w; split; [assumption | now apply T]).
      congruence.
    + intros _ t. rewrite MatchDocument_plus_spec, T. reflexivity.
Qed.

Lemma MatchDocument_of_history_witness :
  exists words,
    MatchDocument server_cats_no_stop "city in -boots cat"
      (call_id (mkAddCall 0%Z "cat in the city" ACTUAL [1%Z]))
    = Ok (words, call_status (mkAddCall 0%Z "cat in the city" ACTUAL [1%Z]))
    /\ set_ascending words
    /\ ((exists w,
           In w (minus_words (mkQuery ["cat"; "city"] ["boots"]))
           /\ In w (terms_of server_cats_no_stop
                      (mkAddCall 0%Z "cat in the city" ACTUAL [1%Z]))) ->
        words = [])
    /\ ((forall w,
           In w (minus_words (mkQuery ["cat"; "city"] ["boots"])) ->
           ~ In w (terms_of server_cats_no_stop
                     (mkAddCall 0%Z "cat in the city" ACTUAL [1%Z]))) ->
        forall t,
          In t words
          <-> In t (plus_words (mkQuery ["cat"; "city"] ["boots"]))
              /\ In t (terms_of server_cats_no_stop
                         (mkAddCall 0%Z "cat in the city" ACTUAL [1%Z]))).
Proof.
  apply (MatchDocument_of_history ["in"; "the"] ([] ++ cat_calls)
           server_cats_no_stop
           (mkAddCall 0%Z "cat in the city" ACTUAL [1%Z])
           "city in -boots cat" (mkQuery ["cat"; "city"] ["boots"])
           server_cats_no_stop_built).
  - simpl. auto.
  - reflexivity.
  - intros (before & word & after & E & F & _).
    destruct before as [|w [|w' before]]; cbn in E; try discriminate E.
    injection E as <- _. vm_compute in F. discriminate F.
Defined.

(** ** Searching: what is found and what is not *)

Section SortFacts.
Context {A : Type} (comp : A -> A -> bool).




End SortFacts.



Lemma In_firstn {A : Type} (n : nat) (l : list A) (x : A) :
  In x (firstn n l) -> In x l.
Proof.
  intros I. rewrite <- (firstn_skipn n l). apply in_or_app. now left.
Qed.

Lemma DocumentStatus_eqb_eq (a b : DocumentStatus) :
  DocumentStatus_eqb a b = true <-> a = b.
Proof. destruct a, b; simpl; split; congruence. Qed.

Section SearchFacts.

Variable log : float -> float.



(** What [FindAllDocuments] collects, in a state that satisfies the
    invariant. *)
Lemma FindAllDocuments_docs s q :
  wf_server s ->
  exists docs,
    FindAllDocuments log s q = Ok docs
    /\ NoDup (map id docs)
    /\ forall doc,
         In doc docs
         <-> expected_relevance log s q (id doc) = Some (relevance doc)
             /\ find (id doc) (document_id_to_rating_and_rating_ s)
                = Some (rating doc, status doc).
Proof.
  intros W. unfold FindAllDocuments.
  pose proof (ascending_relevance_map log s q) as A.
  destruct (matched_documents_of_spec s (relevance_map log s q))
    as (docs & E & M & S).
  { intros d r I. apply (ascending_In_find _ _ _ A) in I.
    rewrite relevance_map_spec in I by assumption.
    eapply expected_relevance_registered; eassumption. }
  exists docs. split; [exact E|]. split.
  - rewrite M. now apply ascending_NoDup_keys.
  - intros doc. rewrite S, <- relevance_map_spec by assumption. split.
    + intros [I F]. split; [|assumption]. now apply ascending_In_find.
    + intros [I F]. split; [|assumption]. now apply find_In.
Qed.

Lemma FindTopDocuments_inv s raw_query filter_ docs :
  FindTopDocuments log s raw_query filter_ = Ok docs ->
  exists q found,
    ParseQuery s raw_query = Ok q
    /\ FindAllDocuments log s q = Ok found
    /\ docs = firstn MAX_RESULT_DOCUMENT_COUNT
                (filter (fun lhs => filter_ (id lhs) (status lhs) (rating lhs))
                   (std_sort by_relevance found)).
Proof.
  unfold FindTopDocuments.
  destruct (ParseQuery s raw_query) as [q|e]; [|discriminate].
  cbn [bind]. destruct (FindAllDocuments log s q) as [found|e] eqn:F;
    [|discriminate].
  cbn [bind]. cbv zeta. intros [= <-]. exists q, found.
  split; [reflexivity|]. split; [exact F|].
  destruct (Nat.ltb_spec MAX_RESULT_DOCUMENT_COUNT
              (List.length
                 (filter (fun lhs => filter_ (id lhs) (status lhs) (rating lhs))
                    (std_sort by_relevance found)))) as [L|L];
    [reflexivity|].
  symmetry. now apply firstn_all2.
Qed.



(** X19. In a reachable state [FindTopDocuments] throws exactly when
    [ParseQuery] does, with the same exception: the lookups of the index
    and of the document store inside it never fail. *)
Theorem FindTopDocuments_throws s raw_query filter_ e :
  reachable s ->
  (FindTopDocuments log s raw_query filter_ = Err e
   <-> ParseQuery s raw_query = Err e).
Proof.
  intros R. apply reachable_wf in R. unfold FindTopDocuments.
  destruct (ParseQuery s raw_query) as [q|e']; cbn [bind];
    [|split; intros [= ->]; reflexivity].
  destruct (FindAllDocuments_docs s q R) as (found & -> & _).
  cbn [bind]. split; discriminate.
Qed.

Lemma fold_minus_step_nil s minus : fold_left (minus_step s) minus [] = [].
Proof.
  induction minus as [|w minus IH]; [reflexivity|].
  cbn [fold_left]. unfold minus_step at 2.
  destruct (find w (tf_ s)) as [tf|]; [|exact IH].
  assert (E : fold_left
                (fun (r : omap Z float) (posting : Z * float) =>
                   erase (fst posting) r) tf [] = []).
  { induction tf as [|[k v] tf IHtf]; [reflexivity | exact IHtf]. }
  rewrite E. exact IH.
Qed.

(** X20. A query without plus words finds nothing, in whatever state: the
    empty query, a query of stop words, a query of minus words only. *)
Theorem FindTopDocuments_no_plus_words s raw_query filter_ q :
  ParseQuery s raw_query = Ok q ->
  plus_words q = [] ->
  FindTopDocuments log s raw_query filter_ = Ok [].
Proof.
  intros P E. unfold FindTopDocuments. rewrite P. cbn [bind].
  unfold FindAllDocuments, relevance_map. rewrite E. cbn [fold_left].
  rewrite fold_minus_step_nil. reflexivity.
Qed.

(** X21. The overload that takes a status returns documents of this status
    only. *)
Theorem FindTopDocuments_by_status_sound s raw_query status_ docs :
  FindTopDocuments_by_status log s raw_query status_ = Ok docs ->
  Forall (fun doc => status doc = status_) docs.
Proof.
  unfold FindTopDocuments_by_status. intros T.
  apply FindTopDocuments_inv in T. destruct T as (q & found & _ & _ & ->).
  apply Forall_forall. intros doc I. apply In_firstn, filter_In in I.
  destruct I as [_ E]. now apply DocumentStatus_eqb_eq.
Qed.


End SearchFacts.



Lemma FindTopDocuments_throws_witness :
  FindTopDocuments (fun _ => ln2) server_cats "cat --boots" (fun _ _ _ => true)
  = Err (invalid_argument "Invalid minus word")
  <-> ParseQuery server_cats "cat --boots"
      = Err (invalid_argument "Invalid minus word").
Proof.
  exact (FindTopDocuments_throws (fun _ => ln2) server_cats "cat --boots"
           (fun _ _ _ => true) (invalid_argument "Invalid minus word")
           server_cats_reachable).
Defined.

Lemma FindTopDocuments_no_plus_words_witness :
  FindTopDocuments (fun _ => ln2) server_cats_no_stop "in -cat the"
    (fun _ _ _ => true)
  = Ok [].
Proof.
  apply (FindTopDocuments_no_plus_words (fun _ => ln2) server_cats_no_stop
           "in -cat the" (fun _ _ _ => true) (mkQuery [] ["cat"])).
  - reflexivity.
  - reflexivity.
Defined.

Lemma FindTopDocuments_by_status_sound_witness :
  Forall (fun doc => status doc = ACTUAL)
    [mkDocument 1%Z (0 + ln2 * (1 / 3))%float ACTUAL 1%Z;
     mkDocument 0%Z (0 + ln2 * 0.25)%float ACTUAL 1%Z].
Proof.
  apply (FindTopDocuments_by_status_sound (fun _ => ln2) server_cats "cat"
           ACTUAL).
  vm_compute. reflexivity.
Defined.


(** ** Ratings *)

Lemma sum_Z_bounds (lo hi : Z) (ratings : list Z) :
  Forall (fun r => lo <= r <= hi)%Z ratings ->
  (Z.of_nat (List.length ratings) * lo <= sum_Z ratings
   <= Z.of_nat (List.length ratings) * hi)%Z.
Proof.
  induction 1 as [|r l R F IH]; [simpl; lia|].
  cbn [sum_Z fold_right List.length]. fold (sum_Z l). lia.
Qed.

(** X23. The average rating lies between the smallest and the largest
    rating of the list, as long as the running sum stays within [int]:
    truncation toward zero never leaves the range of the ratings. *)
Theorem ComputeAverageRating_between (lo hi : Z) (ratings : list Z) :
  ratings <> [] ->
  Forall (fun r => lo <= r <= hi)%Z ratings ->
  sums_in_range ratings ->
  (Z.of_nat (List.length ratings) <= 2147483647)%Z ->
  (lo <= ComputeAverageRating ratings <= hi)%Z.
Proof.
  intros N F R L. rewrite (ComputeAverageRating_exact _ R L).
  pose proof (sum_Z_bounds lo hi ratings F) as [B1 B2].
  assert (P : (0 < Z.of_nat (List.length ratings))%Z)
    by (destruct ratings; [congruence | simpl List.length; lia]).
  split.
  - now apply Z.quot_le_lower_bound.
  - now apply Z.quot_le_upper_bound.
Qed.

Lemma ComputeAverageRating_between_witness :
  (-12 <= ComputeAverageRating [5; -12; 2; 1] <= 5)%Z.
Proof.
  apply (ComputeAverageRating_between (-12) 5 [5; -12; 2; 1]%Z).
  - discriminate.
  - repeat constructor; lia.
  - intros n. unfold int_range.
    destruct n as [|[|[|[|[|n]]]]]; simpl; lia.
  - simpl. lia.
Defined.

(** ** The earlier snapshot against the final one *)

Section FilterInsert.
Context {K : Type} `{Ord K}.

Lemma filter_set_insert_out (p : K -> bool) (k : K) (l : oset K) :
  p k = false -> filter p (set_insert k l) = filter p l.
Proof.
  intros P. induction l as [|x l IH]; cbn [set_insert filter].
  - now rewrite P.
  - by_cmp k x; cbn [filter]; [reflexivity | now rewrite P |].
    now rewrite IH.
Qed.

Lemma filter_above (p : K -> bool) (k : K) (l : oset K) :
  Forall (fun y => cmp k y = Lt) l -> Forall (fun y => cmp k y = Lt) (filter p l).
Proof.
  intros F. apply Forall_forall. intros y I. apply filter_In in I.
  rewrite Forall_forall in F. now apply F.
Qed.

Lemma set_insert_above (k : K) (l : oset K) :
  Forall (fun y => cmp k y = Lt) l -> set_insert k l = k :: l.
Proof.
  destruct l as [|x l]; [reflexivity|]. intros F.
  inversion F as [|? ? L _]; subst. cbn [set_insert]. now rewrite L.
Qed.

Lemma filter_set_insert_in (p : K -> bool) (k : K) (l : oset K) :
  set_ascending l -> p k = true ->
  filter p (set_insert k l) = set_insert k (filter p l).
Proof.
  intros A P. induction l as [|x l IH]; cbn [set_insert filter].
  - now rewrite P.
  - destruct A as [B A]. destruct (cmp k x) eqn:E.
    + apply cmp_eq in E. subst x. cbn [filter]. rewrite P.
      cbn [set_insert]. now rewrite cmp_refl.
    + cbn [filter]. rewrite P.
      assert (Fk : Forall (fun y => cmp k y = Lt) (x :: l)).
      { constructor; [assumption|]. eapply Forall_impl; [|exact B].
        intros y. now apply cmp_lt_trans. }
      symmetry. apply set_insert_above.
      change (if p x then x :: filter p l else filter p l)
        with (filter p (x :: l)).
      now apply filter_above.
    + cbn [filter]. rewrite (IH A). destruct (p x); [|reflexivity].
      cbn [set_insert]. now rewrite E.
Qed.

End FilterInsert.

Lemma legacy_SplitIntoWordsNoStop s l text :
  Legacy.stop_words_ l = stop_words_ s ->
  Legacy.SplitIntoWordsNoStop l text = SplitIntoWordsNoStop s text.
Proof.
  intros E. unfold Legacy.SplitIntoWordsNoStop, SplitIntoWordsNoStop,
    Legacy.IsStopWord, IsStopWord. now rewrite E.
Qed.

Lemma of_int_of_nat (n : nat) : of_int (Z.of_nat n) = of_size n.
Proof.
  unfold of_int, of_size.
  destruct (Z.ltb_spec (Z.of_nat n) 0) as [L|_]; [lia | reflexivity].
Qed.

(** *** The same data *)

Lemma legacy_stop_words (words : list string) (acc : oset string) :
  Forall (fun w => w <> EmptyString) words ->
  fold_left (fun stop_words word => set_insert word stop_words) words acc
  = fold_left
      (fun non_empty_strings str =>
         match str with
         | EmptyString => non_empty_strings
         | _ => set_insert str non_empty_strings
         end) words acc.
Proof.
  intros F. revert acc. induction F as [|w words N F IH]; intros acc;
    [reflexivity|].
  cbn [fold_left]. rewrite IH. destruct w; [contradiction | reflexivity].
Qed.

Lemma same_state_new text s :
  SearchServer_of_text text = Ok s ->
  same_state s (Legacy.SetStopWords text Legacy.SearchServer_default).
Proof.
  intros N. apply SearchServer_new_inv in N. subst s.
  constructor; cbn; try reflexivity.
  apply legacy_stop_words. apply Forall_forall. intros w I.
  apply (SplitIntoWords_is_word _ _ I).
Qed.

Lemma same_state_add id text st ratings s s' l :
  same_state s l ->
  AddDocument id text st ratings s = (Ok tt, s') ->
  (Z.of_nat (List.length (document_id_orders_ s)) < 2147483647)%Z ->
  same_state s' (Legacy.AddDocument id text st ratings l).
Proof.
  intros [Etf Estop Estore Ecount] A L.
  apply AddDocument_inv in A. destruct A as (_ & _ & _ & ->).
  unfold Legacy.AddDocument.
  rewrite (legacy_SplitIntoWordsNoStop s l text Estop).
  constructor; cbn [Legacy.tf_ tf_ Legacy.stop_words_ stop_words_
                      Legacy.document_id_to_rating_
                      Legacy.document_id_to_status_
                      document_id_to_rating_and_rating_
                      Legacy.document_count_ document_id_orders_].
  - now rewrite Etf.
  - exact Estop.
  - intros d. destruct (Z.eq_dec d id) as [->|N].
    + now rewrite !find_upsert_same.
    + rewrite !find_upsert_other by assumption. apply Estore.
  - rewrite Ecount, length_app. cbn [List.length].
    rewrite to_int_id by (unfold int_range; lia). lia.
Qed.

Lemma legacy_run_app text calls c :
  legacy_run text (calls ++ [c])
  = Legacy.AddDocument (call_id c) (call_text c) (call_status c)
      (call_ratings c) (legacy_run text calls).
Proof. unfold legacy_run. now rewrite fold_left_app. Qed.

Lemma built_same_state text calls s :
  built (SplitIntoWords text) calls s ->
  (Z.of_nat (List.length calls) <= 2147483647)%Z ->
  same_state s (legacy_run text calls).
Proof.
  induction 1 as [s N | calls s c s' B IH A]; intros L.
  - now apply same_state_new.
  - rewrite length_app in L. cbn [List.length] in L.
    rewrite legacy_run_app. eapply same_state_add; [|exact A|].
    + apply IH. lia.
    + rewrite (built_orders _ _ _ B), length_map. lia.
Qed.

(** X24. The final snapshot refines the earlier one. On every history that
    the final snapshot accepts (stop words given as one text, then calls
    of [AddDocument] that all return), the earlier snapshot, fed with the
    same text and the same calls, ends with the same index, the same stop
    words, the same rating and status for every id, and a document count
    equal to the number of calls: the validation is the only
    difference. *)
Theorem legacy_same_state text calls s :
  built (SplitIntoWords text) calls s ->
  (Z.of_nat (List.length calls) <= 2147483647)%Z ->
  Legacy.tf_ (legacy_run text calls) = tf_ s
  /\ Legacy.stop_words_ (legacy_run text calls) = stop_words_ s
  /\ (forall d,
        find d (document_id_to_rating_and_rating_ s)
        = match find d (Legacy.document_id_to_rating_ (legacy_run text calls)),
                find d (Legacy.document_id_to_status_ (legacy_run text calls))
          with
          | Some rating_, Some status_ => Some (rating_, status_)
          | _, _ => None
          end)
  /\ Legacy.GetDocumentCount (legacy_run text calls) = GetDocumentCount s.
Proof.
  intros B L. destruct (built_same_state text calls s B L) as [E1 E2 E3 E4].
  split; [exact E1|]. split; [exact E2|]. split; [exact E3|].
  unfold Legacy.GetDocumentCount, GetDocumentCount. rewrite E4.
  symmetry. apply to_int_id. unfold int_range.
  rewrite (built_orders _ _ _ B), length_map. lia.
Qed.

(** *** Queries *)

Lemma substring_tail (c : ascii) (t : string) :
  String.substring 1 (String.length (String c t) - 1) (String c t) = t.
Proof. simpl. rewrite Nat.sub_0_r. apply substring_all. Qed.

Lemma legacy_ParseQuery_loop s words q0 q0' q :
  Forall (fun w => IsStopWord s w = false) words ->
  plus_words q0' = plus_words q0 ->
  filter (fun t => negb (IsStopWord s t)) (minus_words q0') = minus_words q0 ->
  set_ascending (minus_words q0') ->
  ParseQuery_loop s words q0 = Ok q ->
  plus_words (fold_left Legacy.ParseQuery_step words q0') = plus_words q
  /\ filter (fun t => negb (IsStopWord s t))
       (minus_words (fold_left Legacy.ParseQuery_step words q0'))
     = minus_words q.
Proof.
  intros F. revert q0 q0'.
  induction F as [|w words Sw F IH]; intros q0 q0' Ep Em Am.
  - intros [= <-]. auto.
  - cbn [ParseQuery_loop fold_left].
    destruct (ParseQueryWord s w) as [qw|e] eqn:P; [|discriminate].
    cbn [bind]. fold (with_word qw q0). apply IH.
    + apply ParseQueryWord_inv in P. unfold with_word, Legacy.ParseQuery_step.
      destruct P as [(t & -> & _ & _ & ->)|(C & ->)];
        cbn [is_stop is_minus data].
      * change (char_at (String "-" t) 0) with "-"%char.
        rewrite Ascii.eqb_refl. cbn [plus_words].
        destruct (IsStopWord s t); exact Ep.
      * apply Ascii.eqb_neq in C. rewrite C, Sw. cbn [plus_words].
        now rewrite Ep.
    + apply ParseQueryWord_inv in P. unfold with_word, Legacy.ParseQuery_step.
      destruct P as [(t & -> & _ & _ & ->)|(C & ->)];
        cbn [is_stop is_minus data].
      * change (char_at (String "-" t) 0) with "-"%char.
        rewrite Ascii.eqb_refl, substring_tail. cbn [minus_words].
        destruct (IsStopWord s t) eqn:St; cbn [minus_words].
        -- rewrite filter_set_insert_out; [exact Em | now rewrite St].
        -- rewrite filter_set_insert_in; [now rewrite Em | exact Am |].
           now rewrite St.
      * apply Ascii.eqb_neq in C. rewrite C, Sw. cbn [minus_words]. exact Em.
    + unfold Legacy.ParseQuery_step.
      destruct (Ascii.eqb (char_at w 0) "-"); cbn [minus_words];
        [now apply set_insert_ascending | exact Am].
Qed.

Lemma legacy_ParseQuery s l raw_query q :
  Legacy.stop_words_ l = stop_words_ s ->
  ParseQuery s raw_query = Ok q ->
  plus_words (Legacy.ParseQuery l raw_query) = plus_words q
  /\ filter (fun t => negb (IsStopWord s t))
       (minus_words (Legacy.ParseQuery l raw_query))
     = minus_words q.
Proof.
  intros E P. unfold Legacy.ParseQuery.
  rewrite (legacy_SplitIntoWordsNoStop s l raw_query E).
  apply (legacy_ParseQuery_loop s _ (mkQuery [] []) (mkQuery [] []) q);
    [|reflexivity | reflexivity | exact I | exact P].
  apply Forall_forall. intros w Iw. now apply SplitIntoWordsNoStop_In in Iw.
Qed.

(** X25. The earlier [ParseQuery] against the final one. Whenever the final
    one accepts a query, the earlier one returns the same plus words, and
    the minus words of the final one are those of the earlier one without
    the stop words: dropping a minus word that is a stop word is the only
    change for the queries that parse. *)
Theorem legacy_ParseQuery_agree s l raw_query q :
  Legacy.stop_words_ l = stop_words_ s ->
  ParseQuery s raw_query = Ok q ->
  plus_words (Legacy.ParseQuery l raw_query) = plus_words q
  /\ filter (fun t => negb (IsStopWord s t))
       (minus_words (Legacy.ParseQuery l raw_query))
     = minus_words q.
Proof. apply legacy_ParseQuery. Qed.

Lemma legacy_ParseQuery_agree_witness :
  plus_words
    (Legacy.ParseQuery
       (Legacy.SetStopWords "in the" Legacy.SearchServer_default)
       "cat -in -boots")
  = plus_words (mkQuery ["cat"] ["boots"])
  /\ filter (fun t => negb (IsStopWord server_in_the t))
       (minus_words
          (Legacy.ParseQuery
             (Legacy.SetStopWords "in the" Legacy.SearchServer_default)
             "cat -in -boots"))
     = minus_words (mkQuery ["cat"] ["boots"]).
Proof.
  apply (legacy_ParseQuery_agree server_in_the
           (Legacy.SetStopWords "in the" Legacy.SearchServer_default)
           "cat -in -boots" (mkQuery ["cat"] ["boots"])).
  - reflexivity.
  - reflexivity.
Defined.

Lemma legacy_ParseQuery_step_spec words q0 :
  (forall t, In t (plus_words (fold_left Legacy.ParseQuery_step words q0))
             <-> In t (plus_words q0)
                 \/ (In t words /\ char_at t 0 <> "-"%char))
  /\ (forall t, In t (minus_words (fold_left Legacy.ParseQuery_step words q0))
                <-> In t (minus_words q0) \/ In (String "-" t) words).
Proof.
  revert q0. induction words as [|w words IH]; intros q0.
  - cbn. split; intros t; tauto.
  - cbn [fold_left]. destruct (IH (Legacy.ParseQuery_step q0 w)) as [Hp Hm].
    unfold Legacy.ParseQuery_step in *.
    destruct (Ascii.eqb_spec (char_at w 0) "-"%char) as [C|C];
      cbn [plus_words minus_words] in *.
    + destruct w as [|c t0]; [discriminate C|].
      unfold char_at in C. cbn in C. subst c.
      rewrite substring_tail in *. split; intros t.
      * rewrite Hp. cbn [In]. split; [tauto|].
        intros [?|[[E|?] N]]; [tauto | | tauto].
        subst t. now contradiction N.
      * rewrite Hm, set_insert_In. cbn [In]. split.
        -- intros [[->|?]|?]; tauto.
        -- intros [?|[E|?]]; [tauto | | tauto].
           injection E as ->. tauto.
    + split; intros t.
      * rewrite Hp, set_insert_In. cbn [In]. split.
        -- intros [[->|?]|?]; tauto.
        -- intros [?|[[->|?] N]]; tauto.
      * rewrite Hm. cbn [In]. split; [tauto|].
        intros [?|[E|?]]; [tauto | | tauto].
        subst w. now contradiction C.
Qed.

(** X26. The earlier [ParseQuery] never throws and checks nothing: every
    word that starts with ['-'] gives what follows as a minus word, be it
    empty (a lone ['-']), a word that starts with ['-'] again or a stop
    word; every other word is a plus word. *)
Theorem legacy_ParseQuery_sets l text :
  (forall t, In t (plus_words (Legacy.ParseQuery l text))
             <-> In t (Legacy.SplitIntoWordsNoStop l text)
                 /\ char_at t 0 <> "-"%char)
  /\ (forall t, In t (minus_words (Legacy.ParseQuery l text))
                <-> In (String "-" t) (Legacy.SplitIntoWordsNoStop l text)).
Proof.
  unfold Legacy.ParseQuery.
  destruct (legacy_ParseQuery_step_spec (Legacy.SplitIntoWordsNoStop l text)
              (mkQuery [] [])) as [Hp Hm].
  split; intros t.
  - rewrite Hp. cbn. tauto.
  - rewrite Hm. cbn. tauto.
Qed.

(** *** Searching *)

Section LegacyEngine.

Variable log : float -> float.

Lemma legacy_plus_step s l r w :
  same_state s l -> Legacy.plus_step log l r w = plus_step log s r w.
Proof.
  intros [Etf _ _ Ecount]. unfold Legacy.plus_step, plus_step,
    Legacy.CalculateIDF, CalculateIDF.
  now rewrite Etf, Ecount, of_int_of_nat.
Qed.

Lemma legacy_minus_step s l r w :
  same_state s l -> Legacy.minus_step l r w = minus_step s r w.
Proof.
  intros [Etf _ _ _]. unfold Legacy.minus_step, minus_step. now rewrite Etf.
Qed.

Lemma legacy_fold_plus_step s l plus r :
  same_state s l ->
  fold_left (Legacy.plus_step log l) plus r
  = fold_left (plus_step log s) plus r.
Proof.
  intros E. revert r. induction plus as [|w plus IH]; intros r; [reflexivity|].
  cbn [fold_left]. now rewrite IH, (legacy_plus_step s l).
Qed.

Lemma legacy_fold_minus_step s l minus r :
  same_state s l ->
  fold_left (Legacy.minus_step l) minus r = fold_left (minus_step s) minus r.
Proof.
  intros E. revert r. induction minus as [|w minus IH]; intros r;
    [reflexivity|].
  cbn [fold_left]. now rewrite IH, (legacy_minus_step s l).
Qed.

(** A minus word that is a stop word erases nothing: it is no key of the
    index. *)
Lemma fold_minus_step_filter s minus r :
  wf_server s ->
  fold_left (minus_step s)
    (filter (fun t => negb (IsStopWord s t)) minus) r
  = fold_left (minus_step s) minus r.
Proof.
  intros W. revert r. induction minus as [|w minus IH]; intros r;
    [reflexivity|].
  cbn [filter fold_left]. destruct (IsStopWord s w) eqn:S; cbn [negb].
  - rewrite IH. unfold minus_step at 3. now rewrite (wf_no_stop s W w S).
  - cbn [fold_left]. apply IH.
Qed.

Lemma legacy_matched_documents_of s l rel :
  same_state s l ->
  Legacy.matched_documents_of l rel = matched_documents_of s rel.
Proof.
  intros E. induction rel as [|[d r] rel IH]; [reflexivity|].
  cbn [Legacy.matched_documents_of matched_documents_of]. unfold at_.
  rewrite (same_store s l E d), IH.
  destruct (find d (Legacy.document_id_to_rating_ l)); [|reflexivity].
  destruct (find d (Legacy.document_id_to_status_ l)); reflexivity.
Qed.

(** X27. Both snapshots find the same documents. On every history the
    final snapshot accepts and for every query it accepts, the earlier
    [FindTopDocuments] returns what the final one returns, for every
    predicate: the same documents with the same relevances, ratings and
    statuses in the same order. *)
Theorem legacy_FindTopDocuments_agree text calls s raw_query q filter_ :
  built (SplitIntoWords text) calls s ->
  (Z.of_nat (List.length calls) <= 2147483647)%Z ->
  ParseQuery s raw_query = Ok q ->
  Legacy.FindTopDocuments log (legacy_run text calls) raw_query filter_
  = FindTopDocuments log s raw_query filter_.
Proof.
  intros B L P. pose proof (built_same_state text calls s B L) as E.
  pose proof (built_wf _ _ _ B) as W.
  destruct (legacy_ParseQuery s (legacy_run text calls) raw_query q
              (same_stop s _ E) P) as [Ep Em].
  unfold Legacy.FindTopDocuments, FindTopDocuments. rewrite P. cbn [bind].
  cbv zeta.
  assert (F : Legacy.FindAllDocuments log (legacy_run text calls)
                (Legacy.ParseQuery (legacy_run text calls) raw_query)
              = FindAllDocuments log s q).
  { unfold Legacy.FindAllDocuments, FindAllDocuments.
    rewrite (legacy_matched_documents_of s _ _ E). f_equal.
    unfold Legacy.relevance_map, relevance_map.
    rewrite (legacy_fold_minus_step s _ _ _ E),
      (legacy_fold_plus_step s _ _ _ E), Ep, <- Em.
    symmetry. now apply fold_minus_step_filter. }
  rewrite F. reflexivity.
Qed.

End LegacyEngine.

Lemma legacy_same_state_witness :
  Legacy.tf_ (legacy_run "in the" ([] ++ cat_calls))
  = tf_ server_cats_no_stop
  /\ Legacy.stop_words_ (legacy_run "in the" ([] ++ cat_calls))
     = stop_words_ server_cats_no_stop
  /\ (forall d,
        find d (document_id_to_rating_and_rating_ server_cats_no_stop)
        = match find d (Legacy.document_id_to_rating_
                          (legacy_run "in the" ([] ++ cat_calls))),
                find d (Legacy.document_id_to_status_
                          (legacy_run "in the" ([] ++ cat_calls)))
          with
          | Some rating_, Some status_ => Some (rating_, status_)
          | _, _ => None
          end)
  /\ Legacy.GetDocumentCount (legacy_run "in the" ([] ++ cat_calls))
     = GetDocumentCount server_cats_no_stop.
Proof.
  apply (legacy_same_state "in the" ([] ++ cat_calls) server_cats_no_stop).
  - exact server_cats_no_stop_built.
  - simpl. lia.
Defined.

Lemma legacy_FindTopDocuments_agree_witness :
  Legacy.FindTopDocuments (fun _ => ln2)
    (legacy_run "in the" ([] ++ cat_calls)) "cat -in -boots"
    (fun _ _ _ => true)
  = FindTopDocuments (fun _ => ln2) server_cats_no_stop "cat -in -boots"
      (fun _ _ _ => true).
Proof.
  apply (legacy_FindTopDocuments_agree (fun _ => ln2) "in the"
           ([] ++ cat_calls) server_cats_no_stop "cat -in -boots"
           (mkQuery ["cat"] ["boots"])).
  - exact server_cats_no_stop_built.
  - simpl. lia.
  - reflexivity.
Defined.

(** *** What the validation prevents *)

(** X28. The earlier [AddDocument] accepts an id a second time. After the
    same text has been added twice under an id that had no posting, the
    document is counted twice, the rating and the status are those of the
    second call, and every weight is the sum of twice as many steps.
    (The final snapshot throws at the second call.) *)
Theorem legacy_AddDocument_twice id text st1 ratings1 st2 ratings2 l w :
  (forall w', posting_in (Legacy.tf_ l) w' id = None) ->
  let words := Legacy.SplitIntoWordsNoStop l text in
  let l2 := Legacy.AddDocument id text st2 ratings2
              (Legacy.AddDocument id text st1 ratings1 l) in
  Legacy.GetDocumentCount l2
  = to_int (to_int (Legacy.GetDocumentCount l + 1) + 1)
  /\ find id (Legacy.document_id_to_rating_ l2)
     = Some (ComputeAverageRating ratings2)
  /\ find id (Legacy.document_id_to_status_ l2) = Some st2
  /\ posting_in (Legacy.tf_ l2) w id
     = match occurrences w words with
       | O => None
       | S k => Some (add_times (2 * S k) (AddDocument_step words))
       end.
Proof.
  intros N. cbv zeta.
  split; [reflexivity|].
  split; [unfold Legacy.AddDocument; cbn [Legacy.document_id_to_rating_];
          apply find_upsert_same|].
  split; [unfold Legacy.AddDocument; cbn [Legacy.document_id_to_status_];
          apply find_upsert_same|].
  change (Legacy.tf_
            (Legacy.AddDocument id text st2 ratings2
               (Legacy.AddDocument id text st1 ratings1 l)))
    with (fold_left
            (add_posting id
               (AddDocument_step (Legacy.SplitIntoWordsNoStop l text)))
            (Legacy.SplitIntoWordsNoStop l text)
            (fold_left
               (add_posting id
                  (AddDocument_step (Legacy.SplitIntoWordsNoStop l text)))
               (Legacy.SplitIntoWordsNoStop l text) (Legacy.tf_ l))).
  rewrite !posting_fold_add_posting, Z.eqb_refl, N, tally_occurrences.
  destruct (occurrences w (Legacy.SplitIntoWordsNoStop l text)) as [|k] eqn:O.
  - unfold tally.
    assert (G : forall words start,
              occurrences w words = 0%nat ->
              fold_left
                (fun acc w0 =>
                   if String.eqb w w0
                   then Some
                          (increase
                             (AddDocument_step
                                (Legacy.SplitIntoWordsNoStop l text)) acc)
                   else acc) words start = start).
    { induction words as [|x words IH]; intros start Z; [reflexivity|].
      rewrite occurrences_cons in Z. cbn [fold_left].
      destruct (String.eqb w x); [discriminate|]. now apply IH. }
    now apply G.
  - rewrite tally_from_some, O. do 2 f_equal. lia.
Qed.

Lemma legacy_AddDocument_twice_witness :
  let words := Legacy.SplitIntoWordsNoStop Legacy.SearchServer_default "cat" in
  let l2 := Legacy.AddDocument 0%Z "cat" BANNED [5%Z]
              (Legacy.AddDocument 0%Z "cat" ACTUAL [1%Z]
                 Legacy.SearchServer_default) in
  Legacy.GetDocumentCount l2
  = to_int (to_int (Legacy.GetDocumentCount Legacy.SearchServer_default + 1)
            + 1)
  /\ find 0%Z (Legacy.document_id_to_rating_ l2)
     = Some (ComputeAverageRating [5%Z])
  /\ find 0%Z (Legacy.document_id_to_status_ l2) = Some BANNED
  /\ posting_in (Legacy.tf_ l2) "cat" 0%Z
     = match occurrences "cat" words with
       | O => None
       | S k => Some (add_times (2 * S k) (AddDocument_step words))
       end.
Proof.
  apply (legacy_AddDocument_twice 0%Z "cat" ACTUAL [1%Z] BANNED [5%Z]
           Legacy.SearchServer_default "cat").
  reflexivity.
Defined.

Lemma legacy_MatchDocument_minus_inv l d minus b :
  Legacy.MatchDocument_minus l d minus = Ok b ->
  b = false ->
  forall w, In w minus -> find w (Legacy.tf_ l) <> None.
Proof.
  induction minus as [|x minus IH]; intros M B w I; [destruct I|].
  cbn [Legacy.MatchDocument_minus] in M. unfold at_ in M.
  destruct (find x (Legacy.tf_ l)) as [p|] eqn:F; [|discriminate].
  cbn [bind] in M. destruct (0 <? count d p)%nat; [congruence|].
  destruct I as [<-|I]; [congruence | eauto].
Qed.

Lemma legacy_MatchDocument_plus_inv l d plus acc words :
  Legacy.MatchDocument_plus l d plus acc = Ok words ->
  forall w, In w plus -> find w (Legacy.tf_ l) <> None.
Proof.
  revert acc. induction plus as [|x plus IH]; intros acc M w I; [destruct I|].
  cbn [Legacy.MatchDocument_plus] in M. unfold at_ in M.
  destruct (find x (Legacy.tf_ l)) as [p|] eqn:F; [|discriminate].
  cbn [bind] in M. destruct I as [<-|I]; [congruence | eauto].
Qed.

(** X29. The earlier [MatchDocument] looks every word up with [at].  When
    it returns words for a document (no minus word excludes it), every
    plus word and every minus word of the query is a key of the index: a
    query with a word that no document holds makes it throw, where the
    final snapshot guards the plus words. *)
Theorem legacy_MatchDocument_needs_keys l raw_query d words status_ w :
  Legacy.MatchDocument l raw_query d = Ok (words, status_) ->
  words <> [] ->
  In w (plus_words (Legacy.ParseQuery l raw_query))
  \/ In w (minus_words (Legacy.ParseQuery l raw_query)) ->
  find w (Legacy.tf_ l) <> None.
Proof.
  unfold Legacy.MatchDocument. cbv zeta. unfold at_ at 1.
  destruct (find d (Legacy.document_id_to_status_ l)) as [st|];
    [|discriminate].
  cbn [bind].
  destruct (Legacy.MatchDocument_minus l d
              (minus_words (Legacy.ParseQuery l raw_query))) as [b|e] eqn:M;
    [|discriminate].
  cbn [bind]. destruct b; [intros [= <- _] N; congruence|].
  destruct (Legacy.MatchDocument_plus l d
              (plus_words (Legacy.ParseQuery l raw_query)) []) as [ws|e] eqn:P;
    [|discriminate].
  cbn [bind]. intros _ _ [I|I].
  - eapply legacy_MatchDocument_plus_inv; eassumption.
  - eapply legacy_MatchDocument_minus_inv; [exact M | reflexivity | exact I].
Qed.

Lemma legacy_MatchDocument_needs_keys_witness :
  find "cat" (Legacy.tf_ (legacy_run "in the" ([] ++ cat_calls))) <> None.
Proof.
  apply (legacy_MatchDocument_needs_keys
           (legacy_run "in the" ([] ++ cat_calls)) "cat city -boots" 0%Z
           ["cat"; "city"] ACTUAL "cat").
  - reflexivity.
  - discriminate.
  - left. simpl. auto.
Defined.

(** ** The printer of the test framework *)

Lemma Print_rest {T : Type} (show : T -> string) (items : list T) (item : T)
  (output : string) :
  fst (fold_left (Print_step show) items ((output ++ show item)%string, false))
  = (output ++ String.concat ", " (map show (item :: items)))%string.
Proof.
  revert item output. induction items as [|next items IH]; intros item output.
  - reflexivity.
  - cbn [fold_left Print_step].
    rewrite (IH next ((output ++ show item) ++ ", ")%string).
    cbn [map String.concat]. now rewrite !append_assoc.
Qed.

Lemma Print_concat {T : Type} (show : T -> string) (output : string)
  (items : list T) :
  Print show output items
  = (output ++ String.concat ", " (map show items))%string.
Proof.
  unfold Print. destruct items as [|item rest].
  - cbn. now rewrite append_nil_r.
  - cbn [fold_left Print_step]. apply Print_rest.
Qed.

(** X30. [Print] writes the items in order with [", "] between two
    neighbours and nothing before the first or after the last, whatever
    the stream already holds; a vector is printed between brackets, a set
    and a map between braces, and an entry of a map as [key: value]. *)
Theorem Print_join {T F S : Type} (show : T -> string)
  (show_first : F -> string) (show_second : S -> string)
  (output : string) (items : list T) (entries : list (F * S)) :
  Print show output items
  = (output ++ String.concat ", " (map show items))%string
  /\ print_vector show output items
     = (output ++ "[" ++ String.concat ", " (map show items) ++ "]")%string
  /\ print_set show output items
     = (output ++ "{" ++ String.concat ", " (map show items) ++ "}")%string
  /\ print_map show_first show_second output entries
     = (output ++ "{"
        ++ String.concat ", "
             (map (fun p => show_first (fst p) ++ ": " ++ show_second (snd p))
                entries)
        ++ "}")%string.
Proof.
  unfold print_vector, print_set, print_map.
  rewrite !Print_concat, !append_assoc. auto.
Qed.

(** ** The repository's tests, replayed on the model *)

(** [TestExcludeDocumentsContainingMinusWordsFromSearchResults]. *)
Example test_minus_words log :
  FindTopDocuments_by_status log server_cats "cat -boots" ACTUAL
  = Ok [mkDocument 0%Z (0 + log 1 * 0.25)%float ACTUAL 1%Z]
  /\ FindTopDocuments_by_status log server_cats "cat -city" ACTUAL
     = Ok [mkDocument 1%Z (0 + log 1 * (1 / 3))%float ACTUAL 1%Z].
Proof. split; vm_compute; reflexivity. Qed.

(** [TestExcludeStopWordsFromAddedDocumentContent]. *)
Example test_stop_words log :
  let content := mkAddCall 42%Z "cat in the city" ACTUAL [1; 2; 3]%Z in
  FindTopDocuments_by_status log (add_all [content] SearchServer_default)
    "in" ACTUAL
  = Ok [mkDocument 42%Z (0 + log 1 * 0.25)%float ACTUAL 2%Z]
  /\ FindTopDocuments_by_status log (add_all [content] server_in_the) "in"
       ACTUAL = Ok [].
Proof. split; vm_compute; reflexivity. Qed.

(** [TestExcludeAllMatchedWordsIfMinusWordMatched]. *)
Example test_match_minus :
  let server :=
    add_all [mkAddCall 0%Z "black cat is in the city" ACTUAL [1%Z]]
      SearchServer_default in
  MatchDocument server "black cat" 0%Z = Ok (["black"; "cat"], ACTUAL)
  /\ MatchDocument server "cat -black" 0%Z = Ok ([], ACTUAL).
Proof. split; reflexivity. Qed.

(** [TestMatchingDocuments]. *)
Example test_matching :
  exists server,
    SearchServer_of_text "a the and" = Ok server
    /\ MatchDocument
         (add_all
            [mkAddCall 0%Z "a quick brown fox jumps over the lazy dog"
               BANNED [1; 2; 3]%Z] server)
         "a lazy cat and the brown dog" 0%Z
       = Ok (["brown"; "dog"; "lazy"], BANNED).
Proof. eexists. split; reflexivity. Qed.

(** [TestDocumentRatingIsAnAverageOfAllRatings]. *)
Example test_rating log :
  FindTopDocuments_by_status log
    (add_all [mkAddCall 0%Z "cat" ACTUAL [5; 7; 12]%Z] SearchServer_default)
    "cat" ACTUAL
  = Ok [mkDocument 0%Z (0 + log 1 * 1)%float ACTUAL ((5 + 7 + 12) / 3)%Z].
Proof. vm_compute. reflexivity. Qed.

(** [TestGettingDocumentCount]. *)
Example test_count :
  GetDocumentCount SearchServer_default = 0%Z
  /\ GetDocumentCount
       (add_all [mkAddCall 0%Z "cat drinks milk" ACTUAL [1%Z]]
          SearchServer_default) = 1%Z
  /\ GetDocumentCount
       (add_all [mkAddCall 0%Z "cat drinks milk" ACTUAL [1%Z];
                 mkAddCall 2%Z "dog eats a bone" ACTUAL [1%Z]]
          SearchServer_default) = 2%Z.
Proof. repeat split. Qed.

(** [TestDocumentRelevanceCalculation], the queries with one answer. *)
Example test_relevance log :
  let server :=
    add_all [mkAddCall 0%Z "one" ACTUAL [1%Z];
             mkAddCall 1%Z "two three" ACTUAL [1%Z];
             mkAddCall 2%Z "three four five" ACTUAL [1%Z]]
      SearchServer_default in
  FindTopDocuments_by_status log server "one" ACTUAL
  = Ok [mkDocument 0%Z (0 + log 3 * 1)%float ACTUAL 1%Z]
  /\ FindTopDocuments_by_status log server "four" ACTUAL
     = Ok [mkDocument 2%Z (0 + log 3 * (1 / 3))%float ACTUAL 1%Z]
  /\ FindTopDocuments_by_status log server "four five" ACTUAL
     = Ok [mkDocument 2%Z (0 + log 3 * (1 / 3) + log 3 * (1 / 3))%float
             ACTUAL 1%Z].
Proof. repeat split; vm_compute; reflexivity. Qed.
